(** * Kornia colour conversions: grayscale <-> RGB and RGB <-> Lab

    A shallow embedding of [Colors/gray.ipynb] and [Colors/lab.ipynb].

    Tensors are a shape together with row-major flat data.  Every operation
    of the two notebooks works along the channel axis, the third from the
    last, so a tensor of shape [lead ++ [c; h; w]] is read as [numel lead]
    consecutive blocks of [c] planes of [h * w] elements.

    Element arithmetic is the tensor library's own.  It is taken through
    the classes [Scalar] and [FloatScalar]; the 8-bit unsigned instance is
    concrete ([Z] modulo 256) and the floating-point kinds are idealised by
    an instance on the real numbers. *)

From Stdlib Require Import List Arith ZArith QArith Reals Qreals Lia Lra Bool.
Import ListNotations.

Close Scope Q_scope.
Close Scope Z_scope.
Close Scope R_scope.
Open Scope nat_scope.

(** ** Numeric kinds, exceptions and results *)

Inductive dtype : Type :=
  | uint8 | int8 | int16 | int32 | int64
  | float16 | bfloat16 | float32 | float64
  | bool_.

(** The Python exceptions the converters and the tensor operations raise.
    The shape error of the converters is Python's [ValueError]. *)
Inductive exn : Type :=
  | ValueError | TypeError | IndexError | RuntimeError.

Inductive result (X : Type) : Type :=
  | Ok (x : X)
  | Raise (e : exn).

Arguments Ok {X} x.
Arguments Raise {X} e.

Definition bind {X Y : Type} (m : result X) (k : X -> result Y) : result Y :=
  match m with
  | Ok x => k x
  | Raise e => Raise e
  end.

Declare Scope result_scope.
Delimit Scope result_scope with result.
Notation "x <- m ;; k" := (bind m (fun x => k))
  (at level 61, m at next level, right associativity) : result_scope.
Open Scope result_scope.

(** ** Element arithmetic *)

(** What the grayscale converter needs of an element type: its numeric
    kind, the conversion of a Python number to an element
    ([torch.tensor(..., dtype=...)], or a Python scalar as operand), and
    [+] and [*].  A Python number is read as the rational it denotes, so
    that [16.0] and [16] are one element. *)
Class Scalar (A : Type) : Type := {
  dtype_of : dtype;
  lit : Q -> A;
  add : A -> A -> A;
  mul : A -> A -> A;
  lit_Qeq : forall p q : Q, (p == q)%Q -> lit p = lit q
}.

(** What the Lab converter needs on top: [-], [/], [torch.pow] and the
    comparison [<] ([x > y] is [ltb y x]).  [ltb_asym] holds of IEEE
    comparisons as well as of exact ones. *)
Class FloatScalar (A : Type) {SA : Scalar A} : Type := {
  sub : A -> A -> A;
  div : A -> A -> A;
  pow : A -> A -> A;
  ltb : A -> A -> bool;
  ltb_asym : forall x y, ltb x y = true -> ltb y x = false
}.

(** A Python number converted to an integer kind loses its fraction. *)
Definition Qtrunc (q : Q) : Z := Z.quot (Qnum q) (Zpos (Qden q)).

(** 8-bit unsigned elements: integers with wrap-around modulo 256. *)
Definition wrap8 (z : Z) : Z := (z mod 256)%Z.

#[export, refine] Instance u8_Scalar : Scalar Z := {
  dtype_of := uint8;
  lit q := wrap8 (Qtrunc q);
  add x y := wrap8 (x + y)%Z;
  mul x y := wrap8 (x * y)%Z
}.
Proof.
  intros [a b] [c d] H. unfold Qeq in H. unfold Qtrunc. simpl in *. f_equal.
  rewrite <- (Z.quot_mul_cancel_r a (Zpos b) (Zpos d)) by discriminate.
  rewrite <- (Z.quot_mul_cancel_r c (Zpos d) (Zpos b)) by discriminate.
  rewrite H. f_equal. apply Z.mul_comm.
Defined.

(** 64-bit signed elements, one of the kinds without default weights. *)
Definition wrap64 (z : Z) : Z := ((z + 2 ^ 63) mod 2 ^ 64 - 2 ^ 63)%Z.

#[refine] Definition i64_Scalar : Scalar Z := {|
  dtype_of := int64;
  lit q := wrap64 (Qtrunc q);
  add x y := wrap64 (x + y)%Z;
  mul x y := wrap64 (x * y)%Z
|}.
Proof.
  intros [a b] [c d] H. unfold Qeq in H. unfold Qtrunc. simpl in *. f_equal.
  rewrite <- (Z.quot_mul_cancel_r a (Zpos b) (Zpos d)) by discriminate.
  rewrite <- (Z.quot_mul_cancel_r c (Zpos d) (Zpos b)) by discriminate.
  rewrite H. f_equal. apply Z.mul_comm.
Defined.

(** 8-bit signed elements, the other 8-bit integer kind; it has no
    default weights either. *)
Definition wrap8s (z : Z) : Z := ((z + 128) mod 256 - 128)%Z.

#[refine] Definition i8_Scalar : Scalar Z := {|
  dtype_of := int8;
  lit q := wrap8s (Qtrunc q);
  add x y := wrap8s (x + y)%Z;
  mul x y := wrap8s (x * y)%Z
|}.
Proof.
  intros [a b] [c d] H. unfold Qeq in H. unfold Qtrunc. simpl in *. f_equal.
  rewrite <- (Z.quot_mul_cancel_r a (Zpos b) (Zpos d)) by discriminate.
  rewrite <- (Z.quot_mul_cancel_r c (Zpos d) (Zpos b)) by discriminate.
  rewrite H. f_equal. apply Z.mul_comm.
Defined.

(** Floating-point elements idealised as real numbers: the arithmetic is
    exact, without rounding, overflow or NaN.  What is proved through
    this instance is proved of the formulas over the real numbers; a
    floating-point run follows them up to its rounding, so the theorems
    stated through it are bounds with a margin, not equalities. *)
Definition Rltb (x y : R) : bool := if Rlt_dec x y then true else false.

#[export, refine] Instance R_Scalar : Scalar R := {
  dtype_of := float64;
  lit := Q2R;
  add := Rplus;
  mul := Rmult
}.
Proof. exact Qeq_eqR. Defined.

#[export, refine] Instance R_FloatScalar : FloatScalar R := {
  sub := Rminus;
  div := Rdiv;
  pow := Rpower;
  ltb := Rltb
}.
Proof.
  intros x y. unfold Rltb.
  destruct (Rlt_dec x y), (Rlt_dec y x); try reflexivity; try discriminate.
  lra.
Defined.

(** [bfloat16] elements, idealised the same way; the grayscale converter
    reads their kind and has no default weights for it. *)
#[refine] Definition bf16_Scalar : Scalar R := {|
  dtype_of := bfloat16;
  lit := Q2R;
  add := Rplus;
  mul := Rmult
|}.
Proof. exact Qeq_eqR. Defined.

(** ** Lists: chunks and zips *)

Section Lists.
Context {X : Type}.

(** [chunks k n l]: the first [k] consecutive chunks of [n] elements. *)
Fixpoint chunks (k n : nat) (l : list X) : list (list X) :=
  match k with
  | O => []
  | S k' => firstn n l :: chunks k' n (skipn n l)
  end.

End Lists.

Fixpoint zipWith {X Y Z : Type} (f : X -> Y -> Z) (xs : list X) (ys : list Y)
  : list Z :=
  match xs, ys with
  | x :: xs', y :: ys' => f x y :: zipWith f xs' ys'
  | _, _ => []
  end.

Fixpoint zip3 {X : Type} (xs ys zs : list X) : list (X * X * X) :=
  match xs, ys, zs with
  | x :: xs', y :: ys', z :: zs' => (x, y, z) :: zip3 xs' ys' zs'
  | _, _, _ => []
  end.

(** ** Tensors *)

Record Tensor (A : Type) : Type := mkTensor {
  shape : list nat;
  data : list A
}.

Arguments mkTensor {A} shape data.
Arguments shape {A} t.
Arguments data {A} t.

Definition numel (s : list nat) : nat := fold_right Nat.mul 1 s.

(** A tensor holds as many elements as its shape says. *)
Definition wf {A : Type} (t : Tensor A) : Prop :=
  length (data t) = numel (shape t).

(** [image.dim()], [len(image.shape)] *)
Definition dim {A : Type} (t : Tensor A) : nat := length (shape t).

(** [image.shape[-k]], [image.size(-k)] for [k >= 1] *)
Definition size_neg {A : Type} (t : Tensor A) (k : nat) : result nat :=
  match nth_error (rev (shape t)) (k - 1) with
  | Some n => Ok n
  | None => Raise IndexError
  end.

(** The shape read at the channel axis: [lead ++ [c; h; w]]. *)
Definition split_m3 (s : list nat) : option (list nat * nat * nat * nat) :=
  match rev s with
  | w :: h :: c :: l => Some (rev l, c, h, w)
  | _ => None
  end.

(** The shape of a tensor without channel axis: [lead ++ [h; w]]. *)
Definition split_m2 (s : list nat) : option (list nat * nat * nat) :=
  match rev s with
  | w :: h :: l => Some (rev l, h, w)
  | _ => None
  end.

Definition shape_eqb (s1 s2 : list nat) : bool :=
  if list_eq_dec Nat.eq_dec s1 s2 then true else false.

Section TensorOps.
Context {A : Type}.

(** Elementwise operation of one tensor (also with a Python scalar or a
    0-dimensional tensor as the other operand). *)
Definition tmap {B : Type} (f : A -> B) (t : Tensor A) : Tensor B :=
  mkTensor (shape t) (map f (data t)).

(** Elementwise operation of two tensors of one shape.  The converters
    never combine tensors of different shapes this way; the general
    broadcasting rule is not modelled and unequal shapes raise. *)
Definition tzip {B C : Type} (f : A -> B -> C) (t1 : Tensor A) (t2 : Tensor B)
  : result (Tensor C) :=
  if shape_eqb (shape t1) (shape t2)
  then Ok (mkTensor (shape t1) (zipWith f (data t1) (data t2)))
  else Raise RuntimeError.

(** The blocks of a tensor: one per index of the leading axes. *)
Definition blocks (k n : nat) (t : Tensor A) : list (list A) :=
  chunks k n (data t).

(** Plane [i] of a block of planes of [p] elements. *)
Definition plane (p i : nat) (blk : list A) : list A :=
  firstn p (skipn (i * p) blk).

(** The data of channel [i], over all leading indices. *)
Definition chan_data (lead : list nat) (c p i : nat) (t : Tensor A) : list A :=
  concat (map (plane p i) (blocks (numel lead) (c * p) t)).

(** [image[..., i, :, :]] *)
Definition select_m3 (t : Tensor A) (i : nat) : result (Tensor A) :=
  match split_m3 (shape t) with
  | Some (lead, c, h, w) =>
      if i <? c
      then Ok (mkTensor (lead ++ [h; w]) (chan_data lead c (h * w) i t))
      else Raise IndexError
  | None => Raise IndexError
  end.

(** [image[..., a:b, :, :]]: Python clamps the bounds of a slice. *)
Definition narrow_m3 (t : Tensor A) (a b : nat) : result (Tensor A) :=
  match split_m3 (shape t) with
  | Some (lead, c, h, w) =>
      let a' := Nat.min a c in
      let b' := Nat.min b c in
      Ok (mkTensor (lead ++ [b' - a'; h; w])
            (concat (map (fun blk => firstn ((b' - a') * (h * w))
                                       (skipn (a' * (h * w)) blk))
                         (blocks (numel lead) (c * (h * w)) t))))
  | None => Raise IndexError
  end.

(** Block [b] of the result is the blocks [b] of the operands, one after
    the other. *)
Definition interleave (k : nat) (bss : list (list (list A))) : list (list A) :=
  fold_right (zipWith (@app A)) (repeat [] k) bss.

(** The leading axes and plane size all operands of a concatenation
    along the channel axis must share, and their channel counts. *)
Fixpoint cat_shape (ts : list (Tensor A))
  : option (list nat * list nat * nat * nat) :=
  match ts with
  | [] => None
  | t :: ts' =>
      match split_m3 (shape t) with
      | Some (lead, c, h, w) =>
          match ts' with
          | [] => Some (lead, [c], h, w)
          | _ =>
              match cat_shape ts' with
              | Some (lead', cs, h', w') =>
                  if shape_eqb (lead ++ [h; w]) (lead' ++ [h'; w'])
                  then Some (lead, c :: cs, h, w)
                  else None
              | None => None
              end
          end
      | None => None
      end
  end.

(** [concatenate(ts, -3)] *)
Definition cat_m3 (ts : list (Tensor A)) : result (Tensor A) :=
  match cat_shape ts with
  | Some (lead, cs, h, w) =>
      Ok (mkTensor (lead ++ [fold_right Nat.add 0 cs; h; w])
            (concat (interleave (numel lead)
               (map (fun tc => blocks (numel lead) (snd tc * (h * w)) (fst tc))
                    (combine ts cs)))))
  | None => Raise RuntimeError
  end.

(** [torch.stack(ts, dim=-3)]: all operands have one shape
    [lead ++ [h; w]], the new axis is the channel axis. *)
Definition stack_m3 (ts : list (Tensor A)) : result (Tensor A) :=
  match ts with
  | [] => Raise RuntimeError
  | t :: ts' =>
      if forallb (fun t' => shape_eqb (shape t) (shape t')) ts'
      then match split_m2 (shape t) with
           | Some (lead, h, w) =>
               Ok (mkTensor (lead ++ [length ts; h; w])
                     (concat (interleave (numel lead)
                        (map (blocks (numel lead) (h * w)) ts))))
           | None => Raise IndexError
           end
      else Raise RuntimeError
  end.

(** [image.flip(-3)]: the planes of every block in reverse order. *)
Definition flip_m3 (t : Tensor A) : result (Tensor A) :=
  match split_m3 (shape t) with
  | Some (lead, c, h, w) =>
      Ok (mkTensor (shape t)
            (concat (map (fun blk => concat (rev (chunks c (h * w) blk)))
                         (blocks (numel lead) (c * (h * w)) t))))
  | None => Raise IndexError
  end.

(** A tensor of shape [[c; 1; 1]] expanded to the shape [s], the way
    broadcasting does for [s = lead ++ [c; h; w]]. *)
Definition expand_c11 (v : Tensor A) (s : list nat) : result (Tensor A) :=
  match split_m3 s with
  | Some (lead, c, h, w) =>
      if shape_eqb (shape v) [c; 1; 1]
      then Ok (mkTensor s
                 (concat (repeat (flat_map (fun x => repeat x (h * w)) (data v))
                                 (numel lead))))
      else Raise RuntimeError
  | None => Raise RuntimeError
  end.

End TensorOps.

(** ** The grayscale converter ([Colors/gray.ipynb]) *)

Section Gray.
Context {A : Type} {SA : Scalar A}.

(** The guard every converter starts with,
    [len(image.shape) < 3 or image.shape[-3] != c]; Python's [or] does
    not read the channel axis of a tensor with fewer than 3 axes.  The
    check before it, [KORNIA_CHECK_IS_TENSOR(image)] or
    [isinstance(image, torch.Tensor)], holds of every [Tensor]. *)
Definition bad_channels (image : Tensor A) (c : nat) : result bool :=
  if dim image <? 3 then Ok true
  else n <- size_neg image 3 ;; Ok (negb (n =? c)).

Definition grayscale_to_rgb (image : Tensor A) : result (Tensor A) :=
  bad <- bad_channels image 1 ;;
  if bad then Raise ValueError
  else cat_m3 [image; image; image].

(** The weights [rgb_to_grayscale] takes when none are supplied. *)
Definition default_weights : result (list A) :=
  match dtype_of with
  | uint8 => Ok [lit 76%Q; lit 150%Q; lit 29%Q]
  | float16 | float32 | float64 => Ok [lit 0.299%Q; lit 0.587%Q; lit 0.114%Q]
  | _ => Raise TypeError
  end.

(** [w_r, w_g, w_b = rgb_weights.unbind()] on a weight vector. *)
Definition unbind3 (w : list A) : result (A * A * A) :=
  match w with
  | [w_r; w_g; w_b] => Ok (w_r, w_g, w_b)
  | _ => Raise ValueError
  end.

(** A supplied weight vector is a 1-dimensional tensor, a list; it comes
    with the image's element type, as [rgb_weights.to(image)] leaves it. *)
Definition rgb_to_grayscale (image : Tensor A) (rgb_weights : option (list A))
  : result (Tensor A) :=
  bad <- bad_channels image 3 ;;
  if bad then Raise ValueError
  else
    weights <- match rgb_weights with
               | None => default_weights
               | Some w => Ok w
               end ;;
    r <- narrow_m3 image 0 1 ;;
    g <- narrow_m3 image 1 2 ;;
    b <- narrow_m3 image 2 3 ;;
    w <- unbind3 weights ;;
    let '(w_r, w_g, w_b) := w in
    rg <- tzip add (tmap (mul w_r) r) (tmap (mul w_g) g) ;;
    tzip add rg (tmap (mul w_b) b).

(** Modelled from the spec: [bgr_to_rgb] of [kornia.color.rgb], which is
    not among the sources; the spec has it reorder the channels B,G,R to
    R,G,B by reversing the channel axis. *)
Definition bgr_to_rgb (image : Tensor A) : result (Tensor A) :=
  flip_m3 image.

Definition bgr_to_grayscale (image : Tensor A) : result (Tensor A) :=
  bad <- bad_channels image 3 ;;
  if bad then Raise ValueError
  else
    image_rgb <- bgr_to_rgb image ;;
    rgb_to_grayscale image_rgb None.

End Gray.

(** ** The Lab converter ([Colors/lab.ipynb]) *)

(** A fixed 3x3 colour matrix, by rows. *)
Definition mat3 : Type := (Q * Q * Q) * (Q * Q * Q) * (Q * Q * Q).

Section Lab.
Context {A : Type} {SA : Scalar A} {FA : FloatScalar A}.

(** The constants of the forward (RGB to XYZ) and inverse (XYZ to RGB)
    matrices are in [kornia.color.xyz], which is not among the sources,
    and the spec does not give them. *)
Variables rgb_xyz_matrix xyz_rgb_matrix : mat3.

(** [x.clamp(min=lo)] and [torch.clamp(x, min=lo, max=hi)] on an element. *)
Definition clamp_min (lo x : A) : A := if ltb x lo then lo else x.

Definition clamp (lo hi x : A) : A :=
  let y := clamp_min lo x in if ltb hi y then hi else y.

(** [torch.where(cond, p, s)] on tensors of one shape. *)
Definition twhere (cond : Tensor bool) (p s : Tensor A) : result (Tensor A) :=
  ps <- tzip pair p s ;;
  tzip (fun (c : bool) (xy : A * A) => if c then fst xy else snd xy) cond ps.

(** Modelled from the spec: the gamma codec [rgb_to_linear_rgb] of
    [kornia.color.rgb], which is not among the sources.  For a value
    [v <= 0.04045] the result is [v / 12.92], else
    [((v + 0.055) / 1.055) ^ 2.4]; elementwise, no shape validation. *)
Definition to_linear (v : A) : A :=
  if ltb (lit 0.04045%Q) v
  then pow (div (add v (lit 0.055%Q)) (lit 1.055%Q)) (lit 2.4%Q)
  else div v (lit 12.92%Q).

Definition rgb_to_linear_rgb (image : Tensor A) : Tensor A :=
  tmap to_linear image.

(** Modelled from the spec: the gamma codec [linear_rgb_to_rgb] of
    [kornia.color.rgb], which is not among the sources.  For a value
    [v <= 0.0031308] the result is [12.92 * v], else
    [1.055 * v ^ (1 / 2.4) - 0.055]. *)
Definition to_encoded (v : A) : A :=
  if ltb (lit 0.0031308%Q) v
  then sub (mul (lit 1.055%Q) (pow v (lit (1 / 2.4)%Q))) (lit 0.055%Q)
  else mul (lit 12.92%Q) v.

Definition linear_rgb_to_rgb (image : Tensor A) : Tensor A :=
  tmap to_encoded image.

(** One row of a matrix against the three channel planes. *)
Definition mat_row (row : Q * Q * Q) (r g b : Tensor A) : result (Tensor A) :=
  let '(m0, m1, m2) := row in
  rg <- tzip add (tmap (mul (lit m0)) r) (tmap (mul (lit m1)) g) ;;
  tzip add rg (tmap (mul (lit m2)) b).

(** Modelled from the spec: [rgb_to_xyz] and [xyz_to_rgb] of
    [kornia.color.xyz], which are not among the sources: a 3x3 matrix
    multiply per pixel, raising on a channel count other than 3. *)
Definition apply_matrix (m : mat3) (image : Tensor A) : result (Tensor A) :=
  bad <- bad_channels image 3 ;;
  if bad then Raise ValueError
  else
    let '(row0, row1, row2) := m in
    r <- select_m3 image 0 ;;
    g <- select_m3 image 1 ;;
    b <- select_m3 image 2 ;;
    x <- mat_row row0 r g b ;;
    y <- mat_row row1 r g b ;;
    z <- mat_row row2 r g b ;;
    stack_m3 [x; y; z].

Definition rgb_to_xyz (image : Tensor A) : result (Tensor A) :=
  apply_matrix rgb_xyz_matrix image.

Definition xyz_to_rgb (image : Tensor A) : result (Tensor A) :=
  apply_matrix xyz_rgb_matrix image.

(** [torch.tensor([0.95047, 1.0, 1.08883], ...)[..., :, None, None]] *)
Definition xyz_ref_white : Tensor A :=
  mkTensor [3; 1; 1] [lit 0.95047%Q; lit 1.0%Q; lit 1.08883%Q].

Definition threshold : Q := 0.008856%Q.

Definition rgb_to_lab (image : Tensor A) : result (Tensor A) :=
  bad <- bad_channels image 3 ;;
  if bad then Raise ValueError
  else
    let lin_rgb := rgb_to_linear_rgb image in
    xyz_im <- rgb_to_xyz lin_rgb ;;
    white <- expand_c11 xyz_ref_white (shape xyz_im) ;;
    xyz_normalized <- tzip div xyz_im white ;;
    let power :=
      tmap (fun v => pow v (lit (1 / 3.0)%Q))
           (tmap (clamp_min (lit threshold)) xyz_normalized) in
    let scale :=
      tmap (fun v => add (mul (lit 7.787%Q) v) (lit (4.0 / 29.0)%Q))
           xyz_normalized in
    xyz_int <- twhere (tmap (fun v => ltb (lit threshold) v) xyz_normalized)
                      power scale ;;
    x <- select_m3 xyz_int 0 ;;
    y <- select_m3 xyz_int 1 ;;
    z <- select_m3 xyz_int 2 ;;
    let L := tmap (fun v => sub (mul (lit 116.0%Q) v) (lit 16.0%Q)) y in
    xy <- tzip sub x y ;;
    let a := tmap (mul (lit 500.0%Q)) xy in
    yz <- tzip sub y z ;;
    let _b := tmap (mul (lit 200.0%Q)) yz in
    stack_m3 [L; a; _b].

Definition lab_to_rgb (image : Tensor A) (clip : bool) : result (Tensor A) :=
  bad <- bad_channels image 3 ;;
  if bad then Raise ValueError
  else
    L <- select_m3 image 0 ;;
    a <- select_m3 image 1 ;;
    _b <- select_m3 image 2 ;;
    let fy := tmap (fun v => div (add v (lit 16.0%Q)) (lit 116.0%Q)) L in
    fx <- tzip add (tmap (fun v => div v (lit 500.0%Q)) a) fy ;;
    fz <- tzip sub fy (tmap (fun v => div v (lit 200.0%Q)) _b) ;;
    let fz := tmap (clamp_min (lit 0.0%Q)) fz in
    fxyz <- stack_m3 [fx; fy; fz] ;;
    let power := tmap (fun v => pow v (lit 3.0%Q)) fxyz in
    let scale :=
      tmap (fun v => div (sub v (lit (4.0 / 29.0)%Q)) (lit 7.787%Q)) fxyz in
    xyz <- twhere (tmap (fun v => ltb (lit 0.2068966%Q) v) fxyz) power scale ;;
    white <- expand_c11 xyz_ref_white (shape xyz) ;;
    xyz_im <- tzip mul xyz white ;;
    rgbs_im <- xyz_to_rgb xyz_im ;;
    let rgb_im := linear_rgb_to_rgb rgbs_im in
    let rgb_im :=
      if clip then tmap (clamp (lit 0.0%Q) (lit 1.0%Q)) rgb_im else rgb_im in
    Ok rgb_im.

End Lab.

(** ** The modules

    Each class of the two notebooks wraps one converter; [forward] is the
    call of an instance.  [GrayscaleToRgb], [BgrToGrayscale], [RgbToLab]
    and [LabToRgb] have no attribute; an instance of [RgbToGrayscale]
    holds the weights it was built with. *)

Module GrayscaleToRgb.
Definition forward {A : Type} (image : Tensor A) : result (Tensor A) :=
  grayscale_to_rgb image.
End GrayscaleToRgb.

Module RgbToGrayscale.
Record t (A : Type) : Type := mk { rgb_weights : option (list A) }.
Arguments mk {A} rgb_weights.
Arguments rgb_weights {A} _.

(** [__init__(self, rgb_weights=None)] *)
Definition init {A : Type} (rgb_weights : option (list A)) : t A :=
  mk rgb_weights.

Definition forward {A : Type} {SA : Scalar A} (self : t A) (image : Tensor A)
  : result (Tensor A) :=
  rgb_to_grayscale image (rgb_weights self).
End RgbToGrayscale.

Module BgrToGrayscale.
Definition forward {A : Type} {SA : Scalar A} (image : Tensor A)
  : result (Tensor A) :=
  bgr_to_grayscale image.
End BgrToGrayscale.

Module RgbToLab.
Definition forward {A : Type} {SA : Scalar A} {FA : FloatScalar A}
    (rgb_xyz_matrix : mat3) (image : Tensor A) : result (Tensor A) :=
  rgb_to_lab rgb_xyz_matrix image.
End RgbToLab.

Module LabToRgb.
(** [forward(self, image, clip=True)] *)
Definition forward {A : Type} {SA : Scalar A} {FA : FloatScalar A}
    (xyz_rgb_matrix : mat3) (image : Tensor A) (clip : bool)
  : result (Tensor A) :=
  lab_to_rgb xyz_rgb_matrix image clip.
End LabToRgb.

(** The elements of a result in row-major order, or its exception. *)
Definition result_data {A : Type} (r : result (Tensor A)) : result (list A) :=
  t <- r ;; Ok (data t).

(** ** The pixel view of a tensor *)

(** [chw t lead c h w]: [t] is a well-formed tensor of shape
    [lead ++ [c; h; w]]; [hw] is the same without channel axis. *)
Definition chw {A : Type} (t : Tensor A) (lead : list nat) (c h w : nat) : Prop :=
  shape t = lead ++ [c; h; w] /\ length (data t) = numel lead * (c * (h * w)).

Definition hw {A : Type} (t : Tensor A) (lead : list nat) (h w : nat) : Prop :=
  shape t = lead ++ [h; w] /\ length (data t) = numel lead * (h * w).

(** Channel [i] of a tensor, over all leading and spatial indices, and the
    pixels of a 3-channel tensor in the same order. *)
Definition channel {A : Type} (t : Tensor A) (i : nat) : list A :=
  match split_m3 (shape t) with
  | Some (lead, c, h, w) => chan_data lead c (h * w) i t
  | None => []
  end.

Definition pixels3 {A : Type} (t : Tensor A) : list (A * A * A) :=
  zip3 (channel t 0) (channel t 1) (channel t 2).

(** ** The conversions of one pixel *)

(** The numeric kinds [rgb_to_grayscale] has default weights for. *)
Definition supported (d : dtype) : bool :=
  match d with
  | uint8 | float16 | float32 | float64 => true
  | _ => false
  end.

(** The weighted sum of an 8-bit pixel as an integer, without wrap-around. *)
Definition weighted_sum8 (px : Z * Z * Z) : Z :=
  let '(r, g, b) := px in (76 * r + 150 * g + 29 * b)%Z.

(** B,G,R to R,G,B. *)
Definition swap_rb {A : Type} (px : A * A * A) : A * A * A :=
  let '(b, g, r) := px in (r, g, b).

Section PixelFormulas.
Context {A : Type} {SA : Scalar A}.

(** [w_r * r + w_g * g + w_b * b] *)
Definition luma (w_r w_g w_b : A) (px : A * A * A) : A :=
  let '(r, g, b) := px in add (add (mul w_r r) (mul w_g g)) (mul w_b b).

(** A 3x3 matrix against a pixel. *)
Definition dot (row : Q * Q * Q) (px : A * A * A) : A :=
  let '(m0, m1, m2) := row in luma (lit m0) (lit m1) (lit m2) px.

Definition matvec (m : mat3) (px : A * A * A) : A * A * A :=
  let '(row0, row1, row2) := m in (dot row0 px, dot row1 px, dot row2 px).

Context {FA : FloatScalar A}.

(** The Lab nonlinearity and its inverse. *)
Definition lab_f (t : A) : A :=
  if ltb (lit 0.008856%Q) t
  then pow t (lit (1 / 3)%Q)
  else add (mul (lit 7.787%Q) t) (lit (4 / 29)%Q).

Definition lab_finv (f : A) : A :=
  if ltb (lit 0.2068966%Q) f
  then pow f (lit 3%Q)
  else div (sub f (lit (4 / 29)%Q)) (lit 7.787%Q).

(** RGB to Lab on one pixel, with the forward matrix [m]. *)
Definition rgb_to_lab_pixel (m : mat3) (px : A * A * A) : A * A * A :=
  let '(r, g, b) := px in
  let '(x, y, z) := matvec m (to_linear r, to_linear g, to_linear b) in
  let fx := lab_f (div x (lit 0.95047%Q)) in
  let fy := lab_f (div y (lit 1%Q)) in
  let fz := lab_f (div z (lit 1.08883%Q)) in
  (sub (mul (lit 116%Q) fy) (lit 16%Q),
   mul (lit 500%Q) (sub fx fy),
   mul (lit 200%Q) (sub fy fz)).

(** Lab to RGB on one pixel, with the inverse matrix [m]. *)
Definition lab_to_rgb_pixel (m : mat3) (clip : bool) (px : A * A * A)
  : A * A * A :=
  let '(L, a, b) := px in
  let fy := div (add L (lit 16%Q)) (lit 116%Q) in
  let fx := add (div a (lit 500%Q)) fy in
  let fz := clamp_min (lit 0%Q) (sub fy (div b (lit 200%Q))) in
  let x := mul (lab_finv fx) (lit 0.95047%Q) in
  let y := mul (lab_finv fy) (lit 1%Q) in
  let z := mul (lab_finv fz) (lit 1.08883%Q) in
  let '(r', g', b') := matvec m (x, y, z) in
  let out v :=
    if clip then clamp (lit 0%Q) (lit 1%Q) (to_encoded v) else to_encoded v in
  (out r', out g', out b').

(** The two clamps in the spec's words, written out with the comparison
    of the elements and not with the clamps the converter calls.  [fz]
    is [fy - b / 200], and 0 where that is below 0; a clipped value is
    the value, 0 where it is below 0, and then 1 where that is above 1. *)
Definition lab_fz (L b : A) : A :=
  let fz := sub (div (add L (lit 16%Q)) (lit 116%Q)) (div b (lit 200%Q)) in
  if ltb fz (lit 0%Q) then lit 0%Q else fz.

Definition clipped (v : A) : A :=
  let v0 := if ltb v (lit 0%Q) then lit 0%Q else v in
  if ltb (lit 1%Q) v0 then lit 1%Q else v0.

(** Lab to RGB on one pixel in the spec's words, with the inverse matrix
    [m]. *)
Definition lab_to_rgb_formula (m : mat3) (clip : bool) (px : A * A * A)
  : A * A * A :=
  let '(L, a, b) := px in
  let fy := div (add L (lit 16%Q)) (lit 116%Q) in
  let fx := add (div a (lit 500%Q)) fy in
  let fz := lab_fz L b in
  let x := mul (lab_finv fx) (lit 0.95047%Q) in
  let y := mul (lab_finv fy) (lit 1%Q) in
  let z := mul (lab_finv fz) (lit 1.08883%Q) in
  let '(r', g', b') := matvec m (x, y, z) in
  let out v := if clip then clipped (to_encoded v) else to_encoded v in
  (out r', out g', out b').

End PixelFormulas.

(** ** The round trip over the real numbers *)

(** The exponents of the gamma codec, 2.4 and 1 / 2.4. *)
Definition e24 : R := (24 * / 10)%R.

Definition e24i : R := (10 * / 24)%R.

(** [y] lies within [eps] of [x]; the same for the three channels of a
    pixel. *)
Definition Rclose (eps x y : R) : Prop := (x - eps <= y <= x + eps)%R.

Definition close3 (eps : R) (p q : R * R * R) : Prop :=
  let '(r, g, b) := p in
  let '(r', g', b') := q in
  Rclose eps r r' /\ Rclose eps g g' /\ Rclose eps b b'.

(** What the round trip needs of the two colour matrices, which are
    parameters: a forward matrix without negative entry, and an inverse
    matrix with entries within [-k, k] whose product with the forward
    matrix is the identity up to [eta] in every entry. *)
Definition row_all (p : Q -> bool) (row : Q * Q * Q) : bool :=
  let '(a, b, c) := row in p a && p b && p c.

Definition mat_all (p : Q -> bool) (m : mat3) : bool :=
  let '(row0, row1, row2) := m in
  row_all p row0 && row_all p row1 && row_all p row2.

Definition Qbetween (lo hi x : Q) : bool := Qle_bool lo x && Qle_bool x hi.

Definition mat_mul (a b : mat3) : mat3 :=
  let '((b00, b01, b02), (b10, b11, b12), (b20, b21, b22)) := b in
  let row r :=
    let '(a0, a1, a2) := r in
    (a0 * b00 + a1 * b10 + a2 * b20,
     a0 * b01 + a1 * b11 + a2 * b21,
     a0 * b02 + a1 * b12 + a2 * b22)%Q in
  let '(row0, row1, row2) := a in (row row0, row row1, row row2).

Definition mat_sub_id (m : mat3) : mat3 :=
  let '((m00, m01, m02), (m10, m11, m12), (m20, m21, m22)) := m in
  ((m00 - 1, m01, m02), (m10, m11 - 1, m12), (m20, m21, m22 - 1))%Q.

Definition mat_nonneg (m : mat3) : bool := mat_all (Qle_bool 0) m.

Definition mat_bounded (k : Q) (m : mat3) : bool :=
  mat_all (Qbetween (- k) k) m.

Definition approx_inverse (eta : Q) (minv m : mat3) : bool :=
  mat_all (Qbetween (- eta) eta) (mat_sub_id (mat_mul minv m)).

(** What the range of the lightness needs of the forward matrix besides:
    the entries of its luminance row, the second, add up to at most 1. *)
Definition luminance_le1 (m : mat3) : bool :=
  let '(_, (m10, m11, m12), _) := m in Qle_bool (m10 + m11 + m12) 1.

(** ** Sample tensors *)

(** Two images of 1 x 2 pixels, channels first. *)
Definition image_u8 : Tensor Z :=
  mkTensor [2; 3; 1; 2] [1; 2; 3; 4; 5; 6; 255; 255; 255; 255; 0; 0]%Z.

Definition white_u8 : Tensor Z := mkTensor [3; 1; 1] [255; 255; 255]%Z.

Definition gray_u8 : Tensor Z := mkTensor [2; 1; 1; 2] [1; 2; 3; 4]%Z.

Definition two_channel_u8 : Tensor Z := mkTensor [2; 1; 1] [1; 2]%Z.

(** A 2-dimensional tensor whose third axis from the last does not exist
    and whose first axis has size 3. *)
Definition matrix_u8 : Tensor Z := mkTensor [3; 2] [1; 2; 3; 4; 5; 6]%Z.

(** An image of one pixel, for the 8-bit signed kind. *)
Definition image_i8 : Tensor Z := mkTensor [1; 3; 1; 1] [1; 2; 3]%Z.

Definition image_real : Tensor R :=
  mkTensor [1; 3; 1; 2] [0.5; 0.25; 0.5; 0.75; 0.5; 1]%R.

Definition two_channel_real : Tensor R := mkTensor [2; 1; 1] [0.5; 0.25]%R.

Definition matrix_real : Tensor R := mkTensor [3; 2] [0; 0.5; 1; 0; 0.5; 1]%R.

Definition mat3_id : mat3 := ((1, 0, 0), (0, 1, 0), (0, 0, 1))%Q.

(** A pair of sRGB (D65) matrices, forward and inverse, as a sample of the
    parameters. *)
Definition sample_rgb_xyz : mat3 :=
  ((0.412453, 0.357580, 0.180423),
   (0.212671, 0.715160, 0.072169),
   (0.019334, 0.119193, 0.950227))%Q.

Definition sample_xyz_rgb : mat3 :=
  ((3.2404813432005266, -1.5371515162713185, -0.4985363261688878),
   (-0.9692549499965682, 1.8759900014898907, 0.0415559265582928),
   (0.0556466391351772, -0.2040413383665112, 1.0573110696453443))%Q.

(** An 8-bit image whose first and third channel are equal, the first
    sample images with the two pixels in a column and a leading axis
    more, each of the two on its own, and images without pixels. *)
Definition symmetric_u8 : Tensor Z := mkTensor [3; 1; 2] [7; 8; 1; 2; 7; 8]%Z.

Definition image_u8_column : Tensor Z :=
  mkTensor [1; 2; 3; 2; 1] [1; 2; 3; 4; 5; 6; 255; 255; 255; 255; 0; 0]%Z.

Definition first_u8 : Tensor Z := mkTensor [1; 3; 1; 2] [1; 2; 3; 4; 5; 6]%Z.

Definition second_u8 : Tensor Z :=
  mkTensor [1; 3; 1; 2] [255; 255; 255; 255; 0; 0]%Z.

Definition empty_u8 : Tensor Z := mkTensor [0; 3; 4; 5] [].

Definition empty_gray_u8 : Tensor Z := mkTensor [2; 1; 0; 5] [].

Definition empty_real : Tensor R := mkTensor [0; 3; 4; 5] [].

(** The real sample image with its two pixels in a column and no
    leading axis. *)
Definition image_real_column : Tensor R :=
  mkTensor [3; 2; 1] [0.5; 0.25; 0.5; 0.75; 0.5; 1]%R.

(** * Properties *)

(** ** Chunks and zips *)

Section ListFacts.
Context {X : Type}.

Lemma chunks_length (k n : nat) (l : list X) : length (chunks k n l) = k.
Proof.
  revert l. induction k as [|k IH]; intros l; simpl; [reflexivity|].
  now rewrite IH.
Qed.

Lemma chunks_each (k n : nat) (l : list X) :
  length l = k * n -> Forall (fun c => length c = n) (chunks k n l).
Proof.
  revert l. induction k as [|k IH]; intros l Hl; simpl; constructor.
  - rewrite length_firstn. simpl in Hl. lia.
  - apply IH. rewrite length_skipn. simpl in Hl. lia.
Qed.

Lemma concat_chunks (k n : nat) (l : list X) :
  length l = k * n -> concat (chunks k n l) = l.
Proof.
  revert l. induction k as [|k IH]; intros l Hl; simpl.
  - destruct l; [reflexivity|discriminate].
  - rewrite IH.
    + apply firstn_skipn.
    + rewrite length_skipn. simpl in Hl. lia.
Qed.

Lemma firstn_exact (n : nat) (a b : list X) :
  length a = n -> firstn n (a ++ b) = a.
Proof.
  intros <-. rewrite firstn_app, Nat.sub_diag, firstn_all. simpl.
  apply app_nil_r.
Qed.

Lemma skipn_exact (n : nat) (a b : list X) :
  length a = n -> skipn n (a ++ b) = b.
Proof.
  intros <-. rewrite skipn_app, Nat.sub_diag, skipn_all. reflexivity.
Qed.

Lemma chunks_concat (n : nat) (ls : list (list X)) :
  Forall (fun c => length c = n) ls ->
  chunks (length ls) n (concat ls) = ls.
Proof.
  induction 1 as [|c ls Hc _ IH]; simpl; [reflexivity|].
  rewrite firstn_exact, skipn_exact by assumption.
  now rewrite IH.
Qed.

Lemma chunks_nth_error (k n b : nat) (l : list X) :
  b < k -> nth_error (chunks k n l) b = Some (firstn n (skipn (b * n) l)).
Proof.
  revert b l. induction k as [|k IH]; intros b l Hb; [lia|].
  destruct b as [|b]; simpl; [reflexivity|].
  rewrite IH by lia. now rewrite skipn_skipn, Nat.add_comm.
Qed.

Lemma nth_error_concat_each (p b q : nat) (ls : list (list X)) :
  Forall (fun c => length c = p) ls -> q < p ->
  nth_error (concat ls) (b * p + q)
  = match nth_error ls b with
    | Some blk => nth_error blk q
    | None => None
    end.
Proof.
  intros H Hq. revert b. induction H as [|c ls Hc _ IH]; intros b; simpl.
  - now destruct (b * p + q), b.
  - destruct b as [|b]; simpl.
    + apply nth_error_app1. lia.
    + rewrite nth_error_app2 by lia.
      replace (p + b * p + q - length c) with (b * p + q) by lia. apply IH.
Qed.

Lemma length_concat_each (n : nat) (ls : list (list X)) :
  Forall (fun c => length c = n) ls -> length (concat ls) = length ls * n.
Proof.
  induction 1 as [|c ls Hc _ IH]; simpl; [reflexivity|].
  rewrite length_app, IH, Hc. reflexivity.
Qed.

Lemma Forall_map_length (n : nat) (g : list X -> list X) (ls : list (list X)) :
  Forall (fun c => length (g c) = n) ls ->
  Forall (fun c => length c = n) (map g ls).
Proof. induction 1; simpl; constructor; assumption. Qed.

End ListFacts.

Section ZipFacts.
Context {X Y Z : Type}.
Variable f : X -> Y -> Z.

Lemma zipWith_length (xs : list X) (ys : list Y) :
  length (zipWith f xs ys) = Nat.min (length xs) (length ys).
Proof.
  revert ys. induction xs as [|x xs IH]; intros [|y ys]; simpl; auto.
Qed.

Lemma firstn_zipWith (n : nat) (xs : list X) (ys : list Y) :
  firstn n (zipWith f xs ys) = zipWith f (firstn n xs) (firstn n ys).
Proof.
  revert xs ys. induction n as [|n IH]; intros [|x xs] [|y ys]; simpl;
    try reflexivity.
  now rewrite IH.
Qed.

Lemma skipn_zipWith (n : nat) (xs : list X) (ys : list Y) :
  skipn n (zipWith f xs ys) = zipWith f (skipn n xs) (skipn n ys).
Proof.
  revert xs ys. induction n as [|n IH]; intros [|x xs] [|y ys]; simpl;
    try reflexivity.
  - now destruct (skipn n xs).
  - apply IH.
Qed.

Lemma chunks_zipWith (k n : nat) (xs : list X) (ys : list Y) :
  chunks k n (zipWith f xs ys)
  = zipWith (zipWith f) (chunks k n xs) (chunks k n ys).
Proof.
  revert xs ys. induction k as [|k IH]; intros xs ys; simpl; [reflexivity|].
  now rewrite firstn_zipWith, skipn_zipWith, IH.
Qed.

Lemma zipWith_app (xs xs' : list X) (ys ys' : list Y) :
  length xs = length ys ->
  zipWith f (xs ++ xs') (ys ++ ys') = zipWith f xs ys ++ zipWith f xs' ys'.
Proof.
  revert ys. induction xs as [|x xs IH]; intros [|y ys] H; simpl in *;
    try discriminate; [reflexivity|].
  rewrite IH by lia. reflexivity.
Qed.

Lemma concat_zipWith (xss : list (list X)) (yss : list (list Y)) :
  Forall2 (fun a b => length a = length b) xss yss ->
  concat (zipWith (zipWith f) xss yss) = zipWith f (concat xss) (concat yss).
Proof.
  induction 1 as [|a b xss yss Hab _ IH]; simpl; [reflexivity|].
  now rewrite zipWith_app, IH.
Qed.

Lemma zipWith_repeat_r (xs : list X) (y : Y) (n : nat) :
  length xs <= n -> zipWith f xs (repeat y n) = map (fun x => f x y) xs.
Proof.
  revert n. induction xs as [|x xs IH]; intros [|n] H; simpl in *;
    try reflexivity; try lia.
  rewrite IH by lia. reflexivity.
Qed.

End ZipFacts.

Lemma chunks_map {X Y : Type} (g : X -> Y) (k n : nat) (l : list X) :
  chunks k n (map g l) = map (map g) (chunks k n l).
Proof.
  revert l. induction k as [|k IH]; intros l; simpl; [reflexivity|].
  now rewrite firstn_map, skipn_map, IH.
Qed.

Lemma zipWith_map {X X' Y Y' Z : Type} (f : X' -> Y' -> Z) (g : X -> X')
    (h : Y -> Y') (xs : list X) (ys : list Y) :
  zipWith f (map g xs) (map h ys) = zipWith (fun x y => f (g x) (h y)) xs ys.
Proof.
  revert ys. induction xs as [|x xs IH]; intros [|y ys]; simpl; try reflexivity.
  now rewrite IH.
Qed.

Lemma map_zipWith {X Y Z W : Type} (f : X -> Y -> Z) (g : Z -> W)
    (xs : list X) (ys : list Y) :
  map g (zipWith f xs ys) = zipWith (fun x y => g (f x y)) xs ys.
Proof.
  revert ys. induction xs as [|x xs IH]; intros [|y ys]; simpl; try reflexivity.
  now rewrite IH.
Qed.

Lemma chunks_same_lengths {X Y : Type} (k n : nat) (xs : list X) (ys : list Y) :
  length xs = length ys ->
  Forall2 (fun a b => length a = length b) (chunks k n xs) (chunks k n ys).
Proof.
  revert xs ys. induction k as [|k IH]; intros xs ys H; simpl; constructor.
  - rewrite !length_firstn. lia.
  - apply IH. rewrite !length_skipn. lia.
Qed.

Lemma Forall2_map_lengths {X Y : Type} (gx : list X -> list X)
    (gy : list Y -> list Y) (xss : list (list X)) (yss : list (list Y)) :
  (forall a b, length a = length b -> length (gx a) = length (gy b)) ->
  Forall2 (fun a b => length a = length b) xss yss ->
  Forall2 (fun a b => length a = length b) (map gx xss) (map gy yss).
Proof.
  intros Hg. induction 1; simpl; constructor; auto.
Qed.

Section MoreLists.
Context {X : Type}.

Lemma In_firstn_l (n : nat) (l : list X) (x : X) : In x (firstn n l) -> In x l.
Proof.
  intros H. rewrite <- (firstn_skipn n l). apply in_or_app. now left.
Qed.

Lemma In_skipn_l (n : nat) (l : list X) (x : X) : In x (skipn n l) -> In x l.
Proof.
  intros H. rewrite <- (firstn_skipn n l). apply in_or_app. now right.
Qed.

Lemma In_chunks (k n : nat) (l blk : list X) (x : X) :
  In blk (chunks k n l) -> In x blk -> In x l.
Proof.
  revert l. induction k as [|k IH]; intros l Hb Hx; [destruct Hb|].
  destruct Hb as [<-|Hb].
  - now apply In_firstn_l in Hx.
  - apply In_skipn_l with (n := n). now apply IH.
Qed.

Lemma In_zip3 (a b c : list X) (x y z : X) :
  In (x, y, z) (zip3 a b c) -> In x a /\ In y b /\ In z c.
Proof.
  revert b c. induction a as [|x' a IH]; intros [|y' b] [|z' c] H;
    simpl in H; try contradiction.
  destruct H as [H|H].
  - inversion H; subst. simpl. auto.
  - apply IH in H. simpl. tauto.
Qed.

Lemma Forall2_firstn {Y : Type} (R : X -> Y -> Prop) (n : nat) (a : list X)
    (b : list Y) :
  Forall2 R a b -> Forall2 R (firstn n a) (firstn n b).
Proof.
  intros H. revert n. induction H; intros [|n]; simpl; constructor; auto.
Qed.

Lemma Forall2_skipn {Y : Type} (R : X -> Y -> Prop) (n : nat) (a : list X)
    (b : list Y) :
  Forall2 R a b -> Forall2 R (skipn n a) (skipn n b).
Proof.
  intros H. revert n. induction H; intros [|n]; simpl; try constructor; auto.
Qed.

Lemma Forall2_chunks {Y : Type} (R : X -> Y -> Prop) (k n : nat) (a : list X)
    (b : list Y) :
  Forall2 R a b -> Forall2 (Forall2 R) (chunks k n a) (chunks k n b).
Proof.
  revert a b. induction k as [|k IH]; intros a b H; simpl; constructor.
  - now apply Forall2_firstn.
  - apply IH. now apply Forall2_skipn.
Qed.

Lemma Forall2_concat {Y : Type} (R : X -> Y -> Prop) (a : list (list X))
    (b : list (list Y)) :
  Forall2 (Forall2 R) a b -> Forall2 R (concat a) (concat b).
Proof.
  induction 1; simpl; [constructor|]. now apply Forall2_app.
Qed.

Lemma Forall2_map_map {Y Z : Type} (R : Y -> Z -> Prop) (f : X -> Y)
    (g : X -> Z) (l : list X) :
  Forall (fun x => R (f x) (g x)) l -> Forall2 R (map f l) (map g l).
Proof. induction 1; simpl; constructor; auto. Qed.

End MoreLists.

Lemma Forall2_zipWith_app {X Y : Type} (R : X -> Y -> Prop)
    (a b : list (list X)) (a' b' : list (list Y)) :
  Forall2 (Forall2 R) a a' -> Forall2 (Forall2 R) b b' ->
  Forall2 (Forall2 R) (zipWith (@app X) a b) (zipWith (@app Y) a' b').
Proof.
  intros Ha. revert b b'. induction Ha as [|x x' a a' Hx _ IH]; intros b b' Hb.
  - constructor.
  - destruct Hb as [|y y' b b' Hy Hb]; simpl; constructor.
    + now apply Forall2_app.
    + now apply IH.
Qed.

Lemma Forall2_interleave3 {X Y : Type} (R : X -> Y -> Prop) (k : nat)
    (a b c : list (list X)) (a' b' c' : list (list Y)) :
  Forall2 (Forall2 R) a a' -> Forall2 (Forall2 R) b b' ->
  Forall2 (Forall2 R) c c' ->
  Forall2 (Forall2 R) (interleave k [a; b; c]) (interleave k [a'; b'; c']).
Proof.
  intros Ha Hb Hc. unfold interleave. simpl.
  repeat apply Forall2_zipWith_app; try assumption.
  induction k; simpl; constructor; auto.
Qed.

(** ** Shapes *)

Lemma numel_app (s1 s2 : list nat) : numel (s1 ++ s2) = numel s1 * numel s2.
Proof.
  induction s1 as [|n s1 IH]; simpl; [lia|]. rewrite IH. lia.
Qed.

Lemma numel_chw (lead : list nat) (c h w : nat) :
  numel (lead ++ [c; h; w]) = numel lead * (c * (h * w)).
Proof. rewrite numel_app. simpl. rewrite Nat.mul_1_r. reflexivity. Qed.

Lemma numel_hw (lead : list nat) (h w : nat) :
  numel (lead ++ [h; w]) = numel lead * (h * w).
Proof. rewrite numel_app. simpl. rewrite Nat.mul_1_r. reflexivity. Qed.

Lemma split_m3_app (lead : list nat) (c h w : nat) :
  split_m3 (lead ++ [c; h; w]) = Some (lead, c, h, w).
Proof.
  unfold split_m3. rewrite rev_app_distr. simpl. now rewrite rev_involutive.
Qed.

Lemma split_m2_app (lead : list nat) (h w : nat) :
  split_m2 (lead ++ [h; w]) = Some (lead, h, w).
Proof.
  unfold split_m2. rewrite rev_app_distr. simpl. now rewrite rev_involutive.
Qed.

Lemma shape_eqb_refl (s : list nat) : shape_eqb s s = true.
Proof. unfold shape_eqb. now destruct (list_eq_dec Nat.eq_dec s s). Qed.

Lemma shape_eqb_eq (s1 s2 : list nat) : shape_eqb s1 s2 = true -> s1 = s2.
Proof.
  unfold shape_eqb. now destruct (list_eq_dec Nat.eq_dec s1 s2).
Qed.

Section Guard.
Context {A : Type}.

Lemma bad_channels_chw {t : Tensor A} {lead : list nat} {c h w : nat}
    (req : nat) :
  shape t = lead ++ [c; h; w] ->
  bad_channels t req = Ok (negb (c =? req)).
Proof.
  intros Hs. unfold bad_channels, dim, size_neg. rewrite Hs.
  rewrite length_app, rev_app_distr. simpl.
  replace (length lead + 3 <? 3) with false
    by (symmetry; apply Nat.ltb_ge; lia).
  reflexivity.
Qed.

Lemma bad_channels_low_dim (t : Tensor A) (req : nat) :
  dim t < 3 -> bad_channels t req = Ok true.
Proof.
  intros H. unfold bad_channels. apply Nat.ltb_lt in H. now rewrite H.
Qed.

End Guard.

(** ** Channels of a tensor *)


Lemma wf_chw {A : Type} {t : Tensor A} {lead : list nat} {c h w : nat} :
  shape t = lead ++ [c; h; w] -> wf t -> chw t lead c h w.
Proof.
  intros Hs Hwf. split; [assumption|].
  unfold wf in Hwf. now rewrite Hwf, Hs, numel_chw.
Qed.

Lemma chw_wf {A : Type} {t : Tensor A} {lead : list nat} {c h w : nat} :
  chw t lead c h w -> wf t.
Proof. intros [Hs Hl]. unfold wf. now rewrite Hl, Hs, numel_chw. Qed.

Section Channels.
Context {A : Type}.


Lemma chan_data_eq (lead : list nat) (c p i : nat) (t : Tensor A) :
  chan_data lead c p i t
  = concat (map (plane p i) (chunks (numel lead) (c * p) (data t))).
Proof. reflexivity. Qed.

Lemma plane_length (c p i : nat) (blk : list A) :
  length blk = c * p -> i < c -> length (plane p i blk) = p.
Proof.
  intros Hl Hi. unfold plane. rewrite length_firstn, length_skipn. nia.
Qed.

Lemma chan_data_length (lead : list nat) (c p i : nat) (t : Tensor A) :
  length (data t) = numel lead * (c * p) -> i < c ->
  length (chan_data lead c p i t) = numel lead * p.
Proof.
  intros Hl Hi. rewrite chan_data_eq.
  rewrite (@length_concat_each _ p).
  - now rewrite length_map, chunks_length.
  - apply Forall_map_length.
    eapply Forall_impl; [|apply chunks_each; eassumption].
    intros blk Hb. now apply plane_length with (c := c).
Qed.

Lemma plane3_0 (p : nat) (f0 f1 f2 : list A) :
  length f0 = p -> plane p 0 (f0 ++ f1 ++ f2 ++ []) = f0.
Proof.
  intros H0. unfold plane. simpl. now apply firstn_exact.
Qed.

Lemma plane3_1 (p : nat) (f0 f1 f2 : list A) :
  length f0 = p -> length f1 = p -> plane p 1 (f0 ++ f1 ++ f2 ++ []) = f1.
Proof.
  intros H0 H1. unfold plane. rewrite Nat.mul_1_l.
  rewrite skipn_exact by assumption. now apply firstn_exact.
Qed.

Lemma plane3_2 (p : nat) (f0 f1 f2 : list A) :
  length f0 = p -> length f1 = p -> length f2 = p ->
  plane p 2 (f0 ++ f1 ++ f2 ++ []) = f2.
Proof.
  intros H0 H1 H2. unfold plane.
  rewrite app_assoc, skipn_exact by (rewrite length_app; lia).
  now apply firstn_exact.
Qed.

(** The blocks of three operands put one after the other. *)
Lemma interleave3 (k : nat) (a b c : list (list A)) :
  length a = k -> length b = k -> length c = k ->
  interleave k [a; b; c]
  = zipWith (fun x yz => x ++ fst yz ++ snd yz ++ []) a (zipWith pair b c).
Proof.
  unfold interleave. simpl.
  revert a b c. induction k as [|k IH]; intros [|x a] [|y b] [|z c];
    simpl; try discriminate; try reflexivity.
  intros Ha Hb Hc. f_equal. apply IH; lia.
Qed.

Lemma interleave3_chunks (k p : nat) (x0 x1 x2 : list A) :
  length x0 = k * p -> length x1 = k * p -> length x2 = k * p ->
  let d := concat (interleave k [chunks k p x0; chunks k p x1; chunks k p x2]) in
  length d = k * (3 * p) /\
  concat (map (plane p 0) (chunks k (3 * p) d)) = x0 /\
  concat (map (plane p 1) (chunks k (3 * p) d)) = x1 /\
  concat (map (plane p 2) (chunks k (3 * p) d)) = x2.
Proof.
  rewrite interleave3 by apply chunks_length.
  revert x0 x1 x2. induction k as [|k IH]; intros x0 x1 x2 H0 H1 H2.
  - destruct x0, x1, x2; try discriminate. simpl. auto.
  - cbn [chunks zipWith concat fst snd].
    set (f0 := firstn p x0). set (f1 := firstn p x1). set (f2 := firstn p x2).
    assert (L0 : length f0 = p) by (unfold f0; rewrite length_firstn; lia).
    assert (L1 : length f1 = p) by (unfold f1; rewrite length_firstn; lia).
    assert (L2 : length f2 = p) by (unfold f2; rewrite length_firstn; lia).
    assert (L : length (f0 ++ f1 ++ f2 ++ []) = 3 * p)
      by (rewrite !length_app; simpl; lia).
    destruct (IH (skipn p x0) (skipn p x1) (skipn p x2)) as (Hd & E0 & E1 & E2);
      try (rewrite length_skipn; lia).
    cbv zeta in Hd, E0, E1, E2.
    rewrite firstn_exact, skipn_exact by assumption.
    cbn [map concat]. rewrite E0, E1, E2.
    rewrite plane3_0, plane3_1, plane3_2 by assumption.
    split; [rewrite length_app, L, Hd; lia|].
    unfold f0, f1, f2. rewrite !firstn_skipn. auto.
Qed.

End Channels.

(** ** Pixels *)


Lemma zipWith_map_same {X Y Z W : Type} (f : Y -> Z -> W) (g : X -> Y)
    (h : X -> Z) (l : list X) :
  zipWith f (map g l) (map h l) = map (fun x => f (g x) (h x)) l.
Proof. induction l as [|x l IH]; simpl; [reflexivity|]. now rewrite IH. Qed.

Lemma zip3_map {X Y : Type} (g0 g1 g2 : X -> Y) (l : list X) :
  zip3 (map g0 l) (map g1 l) (map g2 l) = map (fun x => (g0 x, g1 x, g2 x)) l.
Proof. induction l as [|x l IH]; simpl; [reflexivity|]. f_equal. apply IH. Qed.

Lemma zip3_length {X : Type} (a b c : list X) (n : nat) :
  length a = n -> length b = n -> length c = n -> length (zip3 a b c) = n.
Proof.
  revert b c n. induction a as [|x a IH]; intros [|y b] [|z c] n Ha Hb Hc;
    simpl in *; try congruence.
  destruct n as [|n]; [discriminate|]. f_equal. apply IH; congruence.
Qed.

Lemma zip3_channels {X : Type} (a b c : list X) :
  length a = length b -> length b = length c ->
  map (fun px => fst (fst px)) (zip3 a b c) = a /\
  map (fun px => snd (fst px)) (zip3 a b c) = b /\
  map (fun px => snd px) (zip3 a b c) = c.
Proof.
  revert b c. induction a as [|x a IH]; intros [|y b] [|z c] H1 H2;
    simpl in *; try discriminate; auto.
  destruct (IH b c) as (E0 & E1 & E2); try lia.
  now rewrite E0, E1, E2.
Qed.

Section TensorFacts.
Context {A : Type}.

Lemma channel_chw {t : Tensor A} {lead : list nat} {c h w : nat} (i : nat) :
  shape t = lead ++ [c; h; w] ->
  channel t i = chan_data lead c (h * w) i t.
Proof. intros Hs. unfold channel. now rewrite Hs, split_m3_app. Qed.

Lemma channel_length {t : Tensor A} {lead : list nat} {c h w : nat} (i : nat) :
  chw t lead c h w -> i < c -> length (channel t i) = numel lead * (h * w).
Proof.
  intros [Hs Hl] Hi. rewrite (channel_chw i Hs).
  now apply chan_data_length.
Qed.

Lemma pixels3_length {t : Tensor A} {lead : list nat} {h w : nat} :
  chw t lead 3 h w -> length (pixels3 t) = numel lead * (h * w).
Proof.
  intros H. apply zip3_length; apply (channel_length _ H); lia.
Qed.

Lemma pixels3_channels {t : Tensor A} {lead : list nat} {h w : nat} :
  chw t lead 3 h w ->
  channel t 0 = map (fun px => fst (fst px)) (pixels3 t) /\
  channel t 1 = map (fun px => snd (fst px)) (pixels3 t) /\
  channel t 2 = map (fun px => snd px) (pixels3 t).
Proof.
  intros H.
  destruct (@zip3_channels _ (channel t 0) (channel t 1) (channel t 2))
    as (E0 & E1 & E2).
  - rewrite (channel_length 0 H), (channel_length 1 H); lia.
  - rewrite (channel_length 1 H), (channel_length 2 H); lia.
  - unfold pixels3. now rewrite E0, E1, E2.
Qed.

(** The view agrees with the row-major layout: element [q] of plane [i] of
    block [b] is element [(b * c + i) * (h * w) + q] of the data. *)
Lemma channel_nth_error {t : Tensor A} {lead : list nat} {c h w : nat}
    (i b q : nat) :
  chw t lead c h w -> i < c -> b < numel lead -> q < h * w ->
  nth_error (channel t i) (b * (h * w) + q)
  = nth_error (data t) ((b * c + i) * (h * w) + q).
Proof.
  intros [Hs Hl] Hi Hb Hq. rewrite (channel_chw i Hs), chan_data_eq.
  rewrite (nth_error_concat_each (h * w)).
  - rewrite nth_error_map, chunks_nth_error by exact Hb. simpl. unfold plane.
    rewrite nth_error_firstn. rewrite (proj2 (Nat.ltb_lt _ _) Hq).
    rewrite nth_error_skipn, nth_error_firstn.
    replace (i * (h * w) + q <? c * (h * w)) with true
      by (symmetry; apply Nat.ltb_lt; nia).
    rewrite nth_error_skipn. f_equal. lia.
  - apply Forall_map_length.
    eapply Forall_impl; [|apply chunks_each; eassumption].
    intros blk Lb. now apply plane_length with (c := c).
  - exact Hq.
Qed.

(** A well-formed 1-channel tensor is its channel 0. *)
Lemma channel_single {t : Tensor A} {lead : list nat} {h w : nat} :
  chw t lead 1 h w -> channel t 0 = data t.
Proof.
  intros [Hs Hl]. rewrite (channel_chw 0 Hs), chan_data_eq.
  rewrite Nat.mul_1_l in *.
  assert (E : map (plane (h * w) 0) (chunks (numel lead) (h * w) (data t))
              = chunks (numel lead) (h * w) (data t)).
  { rewrite <- (map_id (chunks _ _ _)) at 2.
    apply map_ext_Forall.
    eapply Forall_impl; [|apply chunks_each; eassumption].
    intros blk Hb. unfold plane. simpl. rewrite <- Hb. apply firstn_all. }
  rewrite E. now apply concat_chunks.
Qed.

(** *** Elementwise operations *)

Lemma tmap_chw {B : Type} (f : A -> B) {t : Tensor A} {lead c h w} :
  chw t lead c h w -> chw (tmap f t) lead c h w.
Proof. intros [Hs Hl]. split; simpl; [assumption|]. now rewrite length_map. Qed.

Lemma tmap_hw {B : Type} (f : A -> B) {t : Tensor A} {lead h w} :
  hw t lead h w -> hw (tmap f t) lead h w.
Proof. intros [Hs Hl]. split; simpl; [assumption|]. now rewrite length_map. Qed.

Lemma channel_tmap {B : Type} (f : A -> B) (t : Tensor A) (i : nat) :
  channel (tmap f t) i = map f (channel t i).
Proof.
  unfold channel. simpl. destruct (split_m3 (shape t)) as [[[[lead c] h] w]|];
    [|reflexivity].
  rewrite !chan_data_eq. simpl. rewrite chunks_map, map_map, concat_map, map_map.
  f_equal. apply map_ext. intros blk. unfold plane.
  now rewrite skipn_map, firstn_map.
Qed.

Lemma pixels3_tmap {B : Type} (f : A -> B) (t : Tensor A) :
  pixels3 (tmap f t)
  = map (fun px => (f (fst (fst px)), f (snd (fst px)), f (snd px))) (pixels3 t).
Proof.
  unfold pixels3. rewrite !channel_tmap.
  generalize (channel t 0) (channel t 1) (channel t 2).
  induction l as [|x l IH]; intros [|y l1] [|z l2]; simpl; try reflexivity.
  now rewrite IH.
Qed.

Lemma tzip_hw {B C : Type} (f : A -> B -> C) {t1 : Tensor A} {t2 : Tensor B}
    {lead h w} :
  hw t1 lead h w -> hw t2 lead h w ->
  exists out, tzip f t1 t2 = Ok out /\ hw out lead h w /\
              data out = zipWith f (data t1) (data t2).
Proof.
  intros [Hs1 Hl1] [Hs2 Hl2]. unfold tzip. rewrite Hs1, Hs2, shape_eqb_refl.
  eexists. split; [reflexivity|]. split; [|reflexivity].
  split; simpl; [reflexivity|]. rewrite zipWith_length. lia.
Qed.

Lemma tzip_chw {B C : Type} (f : A -> B -> C) {t1 : Tensor A} {t2 : Tensor B}
    {lead c h w} :
  chw t1 lead c h w -> chw t2 lead c h w ->
  exists out, tzip f t1 t2 = Ok out /\ chw out lead c h w /\
              data out = zipWith f (data t1) (data t2) /\
              forall i, channel out i = zipWith f (channel t1 i) (channel t2 i).
Proof.
  intros [Hs1 Hl1] [Hs2 Hl2]. unfold tzip. rewrite Hs1, Hs2, shape_eqb_refl.
  eexists. split; [reflexivity|]. split; [|split; [reflexivity|]].
  - split; simpl; [reflexivity|]. rewrite zipWith_length. lia.
  - intros i. unfold channel. simpl. rewrite Hs1, Hs2, split_m3_app.
    rewrite !chan_data_eq. simpl. rewrite chunks_zipWith.
    rewrite <- concat_zipWith.
    + f_equal.
      generalize (chunks_same_lengths (numel lead) (c * (h * w))
                    (data t1) (data t2) (eq_trans Hl1 (eq_sym Hl2))).
      induction 1 as [|a b xs ys Hab _ IH]; simpl; [reflexivity|].
      rewrite IH. f_equal. unfold plane.
      now rewrite skipn_zipWith, firstn_zipWith.
    + apply Forall2_map_lengths.
      * intros a b Hab. unfold plane.
        rewrite !length_firstn, !length_skipn. lia.
      * apply chunks_same_lengths. lia.
Qed.

(** *** Indexing, stacking and broadcasting along the channel axis *)

Lemma select_m3_chw {t : Tensor A} {lead c h w} (i : nat) :
  chw t lead c h w -> i < c ->
  exists x, select_m3 t i = Ok x /\ hw x lead h w /\ data x = channel t i.
Proof.
  intros H Hi. pose proof H as [Hs Hl]. unfold select_m3.
  rewrite Hs, split_m3_app. apply Nat.ltb_lt in Hi as Hi'. rewrite Hi'.
  eexists. split; [reflexivity|]. split.
  - split; simpl; [reflexivity|]. now apply chan_data_length.
  - simpl. now rewrite (channel_chw i Hs).
Qed.

Lemma stack_m3_hw {x0 x1 x2 : Tensor A} {lead h w} :
  hw x0 lead h w -> hw x1 lead h w -> hw x2 lead h w ->
  exists out, stack_m3 [x0; x1; x2] = Ok out /\ chw out lead 3 h w /\
              channel out 0 = data x0 /\ channel out 1 = data x1 /\
              channel out 2 = data x2.
Proof.
  intros [Hs0 Hl0] [Hs1 Hl1] [Hs2 Hl2]. unfold stack_m3.
  cbn [forallb]. rewrite Hs0, Hs1, Hs2, shape_eqb_refl, split_m2_app.
  cbn [andb length map]. eexists. split; [reflexivity|].
  destruct (interleave3_chunks (numel lead) (h * w) (data x0) (data x1) (data x2))
    as (Hd & E0 & E1 & E2); try assumption.
  cbv zeta in Hd, E0, E1, E2.
  unfold channel. cbn [shape data]. rewrite split_m3_app, !chan_data_eq.
  cbn [data]. unfold blocks.
  repeat split; assumption.
Qed.

Lemma pixels3_stack (out x0 x1 x2 : Tensor A) :
  channel out 0 = data x0 -> channel out 1 = data x1 ->
  channel out 2 = data x2 ->
  pixels3 out = zip3 (data x0) (data x1) (data x2).
Proof. intros E0 E1 E2. unfold pixels3. now rewrite E0, E1, E2. Qed.

Lemma concat_repeat_repeat (x : A) (p k : nat) :
  concat (repeat (repeat x p) k) = repeat x (k * p).
Proof.
  induction k as [|k IH]; simpl; [reflexivity|].
  now rewrite IH, repeat_app.
Qed.

Lemma expand_c11_chw (a b c : A) lead h w :
  exists out,
    expand_c11 (mkTensor [3; 1; 1] [a; b; c]) (lead ++ [3; h; w]) = Ok out /\
    chw out lead 3 h w /\
    channel out 0 = repeat a (numel lead * (h * w)) /\
    channel out 1 = repeat b (numel lead * (h * w)) /\
    channel out 2 = repeat c (numel lead * (h * w)).
Proof.
  unfold expand_c11. rewrite split_m3_app. cbn [shape data].
  rewrite shape_eqb_refl. eexists. split; [reflexivity|].
  cbn [flat_map]. set (blk := repeat a (h * w) ++ repeat b (h * w)
                                ++ repeat c (h * w) ++ []).
  assert (Lb : length blk = 3 * (h * w)).
  { unfold blk. rewrite !length_app, !repeat_length. simpl. lia. }
  assert (Fb : Forall (fun x => length x = 3 * (h * w)) (repeat blk (numel lead))).
  { apply Forall_forall. intros x Hx. apply repeat_spec in Hx. now subst. }
  split.
  - split; [reflexivity|]. cbn [data].
    rewrite (length_concat_each _ _ Fb), repeat_length. reflexivity.
  - unfold channel. cbn [shape]. rewrite split_m3_app, !chan_data_eq.
    cbn [data].
    pose proof (chunks_concat _ _ Fb) as E. rewrite repeat_length in E.
    rewrite E, !map_repeat.
    unfold blk. rewrite plane3_0, plane3_1, plane3_2 by apply repeat_length.
    now rewrite !concat_repeat_repeat.
Qed.

Lemma narrow_m3_chw {t : Tensor A} {lead c h w} (i : nat) :
  chw t lead c h w -> i < c ->
  narrow_m3 t i (S i) = Ok (mkTensor (lead ++ [1; h; w]) (channel t i)) /\
  chw (mkTensor (lead ++ [1; h; w]) (channel t i)) lead 1 h w.
Proof.
  intros H Hi. pose proof H as [Hs Hl]. unfold narrow_m3.
  rewrite Hs, split_m3_app. cbv zeta.
  replace (Nat.min (S i) c - Nat.min i c) with 1 by lia.
  replace (Nat.min i c) with i by lia.
  rewrite (channel_chw i Hs), chan_data_eq, Nat.mul_1_l.
  split; [reflexivity|]. split; [reflexivity|]. cbn [data].
  rewrite <- chan_data_eq, Nat.mul_1_l. now apply chan_data_length.
Qed.

Lemma cat_m3_single3 {t : Tensor A} {lead h w} :
  chw t lead 1 h w ->
  exists out, cat_m3 [t; t; t] = Ok out /\ chw out lead 3 h w /\
              channel out 0 = data t /\ channel out 1 = data t /\
              channel out 2 = data t.
Proof.
  intros [Hs Hl]. unfold cat_m3. cbn [cat_shape].
  rewrite Hs, split_m3_app, shape_eqb_refl, shape_eqb_refl.
  cbn [combine map fst snd fold_right Nat.add]. unfold blocks.
  rewrite Nat.mul_1_l in *. eexists. split; [reflexivity|].
  destruct (interleave3_chunks (numel lead) (h * w) (data t) (data t) (data t))
    as (Hd & E0 & E1 & E2); try assumption.
  cbv zeta in Hd, E0, E1, E2.
  unfold channel. cbn [shape data]. rewrite split_m3_app, !chan_data_eq.
  cbn [data]. repeat split; assumption.
Qed.

Lemma block3 (p : nat) (blk : list A) :
  length blk = 3 * p ->
  exists f0 f1 f2,
    blk = f0 ++ f1 ++ f2 ++ [] /\ chunks 3 p blk = [f0; f1; f2] /\
    length f0 = p /\ length f1 = p /\ length f2 = p.
Proof.
  intros Hl.
  exists (firstn p blk), (firstn p (skipn p blk)),
         (firstn p (skipn p (skipn p blk))).
  repeat split; try (rewrite ?length_firstn, ?length_skipn; lia).
  rewrite app_nil_r.
  rewrite <- (firstn_skipn p blk) at 1. f_equal.
  rewrite <- (firstn_skipn p (skipn p blk)) at 1. f_equal.
  symmetry. apply firstn_all2. rewrite !length_skipn. lia.
Qed.

Lemma flip_m3_chw {t : Tensor A} {lead h w} :
  chw t lead 3 h w ->
  exists out, flip_m3 t = Ok out /\ chw out lead 3 h w /\
              channel out 0 = channel t 2 /\ channel out 1 = channel t 1 /\
              channel out 2 = channel t 0.
Proof.
  intros H. pose proof H as [Hs Hl]. unfold flip_m3.
  rewrite Hs, split_m3_app. unfold blocks. eexists. split; [reflexivity|].
  set (g := fun blk : list A => concat (rev (chunks 3 (h * w) blk))).
  pose proof (chunks_each (numel lead) (3 * (h * w)) (data t) Hl) as Hb.
  assert (Fg : Forall (fun x => length x = 3 * (h * w))
                 (map g (chunks (numel lead) (3 * (h * w)) (data t)))).
  { apply Forall_map_length. eapply Forall_impl; [|exact Hb].
    intros blk Lb. destruct (block3 _ _ Lb) as (f0 & f1 & f2 & _ & E & L0 & L1 & L2).
    unfold g. rewrite E. simpl. rewrite !length_app. simpl. lia. }
  split.
  - split; [reflexivity|]. cbn [data].
    now rewrite (length_concat_each _ _ Fg), length_map, chunks_length.
  - unfold channel. cbn [shape]. rewrite Hs, split_m3_app, !chan_data_eq.
    cbn [data].
    pose proof (chunks_concat _ _ Fg) as E.
    rewrite length_map, chunks_length in E. rewrite E, !map_map.
    assert (P : forall i j, i + j = 2 ->
              map (fun blk => plane (h * w) i (g blk))
                  (chunks (numel lead) (3 * (h * w)) (data t))
              = map (plane (h * w) j)
                    (chunks (numel lead) (3 * (h * w)) (data t))).
    { intros i j Hij. apply map_ext_Forall. eapply Forall_impl; [|exact Hb].
      intros blk Lb.
      destruct (block3 _ _ Lb) as (f0 & f1 & f2 & Eb & Ec & L0 & L1 & L2).
      unfold g. rewrite Ec. cbn [rev app concat]. rewrite Eb.
      destruct i as [|[|[|i]]]; [| | |lia].
      - replace j with 2 by lia. now rewrite plane3_0, plane3_2.
      - replace j with 1 by lia. now rewrite !plane3_1.
      - replace j with 0 by lia. now rewrite plane3_0, plane3_2. }
    rewrite (P 0 2), (P 1 1), (P 2 0) by lia. auto.
Qed.

(** The data of a 3-channel tensor, put together again from its channels. *)
Lemma data_of_planes (k p : nat) (d : list A) :
  length d = k * (3 * p) ->
  d = concat (interleave k
        [chunks k p (concat (map (plane p 0) (chunks k (3 * p) d)));
         chunks k p (concat (map (plane p 1) (chunks k (3 * p) d)));
         chunks k p (concat (map (plane p 2) (chunks k (3 * p) d)))]).
Proof.
  rewrite interleave3 by apply chunks_length.
  revert d. induction k as [|k IH]; intros d Hd.
  - now destruct d.
  - cbn [chunks map concat].
    assert (Lb : length (firstn (3 * p) d) = 3 * p)
      by (rewrite length_firstn; lia).
    destruct (block3 p _ Lb) as (f0 & f1 & f2 & Eb & _ & L0 & L1 & L2).
    rewrite Eb.
    rewrite plane3_0, plane3_1, plane3_2 by assumption.
    rewrite !firstn_exact, !skipn_exact by assumption.
    cbn [zipWith concat fst snd].
    rewrite <- IH by (rewrite length_skipn; lia).
    rewrite <- Eb. symmetry. apply firstn_skipn.
Qed.

Lemma data_of_channels {t : Tensor A} {lead h w} :
  chw t lead 3 h w ->
  data t = concat (interleave (numel lead)
             [chunks (numel lead) (h * w) (channel t 0);
              chunks (numel lead) (h * w) (channel t 1);
              chunks (numel lead) (h * w) (channel t 2)]).
Proof.
  intros [Hs Hl]. rewrite !(channel_chw _ Hs), !chan_data_eq.
  now apply data_of_planes.
Qed.

End TensorFacts.

Lemma Forall2_channels {A B : Type} (R : A -> B -> Prop) {t : Tensor A}
    {t' : Tensor B} {lead h w} :
  chw t lead 3 h w -> chw t' lead 3 h w ->
  (forall i, i < 3 -> Forall2 R (channel t i) (channel t' i)) ->
  Forall2 R (data t) (data t').
Proof.
  intros H H' HR. rewrite (data_of_channels H), (data_of_channels H').
  apply Forall2_concat. apply Forall2_interleave3; apply Forall2_chunks;
    apply HR; lia.
Qed.

Lemma In_channel {A : Type} (t : Tensor A) (i : nat) (x : A) :
  In x (channel t i) -> In x (data t).
Proof.
  unfold channel. destruct (split_m3 (shape t)) as [[[[lead c] h] w]|];
    [|intros []].
  rewrite chan_data_eq. intros H. apply in_concat in H as (pl & Hpl & Hx).
  apply in_map_iff in Hpl as (blk & <- & Hblk).
  apply (In_chunks _ _ _ _ _ Hblk). unfold plane in Hx.
  now apply In_firstn_l, In_skipn_l in Hx.
Qed.

(** ** The grayscale converter *)

Section GrayFacts.
Context {A : Type} {SA : Scalar A}.

Lemma luma_channels (w_r w_g w_b : A) {t : Tensor A} {lead h w} :
  chw t lead 3 h w ->
  zipWith add
    (zipWith add (map (mul w_r) (channel t 0)) (map (mul w_g) (channel t 1)))
    (map (mul w_b) (channel t 2))
  = map (luma w_r w_g w_b) (pixels3 t).
Proof.
  intros H. destruct (pixels3_channels H) as (E0 & E1 & E2).
  rewrite E0, E1, E2, !map_map, !zipWith_map_same.
  apply map_ext. now intros [[r g] b].
Qed.

(** [rgb_to_grayscale] with the weights [w_r], [w_g], [w_b], supplied or
    taken by default. *)
Lemma rgb_to_grayscale_weights (t : Tensor A) (rgb_weights : option (list A))
    (w_r w_g w_b : A) {lead h w} :
  chw t lead 3 h w ->
  match rgb_weights with
  | None => default_weights
  | Some ws => Ok ws
  end = Ok [w_r; w_g; w_b] ->
  rgb_to_grayscale t rgb_weights
  = Ok (mkTensor (lead ++ [1; h; w]) (map (luma w_r w_g w_b) (pixels3 t))).
Proof.
  intros H Hw. pose proof H as [Hs Hl]. unfold rgb_to_grayscale.
  rewrite (bad_channels_chw 3 Hs). cbn [Nat.eqb negb bind]. rewrite Hw.
  cbn [bind].
  destruct (narrow_m3_chw 0 H) as [-> H0]; [lia|].
  destruct (narrow_m3_chw 1 H) as [-> H1]; [lia|].
  destruct (narrow_m3_chw 2 H) as [-> H2]; [lia|].
  cbn [bind unbind3].
  unfold tzip. cbn [tmap shape data bind]. rewrite shape_eqb_refl.
  cbn [bind shape data]. rewrite shape_eqb_refl.
  now rewrite (luma_channels _ _ _ H).
Qed.

Lemma rgb_to_grayscale_unsupported (t : Tensor A) lead h w :
  shape t = lead ++ [3; h; w] ->
  default_weights = Raise TypeError ->
  rgb_to_grayscale t None = Raise TypeError.
Proof.
  intros Hs Hw. unfold rgb_to_grayscale.
  rewrite (bad_channels_chw 3 Hs). cbn [Nat.eqb negb bind]. now rewrite Hw.
Qed.

Lemma zip3_swap (a b c : list A) :
  length a = length b -> length b = length c ->
  zip3 c b a = map swap_rb (zip3 a b c).
Proof.
  revert b c. induction a as [|x a IH]; intros [|y b] [|z c] H1 H2;
    simpl in *; try discriminate; try reflexivity.
  f_equal. apply IH; lia.
Qed.

Lemma bgr_to_grayscale_flip {t : Tensor A} {lead h w} :
  chw t lead 3 h w ->
  exists reversed,
    flip_m3 t = Ok reversed /\ chw reversed lead 3 h w /\
    pixels3 reversed = map swap_rb (pixels3 t) /\
    bgr_to_grayscale t = rgb_to_grayscale reversed None.
Proof.
  intros H. destruct (flip_m3_chw H) as (x & Ex & Hx & E0 & E1 & E2).
  exists x. split; [exact Ex|]. split; [exact Hx|]. split.
  - unfold pixels3. rewrite E0, E1, E2. apply zip3_swap.
    + rewrite (channel_length 0 H), (channel_length 1 H); lia.
    + rewrite (channel_length 1 H), (channel_length 2 H); lia.
  - unfold bgr_to_grayscale, bgr_to_rgb.
    rewrite (bad_channels_chw 3 (proj1 H)). cbn [Nat.eqb negb bind].
    now rewrite Ex.
Qed.

Lemma grayscale_to_rgb_chw {t : Tensor A} {lead h w} :
  chw t lead 1 h w ->
  exists rgb,
    grayscale_to_rgb t = Ok rgb /\ chw rgb lead 3 h w /\
    forall i, i < 3 -> channel rgb i = data t.
Proof.
  intros H. destruct (cat_m3_single3 H) as (x & Ex & Hx & E0 & E1 & E2).
  exists x. split; [|split; [exact Hx|]].
  - unfold grayscale_to_rgb. rewrite (bad_channels_chw 1 (proj1 H)).
    cbn [Nat.eqb negb bind]. exact Ex.
  - intros i Hi. destruct i as [|[|[|i]]]; [assumption..|lia].
Qed.

(** C6.  On a 3-channel tensor [bgr_to_grayscale] is [rgb_to_grayscale],
    with default weights, of the tensor with the channel axis reversed:
    the same shape, every pixel (B, G, R) read as (R, G, B). *)
Theorem bgr_to_grayscale_reversed (t : Tensor A) lead h w :
  shape t = lead ++ [3; h; w] -> wf t ->
  exists reversed,
    flip_m3 t = Ok reversed /\
    shape reversed = shape t /\ wf reversed /\
    pixels3 reversed = map swap_rb (pixels3 t) /\
    bgr_to_grayscale t = rgb_to_grayscale reversed None.
Proof.
  intros Hs Hwf.
  destruct (bgr_to_grayscale_flip (wf_chw Hs Hwf)) as (x & Ex & Hx & Px & E).
  exists x. split; [exact Ex|]. split; [now rewrite (proj1 Hx)|].
  split; [exact (chw_wf Hx)|]. now split.
Qed.

(** C7.  [grayscale_to_rgb] on a 1-channel tensor returns a 3-channel
    tensor each channel of which is the input: the slice [i : i + 1] of
    the channel axis is the input itself, for [i = 0, 1, 2]. *)
Theorem grayscale_to_rgb_slices (t : Tensor A) lead h w :
  shape t = lead ++ [1; h; w] -> wf t ->
  exists rgb,
    grayscale_to_rgb t = Ok rgb /\
    shape rgb = lead ++ [3; h; w] /\ wf rgb /\
    forall i, i < 3 -> channel rgb i = data t /\ narrow_m3 rgb i (S i) = Ok t.
Proof.
  intros Hs Hwf.
  destruct (grayscale_to_rgb_chw (wf_chw Hs Hwf)) as (x & Ex & Hx & Ei).
  exists x. split; [exact Ex|]. split; [exact (proj1 Hx)|].
  split; [exact (chw_wf Hx)|].
  intros i Hi. split; [now apply Ei|].
  destruct (narrow_m3_chw i Hx) as [-> _]; [exact Hi|].
  rewrite (Ei i Hi), <- Hs. now destruct t.
Qed.

End GrayFacts.

(** C4.  With no weights supplied, [rgb_to_grayscale] on a 3-channel
    tensor takes the weights by the numeric kind of the elements,
    [76, 150, 29] for [uint8], [0.299, 0.587, 0.114] for [float16],
    [float32] and [float64], and returns the single-channel tensor of
    [w_r * R + w_g * G + w_b * B], pixel by pixel, in the arithmetic of
    the elements; for any other kind, [int8] and [bfloat16] among them,
    it raises [TypeError].  On
    floating-point elements read as real numbers the result is
    [0.299 * R + 0.587 * G + 0.114 * B]. *)
Theorem rgb_to_grayscale_default :
  (forall (A : Type) (SA : Scalar A) (t : Tensor A) lead h w,
     shape t = lead ++ [3; h; w] -> wf t ->
     match dtype_of with
     | uint8 =>
         rgb_to_grayscale t None
         = Ok (mkTensor (lead ++ [1; h; w])
                 (map (luma (lit 76%Q) (lit 150%Q) (lit 29%Q)) (pixels3 t)))
     | float16 | float32 | float64 =>
         rgb_to_grayscale t None
         = Ok (mkTensor (lead ++ [1; h; w])
                 (map (luma (lit 0.299%Q) (lit 0.587%Q) (lit 0.114%Q))
                      (pixels3 t)))
     | _ => rgb_to_grayscale t None = Raise TypeError
     end) /\
  (forall (t : Tensor R) lead h w,
     shape t = lead ++ [3; h; w] -> wf t ->
     rgb_to_grayscale t None
     = Ok (mkTensor (lead ++ [1; h; w])
             (map (fun px : R * R * R =>
                     let '(r, g, b) := px in
                     (0.299 * r + 0.587 * g + 0.114 * b)%R)
                  (pixels3 t)))).
Proof.
  split.
  - intros A SA t lead h w Hs Hwf. pose proof (wf_chw Hs Hwf) as H.
    destruct dtype_of eqn:Hd;
      first [ apply rgb_to_grayscale_weights; [exact H|];
              unfold default_weights; now rewrite Hd
            | apply rgb_to_grayscale_unsupported with (1 := Hs);
              unfold default_weights; now rewrite Hd ].
  - intros t lead h w Hs Hwf.
    assert (Hw : default_weights
                 = Ok [lit 0.299%Q; lit 0.587%Q; lit 0.114%Q :> R])
      by reflexivity.
    rewrite (rgb_to_grayscale_weights t None _ _ _ (wf_chw Hs Hwf) Hw).
    do 2 f_equal.
Qed.

(** The default weights of [uint8] tensors, in 8-bit arithmetic. *)
Lemma luma_uint8 (px : Z * Z * Z) :
  luma (lit 76%Q) (lit 150%Q) (lit 29%Q) px = wrap8 (weighted_sum8 px).
Proof.
  destruct px as [[r g] b]. cbv [luma weighted_sum8 add mul lit u8_Scalar].
  change (wrap8 (Qtrunc 76)) with 76%Z. change (wrap8 (Qtrunc 150)) with 150%Z.
  change (wrap8 (Qtrunc 29)) with 29%Z. unfold wrap8.
  rewrite <- (Zplus_mod (76 * r) (150 * g)).
  rewrite Zplus_mod_idemp_l. apply Zplus_mod_idemp_r.
Qed.

(** C5.  On a 3-channel [uint8] tensor and with no weights supplied,
    [rgb_to_grayscale] computes [76 * R + 150 * G + 29 * B] in 8-bit
    unsigned arithmetic: every product and every sum is taken modulo 256,
    so the result is the weighted sum modulo 256, and wherever the weighted
    sum exceeds 255 the result is smaller than it. *)
Theorem rgb_to_grayscale_uint8_wraps (t : Tensor Z) lead h w :
  shape t = lead ++ [3; h; w] -> wf t ->
  rgb_to_grayscale t None
  = Ok (mkTensor (lead ++ [1; h; w])
          (map (fun px => (weighted_sum8 px mod 256)%Z) (pixels3 t))) /\
  (forall r g b : Z,
     luma (lit 76%Q) (lit 150%Q) (lit 29%Q) (r, g, b)
     = wrap8 (wrap8 (wrap8 (76 * r) + wrap8 (150 * g)) + wrap8 (29 * b))%Z) /\
  (forall px, In px (pixels3 t) ->
     (255 < weighted_sum8 px)%Z ->
     (0 <= weighted_sum8 px mod 256 < 256)%Z /\
     (weighted_sum8 px mod 256 < weighted_sum8 px)%Z).
Proof.
  intros Hs Hwf. split; [|split].
  - assert (Hw : default_weights = Ok [lit 76%Q; lit 150%Q; lit 29%Q :> Z])
      by reflexivity.
    rewrite (rgb_to_grayscale_weights t None _ _ _ (wf_chw Hs Hwf) Hw).
    do 2 f_equal. apply map_ext. intros px. apply luma_uint8.
  - reflexivity.
  - intros px _ Hpx.
    pose proof (Z.mod_pos_bound (weighted_sum8 px) 256 ltac:(lia)). lia.
Qed.

(** ** The Lab converter *)

(** Python numbers that denote one rational are one element. *)
Ltac norm_lit :=
  repeat match goal with
    | |- context [lit ?q] =>
        let q' := eval vm_compute in (Qred q) in
        lazymatch q with
        | q' => fail
        | _ => rewrite (lit_Qeq q q') by reflexivity
        end
    end.

Section LabFacts.
Context {A : Type} {SA : Scalar A} {FA : FloatScalar A}.

Lemma luma_lists (w_r w_g w_b : A) (a b c : list A) :
  length a = length b -> length b = length c ->
  zipWith add (zipWith add (map (mul w_r) a) (map (mul w_g) b))
          (map (mul w_b) c)
  = map (luma w_r w_g w_b) (zip3 a b c).
Proof.
  revert b c. induction a as [|x a IH]; intros [|y b] [|z c] H1 H2;
    simpl in *; try discriminate; try reflexivity.
  f_equal. apply IH; lia.
Qed.

Lemma mat_row_hw (row : Q * Q * Q) {r g b : Tensor A} {lead h w} :
  hw r lead h w -> hw g lead h w -> hw b lead h w ->
  exists x, mat_row row r g b = Ok x /\ hw x lead h w /\
            data x = map (dot row) (zip3 (data r) (data g) (data b)).
Proof.
  intros Hr Hg Hb. destruct row as [[m0 m1] m2]. unfold mat_row.
  destruct (tzip_hw add (tmap_hw (mul (lit m0)) Hr) (tmap_hw (mul (lit m1)) Hg))
    as (rg & -> & Hrg & Drg).
  cbn [bind].
  destruct (tzip_hw add Hrg (tmap_hw (mul (lit m2)) Hb)) as (x & -> & Hx & Dx).
  exists x. split; [reflexivity|]. split; [exact Hx|].
  rewrite Dx, Drg. cbn [tmap data]. apply luma_lists.
  - rewrite (proj2 Hr), (proj2 Hg). reflexivity.
  - rewrite (proj2 Hg), (proj2 Hb). reflexivity.
Qed.

Lemma apply_matrix_chw (m : mat3) {t : Tensor A} {lead h w} :
  chw t lead 3 h w ->
  exists out, apply_matrix m t = Ok out /\ chw out lead 3 h w /\
              pixels3 out = map (matvec m) (pixels3 t).
Proof.
  intros H. pose proof H as [Hs Hl]. destruct m as [[row0 row1] row2].
  unfold apply_matrix. rewrite (bad_channels_chw 3 Hs).
  cbn [Nat.eqb negb bind].
  destruct (select_m3_chw 0 H) as (r & -> & Hr & Dr); [lia|].
  destruct (select_m3_chw 1 H) as (g & -> & Hg & Dg); [lia|].
  destruct (select_m3_chw 2 H) as (b & -> & Hb & Db); [lia|].
  cbn [bind].
  destruct (mat_row_hw row0 Hr Hg Hb) as (x & -> & Hx & Dx).
  destruct (mat_row_hw row1 Hr Hg Hb) as (y & -> & Hy & Dy).
  destruct (mat_row_hw row2 Hr Hg Hb) as (z & -> & Hz & Dz).
  cbn [bind].
  destruct (stack_m3_hw Hx Hy Hz) as (out & -> & Ho & E0 & E1 & E2).
  exists out. split; [reflexivity|]. split; [exact Ho|].
  rewrite (pixels3_stack _ _ _ _ E0 E1 E2), Dx, Dy, Dz, Dr, Dg, Db.
  fold (pixels3 t). apply zip3_map.
Qed.

Lemma tmap_tmap {B C : Type} (f : A -> B) (g : B -> C) (t : Tensor A) :
  tmap g (tmap f t) = tmap (fun v => g (f v)) t.
Proof. unfold tmap. simpl. now rewrite map_map. Qed.

Lemma twhere_tmap (c : A -> bool) (p s : A -> A) (t : Tensor A) :
  twhere (tmap c t) (tmap p t) (tmap s t)
  = Ok (tmap (fun v => if c v then p v else s v) t).
Proof.
  unfold twhere, tzip. cbn [tmap shape data]. rewrite shape_eqb_refl.
  cbn [bind shape data]. rewrite shape_eqb_refl. unfold tmap. do 2 f_equal.
  rewrite !zipWith_map_same. reflexivity.
Qed.

Lemma zipWith_channel_repeat {B : Type} (f : A -> A -> B) {t : Tensor A}
    {lead c h w} (i : nat) (x : A) :
  chw t lead c h w -> i < c ->
  zipWith f (channel t i) (repeat x (numel lead * (h * w)))
  = map (fun v => f v x) (channel t i).
Proof.
  intros H Hi. apply zipWith_repeat_r. now rewrite (channel_length i H).
Qed.

Lemma rgb_to_lab_chw (m : mat3) {t : Tensor A} {lead h w} :
  chw t lead 3 h w ->
  exists out,
    rgb_to_lab m t = Ok out /\ chw out lead 3 h w /\
    pixels3 out = map (rgb_to_lab_pixel m) (pixels3 t).
Proof.
  intros H. pose proof (proj1 H) as Hs.
  unfold rgb_to_lab. rewrite (bad_channels_chw 3 Hs).
  cbn [Nat.eqb negb bind]. unfold rgb_to_linear_rgb, rgb_to_xyz.
  destruct (apply_matrix_chw m (tmap_chw to_linear H))
    as (xyz & -> & Hxyz & Pxyz).
  cbn [bind]. rewrite (proj1 Hxyz). unfold xyz_ref_white.
  destruct (expand_c11_chw (lit 0.95047%Q) (lit 1.0%Q) (lit 1.08883%Q) lead h w)
    as (white & -> & Hwhite & W0 & W1 & W2).
  cbn [bind].
  destruct (tzip_chw div Hxyz Hwhite) as (nrm & -> & Hn & _ & Cn).
  cbn [bind]. rewrite tmap_tmap, twhere_tmap. cbn [bind].
  match goal with
  | |- context [tmap ?f nrm] => set (F := f)
  end.
  pose proof (tmap_chw F Hn) as Hint.
  destruct (select_m3_chw 0 Hint) as (x & -> & Hx & Dx); [lia|].
  destruct (select_m3_chw 1 Hint) as (y & -> & Hy & Dy); [lia|].
  destruct (select_m3_chw 2 Hint) as (z & -> & Hz & Dz); [lia|].
  cbn [bind].
  destruct (tzip_hw sub Hx Hy) as (xy & -> & Hxy & Dxy).
  destruct (tzip_hw sub Hy Hz) as (yz & -> & Hyz & Dyz).
  cbn [bind].
  match goal with
  | |- context [stack_m3 [?L; ?a; ?b]] =>
      destruct (@stack_m3_hw _ L a b lead h w) as (out & -> & Ho & E0 & E1 & E2);
        try (apply tmap_hw; assumption)
  end.
  exists out. split; [reflexivity|]. split; [exact Ho|].
  rewrite (pixels3_stack _ _ _ _ E0 E1 E2). cbn [tmap data].
  rewrite Dxy, Dyz, Dx, Dy, Dz, !channel_tmap, !Cn, W0, W1, W2.
  rewrite !(zipWith_channel_repeat div _ _ Hxyz) by lia.
  destruct (pixels3_channels Hxyz) as (X0 & X1 & X2).
  rewrite X0, X1, X2, !map_map, !zipWith_map_same, !map_map, zip3_map.
  rewrite Pxyz, pixels3_tmap, !map_map.
  apply map_ext. intros [[r g] b].
  unfold rgb_to_lab_pixel. cbn [fst snd].
  destruct (matvec m (to_linear r, to_linear g, to_linear b)) as [[X Y] Z].
  cbn [fst snd].
  assert (EF : forall v, F v = lab_f v).
  { intros v. unfold F, lab_f, clamp_min, threshold. norm_lit.
    destruct (ltb _ v) eqn:Hlt; [|reflexivity].
    now rewrite (ltb_asym _ _ Hlt). }
  rewrite !EF. norm_lit. reflexivity.
Qed.

(** C1.  On a 3-channel tensor [rgb_to_lab] returns a tensor of the same
    shape whose pixels are the Lab conversions of the input's pixels:
    linear RGB by the gamma codec, XYZ by the forward matrix, division by
    the D65 white point (0.95047, 1, 1.08883), the nonlinearity
    [f t = t ^ (1/3)] for [t > 0.008856] and [7.787 * t + 4/29]
    otherwise, then [L = 116 * f y - 16], [a = 500 * (f x - f y)],
    [b = 200 * (f y - f z)], stacked as L, a, b along the channel axis. *)
Theorem rgb_to_lab_per_pixel (m : mat3) (t : Tensor A) lead h w :
  shape t = lead ++ [3; h; w] -> wf t ->
  exists out,
    rgb_to_lab m t = Ok out /\
    shape out = lead ++ [3; h; w] /\ wf out /\
    pixels3 out = map (rgb_to_lab_pixel m) (pixels3 t).
Proof.
  intros Hs Hwf.
  destruct (rgb_to_lab_chw m (wf_chw Hs Hwf)) as (out & E & Ho & P).
  exists out. split; [exact E|]. split; [exact (proj1 Ho)|].
  split; [exact (chw_wf Ho)|exact P].
Qed.

Lemma lab_to_rgb_chw (m : mat3) (clip : bool) {t : Tensor A} {lead h w} :
  chw t lead 3 h w ->
  exists out,
    lab_to_rgb m t clip = Ok out /\ chw out lead 3 h w /\
    pixels3 out = map (lab_to_rgb_pixel m clip) (pixels3 t).
Proof.
  intros H. pose proof (proj1 H) as Hs.
  unfold lab_to_rgb. rewrite (bad_channels_chw 3 Hs).
  cbn [Nat.eqb negb bind].
  destruct (select_m3_chw 0 H) as (L & -> & HL & DL); [lia|].
  destruct (select_m3_chw 1 H) as (a & -> & Ha & Da); [lia|].
  destruct (select_m3_chw 2 H) as (b & -> & Hb & Db); [lia|].
  cbn [bind].
  match goal with
  | |- context [tzip add (tmap ?f a) (tmap ?g L)] =>
      pose proof (tmap_hw g HL) as Hfy;
      destruct (tzip_hw add (tmap_hw f Ha) Hfy) as (fx & -> & Hfx & Dfx)
  end.
  cbn [bind].
  match goal with
  | |- context [tzip sub _ (tmap ?f b)] =>
      destruct (tzip_hw sub Hfy (tmap_hw f Hb)) as (fz & -> & Hfz & Dfz)
  end.
  cbn [bind].
  destruct (stack_m3_hw Hfx Hfy (tmap_hw (clamp_min (lit 0.0%Q)) Hfz))
    as (fxyz & -> & Hf & E0 & E1 & E2).
  cbn [bind]. rewrite twhere_tmap. cbn [bind].
  match goal with
  | |- context [tmap ?f fxyz] => set (G := f)
  end.
  pose proof (tmap_chw G Hf) as Hxyz.
  change (shape (tmap G fxyz)) with (shape fxyz). rewrite (proj1 Hf).
  unfold xyz_ref_white.
  destruct (expand_c11_chw (lit 0.95047%Q) (lit 1.0%Q) (lit 1.08883%Q) lead h w)
    as (white & -> & Hwhite & W0 & W1 & W2).
  cbn [bind].
  destruct (tzip_chw mul Hxyz Hwhite) as (xyz_im & -> & Him & _ & Cim).
  cbn [bind]. unfold xyz_to_rgb.
  destruct (apply_matrix_chw m Him) as (rgbs & -> & Hrgbs & Prgbs).
  cbn [bind]. unfold linear_rgb_to_rgb.
  pose proof (tmap_chw to_encoded Hrgbs) as Henc.
  eexists. split; [reflexivity|].
  assert (Pim : pixels3 xyz_im
                = map (fun px : A * A * A =>
                         let '(L, a, b) := px in
                         let fy := div (add L (lit 16%Q)) (lit 116%Q) in
                         let fx := add (div a (lit 500%Q)) fy in
                         let fz := clamp_min (lit 0%Q)
                                     (sub fy (div b (lit 200%Q))) in
                         (mul (lab_finv fx) (lit 0.95047%Q),
                          mul (lab_finv fy) (lit 1%Q),
                          mul (lab_finv fz) (lit 1.08883%Q)))
                      (pixels3 t)).
  { unfold pixels3 at 1. rewrite !Cim, W0, W1, W2.
    rewrite !(zipWith_channel_repeat mul _ _ Hxyz) by lia.
    rewrite !channel_tmap, E0, E1, E2. cbn [tmap data].
    rewrite Dfx, Dfz. cbn [tmap data]. rewrite DL, Da, Db.
    destruct (pixels3_channels H) as (X0 & X1 & X2).
    rewrite X0, X1, X2, !map_map, !zipWith_map_same, !map_map, zip3_map.
    apply map_ext. intros [[l a'] b']. cbn [fst snd].
    assert (EG : forall v, G v = lab_finv v).
    { intros v. unfold G, lab_finv. norm_lit. reflexivity. }
    rewrite !EG. norm_lit. reflexivity. }
  destruct clip.
  - split.
    + exact (tmap_chw _ Henc).
    + rewrite !pixels3_tmap, Prgbs, Pim, !map_map.
      apply map_ext. intros [[l a'] b']. unfold lab_to_rgb_pixel.
      cbv zeta. destruct (matvec m _) as [[r' g'] b'']. cbn [fst snd].
      norm_lit. reflexivity.
  - split.
    + exact Henc.
    + rewrite !pixels3_tmap, Prgbs, Pim, !map_map.
      apply map_ext. intros [[l a'] b']. unfold lab_to_rgb_pixel.
      cbv zeta. destruct (matvec m _) as [[r' g'] b'']. cbn [fst snd].
      reflexivity.
Qed.

(** *** The clamps *)

Lemma ltb_irrefl (x : A) : ltb x x = false.
Proof.
  destruct (ltb x x) eqn:E; [|reflexivity].
  pose proof (ltb_asym _ _ E). congruence.
Qed.

(** A clamped value is neither below the minimum nor above the maximum. *)
Lemma clamp_bounds (lo hi x : A) :
  ltb lo hi = true ->
  ltb (clamp lo hi x) lo = false /\ ltb hi (clamp lo hi x) = false.
Proof.
  intros H. pose proof (ltb_asym _ _ H) as H'.
  unfold clamp, clamp_min.
  destruct (ltb x lo) eqn:E1.
  - rewrite H'. split; [apply ltb_irrefl|exact H'].
  - destruct (ltb hi x) eqn:E2.
    + split; [exact H'|apply ltb_irrefl].
    + split; [exact E1|exact E2].
Qed.

(** [lab_to_rgb] with [clip] is [lab_to_rgb] without, clamped. *)
Lemma lab_to_rgb_clip_raw (m : mat3) (t : Tensor A) :
  lab_to_rgb m t true
  = (raw <- lab_to_rgb m t false ;;
     Ok (tmap (clamp (lit 0.0%Q) (lit 1.0%Q)) raw)).
Proof.
  unfold lab_to_rgb.
  repeat match goal with
         | |- bind ?x _ = bind (bind ?x _) _ =>
             destruct x; cbn [bind]; [|reflexivity]
         | |- (if ?b then _ else _) = bind (if ?b then _ else _) _ =>
             destruct b; cbn [bind]; [reflexivity|]
         end.
  reflexivity.
Qed.

(** The formula in the spec's words is the one the converter computes. *)
Lemma lab_to_rgb_formula_pixel (m : mat3) (clip : bool) (px : A * A * A) :
  lab_to_rgb_formula m clip px = lab_to_rgb_pixel m clip px.
Proof.
  destruct px as [[L a] b]. unfold lab_to_rgb_formula, lab_to_rgb_pixel.
  unfold lab_fz, clipped, clamp, clamp_min. reflexivity.
Qed.

(** C2.  On a 3-channel tensor [lab_to_rgb] returns a tensor of the same
    shape whose pixels are the RGB conversions of the input's pixels:
    [fy = (L + 16) / 116], [fx = a / 500 + fy], [fz = fy - b / 200]
    replaced by 0 where it is below 0, so that [fz] is never below 0, the
    inverse nonlinearity [f ^ 3] for [f > 0.2068966] and
    [(f - 4/29) / 7.787] otherwise, multiplication by the D65 white
    point, the inverse matrix and the gamma encoding; when [clip] is false
    the encoded value is the result, and when [clip] is true the result
    is the encoded value with 0 in place of a value below 0 and 1 in
    place of a value above 1, so that no element of the result is below
    0 or above 1. *)
Theorem lab_to_rgb_per_pixel (m : mat3) (clip : bool) (t : Tensor A) lead h w :
  shape t = lead ++ [3; h; w] -> wf t ->
  exists out,
    lab_to_rgb m t clip = Ok out /\
    shape out = lead ++ [3; h; w] /\ wf out /\
    pixels3 out = map (lab_to_rgb_formula m clip) (pixels3 t) /\
    (forall L b, ltb (lab_fz L b) (lit 0%Q) = false) /\
    (clip = true -> ltb (lit 0%Q) (lit 1%Q) = true ->
     Forall (fun v => ltb v (lit 0%Q) = false /\ ltb (lit 1%Q) v = false)
            (data out)).
Proof.
  intros Hs Hwf.
  destruct (lab_to_rgb_chw m clip (wf_chw Hs Hwf)) as (out & E & Ho & P).
  exists out. split; [exact E|]. split; [exact (proj1 Ho)|].
  split; [exact (chw_wf Ho)|]. split; [|split].
  - rewrite P. apply map_ext. intros px.
    symmetry. apply lab_to_rgb_formula_pixel.
  - intros L b. unfold lab_fz. cbv zeta.
    match goal with
    | |- context [if ltb ?x ?y then _ else _] => destruct (ltb x y) eqn:Ez
    end; [apply ltb_irrefl|exact Ez].
  - intros -> H01. rewrite lab_to_rgb_clip_raw in E.
    destruct (lab_to_rgb m t false) as [raw|e]; [|discriminate].
    cbn [bind] in E. injection E as <-. cbn [tmap data].
    apply Forall_forall. intros v Hin.
    apply in_map_iff in Hin as (u & <- & _).
    rewrite (lit_Qeq 0.0%Q 0%Q), (lit_Qeq 1.0%Q 1%Q) by reflexivity.
    now apply clamp_bounds.
Qed.

End LabFacts.

(** ** The round trip RGB to Lab to RGB, over the real numbers *)

Section RoundTrip.
Open Scope R_scope.

(** *** Comparisons and powers *)

Lemma Rltb_true x y : Rltb x y = true <-> x < y.
Proof. unfold Rltb. destruct (Rlt_dec x y); split; auto; discriminate. Qed.
Lemma Rltb_false x y : Rltb x y = false <-> y <= x.
Proof. unfold Rltb. destruct (Rlt_dec x y); split; auto; try discriminate; lra. Qed.

(** The operations of the classes, read at the real numbers. *)
Ltac real_ops :=
  cbn [ltb lit add mul sub div pow R_Scalar R_FloatScalar];
  cbv [Q2R Qnum Qden Qdiv Qmult Qinv Qplus Qminus Qopp Z.mul Z.add Pos.mul Pos.add].

Ltac case_ltb :=
  match goal with
  | |- context [Rltb ?x ?y] =>
      let H := fresh "Hlt" in
      destruct (Rltb x y) eqn:H;
      [apply Rltb_true in H | apply Rltb_false in H]
  end.

Lemma Rpower_pos x y : 0 < Rpower x y.
Proof. unfold Rpower. apply exp_pos. Qed.

Lemma Rpower_inv_exp (x a b : R) :
  0 < x -> a * b = 1 -> Rpower (Rpower x a) b = x.
Proof. intros Hx Hab. rewrite Rpower_mult, Hab. now apply Rpower_1. Qed.

Lemma Rpower_3 x : 0 < x -> Rpower x 3 = x * x * x.
Proof.
  intros Hx. replace 3 with (INR 3) by (simpl; lra). rewrite Rpower_pow by assumption. simpl. lra.
Qed.

Lemma cube_le (a b : R) : 0 <= a -> a <= b -> a * a * a <= b * b * b.
Proof.
  intros Ha Hab.
  assert (a * a <= b * b) by (apply Rmult_le_compat; lra).
  apply Rmult_le_compat; try lra. apply Rmult_le_pos; lra.
Qed.

(** *** The Lab nonlinearity and its inverse

    The two thresholds do not meet exactly: [0.2068966 ^ 3] is a little
    above [0.008856], so that for [t] between the two the inverse takes the
    linear branch on a cube root.  The value it returns is within 1e-6 of
    [t] all the same; for every other [t >= 0] it is [t]. *)

Lemma lab_f_pos (t : R) : 0 <= t -> 0 < lab_f t.
Proof.
  intros Ht. unfold lab_f. real_ops. case_ltb.
  - apply Rpower_pos.
  - lra.
Qed.

Lemma lab_finv_f (t : R) :
  0 <= t -> t - 1 / 1000000 <= lab_finv (lab_f t) <= t + 1 / 1000000.
Proof.
  intros Ht. unfold lab_f, lab_finv. real_ops.
  destruct (Rltb (8856 * / 1000000) t) eqn:H1;
    [apply Rltb_true in H1 | apply Rltb_false in H1].
  - set (c := Rpower t (1 * / 3)).
    assert (Hc : 0 < c) by apply Rpower_pos.
    assert (Ec : c * c * c = t).
    { rewrite <- Rpower_3 by assumption. unfold c. apply Rpower_inv_exp; lra. }
    case_ltb.
    + replace (3 * / 1) with 3 by lra. rewrite Rpower_3, Ec by assumption.
      lra.
    + assert (Hlo : 20689 / 100000 < c).
      { apply Rnot_le_lt. intros Hle.
        pose proof (cube_le c (20689 / 100000) ltac:(lra) Hle). lra. }
      rewrite <- Ec. split.
      * pose proof (cube_le c (2068966 / 10000000) ltac:(lra) Hlt). lra.
      * pose proof (cube_le (20689 / 100000) c ltac:(lra) ltac:(lra)). lra.
  - case_ltb; [lra|].
    replace ((7787 * / 1000 * t + 4 * / 29 - 4 * / 29) / (7787 * / 1000))
      with t by (field; lra).
    lra.
Qed.

(** *** Powers with rational exponents

    [b <= a ^ (n / m)] follows from [b ^ m <= a ^ n], an inequality of
    rational numbers when [a] and [b] are. *)

Lemma Rpower_ge_num (a b : R) (n m : nat) :
  0 < a -> 0 < b -> (0 < m)%nat -> b ^ m <= a ^ n ->
  b <= Rpower a (INR n / INR m).
Proof.
  intros Ha Hb Hm H.
  assert (Hm' : 0 < INR m) by (apply lt_0_INR; exact Hm).
  rewrite <- (Rpower_inv_exp b (INR m) (/ INR m)) at 1; [|exact Hb|field; lra].
  unfold Rdiv. rewrite <- Rpower_mult, !Rpower_pow by assumption.
  apply Rle_Rpower_l.
  - left. now apply Rinv_0_lt_compat.
  - split; [now apply pow_lt|exact H].
Qed.

Lemma Rpower_le_num (a b : R) (n m : nat) :
  0 < a -> 0 < b -> (0 < m)%nat -> a ^ n <= b ^ m ->
  Rpower a (INR n / INR m) <= b.
Proof.
  intros Ha Hb Hm H.
  assert (Hm' : 0 < INR m) by (apply lt_0_INR; exact Hm).
  rewrite <- (Rpower_inv_exp b (INR m) (/ INR m)) at 1; [|exact Hb|field; lra].
  unfold Rdiv. rewrite <- Rpower_mult, !Rpower_pow by assumption.
  apply Rle_Rpower_l.
  - left. now apply Rinv_0_lt_compat.
  - split; [now apply pow_lt|exact H].
Qed.

Lemma e24_frac : e24 = INR 12 / INR 5.
Proof. unfold e24. simpl. lra. Qed.

Lemma Rpower_mono (e x y : R) :
  0 <= e -> 0 < x -> x <= y -> Rpower x e <= Rpower y e.
Proof. intros. apply Rle_Rpower_l; lra. Qed.

Lemma enc_dec (s : R) : 0 < s -> Rpower (Rpower s e24) e24i = s.
Proof. intros. apply Rpower_inv_exp; [assumption|unfold e24, e24i; lra]. Qed.

Lemma root_le (u s : R) :
  0 < u -> 0 < s -> u <= Rpower s e24 -> Rpower u e24i <= s.
Proof.
  intros Hu Hs H. rewrite <- (enc_dec s Hs).
  apply Rpower_mono; [unfold e24i; lra|assumption|assumption].
Qed.

Lemma root_ge (u s : R) :
  0 < u -> 0 < s -> Rpower s e24 <= u -> s <= Rpower u e24i.
Proof.
  intros Hu Hs H. rewrite <- (enc_dec s Hs) at 1.
  apply Rpower_mono; [unfold e24i; lra|apply Rpower_pos|assumption].
Qed.

(** [s ^ 2.4] grows by at least [2 * d * s ^ 1.4] from [s] to [s + d]. *)
Lemma Rpower_growth (s d : R) :
  0 < s -> 0 <= d ->
  Rpower s e24 + 2 * d * Rpower s (INR 7 / INR 5) <= Rpower (s + d) e24.
Proof.
  intros Hs Hd.
  assert (E : s + d = s * (1 + d / s)) by (field; lra).
  assert (Hx : 0 <= d / s)
    by (apply Rmult_le_pos; [lra|left; now apply Rinv_0_lt_compat]).
  rewrite E, <- Rpower_mult_distr by lra.
  assert (H2 : 1 + 2 * (d / s) <= Rpower (1 + d / s) e24).
  { apply Rle_trans with (Rpower (1 + d / s) (INR 2)).
    - rewrite Rpower_pow by lra. simpl. nra.
    - apply Rle_Rpower; [lra|unfold e24; simpl; lra]. }
  assert (E7 : Rpower s (INR 7 / INR 5) = Rpower s e24 * / s).
  { replace (INR 7 / INR 5) with (e24 + Ropp 1) by (unfold e24; simpl; lra).
    rewrite Rpower_plus, Rpower_Ropp, Rpower_1 by assumption. reflexivity. }
  rewrite E7.
  pose proof (Rpower_pos s e24) as Hp.
  replace (Rpower s e24 + 2 * d * (Rpower s e24 * / s))
    with (Rpower s e24 * (1 + 2 * (d / s))) by (field; lra).
  apply Rmult_le_compat_l; lra.
Qed.

(** *** The gamma codec *)

Lemma to_linear_R (c : R) :
  to_linear c = if Rltb (4045 / 100000) c
                then Rpower ((c + 55 / 1000) / (1055 / 1000)) e24
                else c / (1292 / 100).
Proof. unfold to_linear. real_ops. reflexivity. Qed.

Lemma to_encoded_R (u : R) :
  to_encoded u = if Rltb (31308 / 10000000) u
                 then 1055 / 1000 * Rpower u e24i - 55 / 1000
                 else 1292 / 100 * u.
Proof. unfold to_encoded. real_ops. reflexivity. Qed.

Lemma clamp01_R (v : R) :
  clamp (lit 0%Q) (lit 1%Q) v
  = if Rltb 1 (if Rltb v 0 then 0 else v) then 1
    else if Rltb v 0 then 0 else v.
Proof.
  unfold clamp, clamp_min. real_ops.
  replace (0 * / 1) with 0 by lra. replace (1 * / 1) with 1 by lra. reflexivity.
Qed.

Lemma clamp01_close (c v tol : R) :
  0 <= c <= 1 -> 0 <= tol -> c - tol <= v <= c + tol ->
  c - tol <= clamp (lit 0%Q) (lit 1%Q) v <= c + tol.
Proof.
  intros Hc Ht Hv. rewrite clamp01_R.
  destruct (Rltb v 0) eqn:H0; [apply Rltb_true in H0|apply Rltb_false in H0];
    case_ltb; lra.
Qed.

Lemma to_linear_range (c : R) : 0 <= c <= 1 -> 0 <= to_linear c <= 1.
Proof.
  intros Hc. rewrite to_linear_R. case_ltb.
  - split; [left; apply Rpower_pos|].
    assert (E1 : Rpower 1 e24 = 1)
      by (unfold Rpower; rewrite ln_1, Rmult_0_r; apply exp_0).
    rewrite <- E1. apply Rpower_mono; [unfold e24; lra|lra|lra].
  - lra.
Qed.

Lemma Rpower_num_ge (a b : R) :
  0 < a -> 0 < b -> b ^ 5 <= a ^ 12 -> b <= Rpower a e24.
Proof. intros. rewrite e24_frac. apply Rpower_ge_num; auto with arith. Qed.

Lemma Rpower_num_le (a b : R) :
  0 < a -> 0 < b -> a ^ 12 <= b ^ 5 -> Rpower a e24 <= b.
Proof. intros. rewrite e24_frac. apply Rpower_le_num; auto with arith. Qed.

(** Encoding a value within 2e-5 of the linear value of [c] gives a value
    within 1e-3 of [c].  The two branches of the codec do not meet exactly
    either, so each combination of branches has its own bound. *)
Lemma encode_close (c u : R) :
  0 <= c <= 1 -> to_linear c - 2 / 100000 <= u <= to_linear c + 2 / 100000 ->
  c - 1 / 1000 <= to_encoded u <= c + 1 / 1000.
Proof.
  intros Hc Hu.
  rewrite to_linear_R in Hu. rewrite to_encoded_R.
  assert (G7 : 3 / 100 <= Rpower (895 / 10000) (INR 7 / INR 5))
    by (apply Rpower_ge_num; [lra|lra|lia|simpl; lra]).
  assert (N1 : 313 / 100000 <= Rpower (9047 / 100000) e24)
    by (apply Rpower_num_ge; [lra|lra|simpl; lra]).
  assert (N2 : 31509 / 10000000 <= Rpower (908 / 10000) e24)
    by (apply Rpower_num_ge; [lra|lra|simpl; lra]).
  assert (N3 : 31509 / 10000000 <= Rpower (911 / 10000) e24)
    by (apply Rpower_num_ge; [lra|lra|simpl; lra]).
  assert (N4 : Rpower (8953 / 100000) e24 <= 31308 / 10000000)
    by (apply Rpower_num_le; [lra|lra|simpl; lra]).
  assert (He : 0 <= e24) by (unfold e24; lra).
  destruct (Rltb (4045 / 100000) c) eqn:HA;
    [apply Rltb_true in HA|apply Rltb_false in HA].
  - (* c in the power branch *)
    set (s0 := (c + 55 / 1000) / (1055 / 1000)) in *.
    assert (Hs0 : 9047 / 100000 <= s0) by (unfold s0; lra).
    assert (Es0 : c = 1055 / 1000 * s0 - 55 / 1000) by (unfold s0; field).
    pose proof (Rpower_mono e24 (9047 / 100000) s0 He ltac:(lra) Hs0) as HL.
    case_ltb.
    + (* u in the power branch *)
      assert (Hu0 : 0 < u) by lra.
      split.
      * pose proof (Rpower_growth (s0 - 1 / 1055) (1 / 1055)
                      ltac:(lra) ltac:(lra)) as Hg.
        replace (s0 - 1 / 1055 + 1 / 1055) with s0 in Hg by lra.
        pose proof (Rpower_mono (INR 7 / INR 5) (895 / 10000) (s0 - 1 / 1055)
                      ltac:(simpl; lra) ltac:(lra) ltac:(lra)) as H7.
        pose proof (root_ge u (s0 - 1 / 1055) Hu0 ltac:(lra) ltac:(lra)) as Hr.
        lra.
      * pose proof (Rpower_growth s0 (1 / 1055) ltac:(lra) ltac:(lra)) as Hg.
        pose proof (Rpower_mono (INR 7 / INR 5) (895 / 10000) s0
                      ltac:(simpl; lra) ltac:(lra) ltac:(lra)) as H7.
        pose proof (root_le u (s0 + 1 / 1055) Hu0 ltac:(lra) ltac:(lra)) as Hr.
        lra.
    + (* u in the linear branch *)
      assert (Hs1 : s0 <= 908 / 10000).
      { apply Rnot_lt_le. intros Hgt.
        pose proof (Rpower_mono e24 (908 / 10000) s0 He ltac:(lra) ltac:(lra)).
        lra. }
      lra.
  - (* c in the linear branch *)
    case_ltb.
    + assert (Hu0 : 0 < u) by lra.
      split.
      * set (s := (c - 1 / 1000 + 55 / 1000) / (1055 / 1000)).
        assert (Hs : s <= 8953 / 100000) by (unfold s; lra).
        assert (Hs0 : 0 < s) by (unfold s; lra).
        pose proof (Rpower_mono e24 s (8953 / 100000) He Hs0 Hs) as Hm.
        pose proof (root_ge u s Hu0 Hs0 ltac:(lra)) as Hr.
        unfold s in Hr. lra.
      * set (s := (c + 1 / 1000 + 55 / 1000) / (1055 / 1000)).
        assert (Hs : 911 / 10000 <= s) by (unfold s; lra).
        pose proof (Rpower_mono e24 (911 / 10000) s He ltac:(lra) Hs) as Hm.
        pose proof (root_le u s Hu0 ltac:(lra) ltac:(lra)) as Hr.
        unfold s in Hr. lra.
    + lra.
Qed.

(** *** The two matrices *)

Lemma Qle_bool_R (x y : Q) : Qle_bool x y = true -> Q2R x <= Q2R y.
Proof. intros H. apply Qle_Rle. now apply Qle_bool_iff. Qed.

Lemma Qbetween_R (lo hi x : Q) :
  Qbetween lo hi x = true -> Q2R lo <= Q2R x <= Q2R hi.
Proof.
  unfold Qbetween. intros H. apply andb_prop in H as [H1 H2].
  split; now apply Qle_bool_R.
Qed.

Lemma prod_bound (A D a d : R) :
  - A <= a <= A -> - D <= d <= D -> - (A * D) <= a * d <= A * D.
Proof. intros Ha Hd. nra. Qed.

Lemma dot_R (row : Q * Q * Q) (px : R * R * R) :
  dot row px
  = (let '(m0, m1, m2) := row in
     let '(a, b, c) := px in Q2R m0 * a + Q2R m1 * b + Q2R m2 * c).
Proof. destruct row as [[m0 m1] m2], px as [[a b] c]. reflexivity. Qed.

Lemma row_all_R (lo hi : Q) (row : Q * Q * Q) :
  row_all (Qbetween lo hi) row = true ->
  let '(a, b, c) := row in
  Q2R lo <= Q2R a <= Q2R hi /\ Q2R lo <= Q2R b <= Q2R hi /\
  Q2R lo <= Q2R c <= Q2R hi.
Proof.
  destruct row as [[a b] c]. unfold row_all. intros H.
  apply andb_prop in H as [H Hc]. apply andb_prop in H as [Ha Hb].
  split; [|split]; now apply Qbetween_R.
Qed.

Lemma row_nonneg_R (row : Q * Q * Q) :
  row_all (Qle_bool 0) row = true ->
  let '(a, b, c) := row in 0 <= Q2R a /\ 0 <= Q2R b /\ 0 <= Q2R c.
Proof.
  destruct row as [[a b] c]. unfold row_all. intros H.
  apply andb_prop in H as [H Hc]. apply andb_prop in H as [Ha Hb].
  rewrite <- RMicromega.Q2R_0. split; [|split]; now apply Qle_bool_R.
Qed.

Lemma dot_nonneg (row : Q * Q * Q) (a b c : R) :
  row_all (Qle_bool 0) row = true -> 0 <= a -> 0 <= b -> 0 <= c ->
  0 <= dot row (a, b, c).
Proof.
  intros H Ha Hb Hc. apply row_nonneg_R in H. rewrite dot_R.
  destruct row as [[m0 m1] m2]. destruct H as (H0 & H1 & H2).
  pose proof (Rmult_le_pos _ _ H0 Ha). pose proof (Rmult_le_pos _ _ H1 Hb).
  pose proof (Rmult_le_pos _ _ H2 Hc). lra.
Qed.

(** The inverse matrix takes a pixel within 1.1e-6 of the image of [l] to
    a pixel within 2e-5 of [l]. *)
Lemma inverse_close (m minv : mat3) (l0 l1 l2 x y z : R) :
  approx_inverse (1 / 1000000) minv m = true ->
  mat_bounded 4 minv = true ->
  0 <= l0 <= 1 -> 0 <= l1 <= 1 -> 0 <= l2 <= 1 ->
  close3 (11 / 10000000) (matvec m (l0, l1, l2)) (x, y, z) ->
  close3 (2 / 100000) (l0, l1, l2) (matvec minv (x, y, z)).
Proof.
  destruct m as [[[[m00 m01] m02] [[m10 m11] m12]] [[m20 m21] m22]].
  destruct minv as [[[[a00 a01] a02] [[a10 a11] a12]] [[a20 a21] a22]].
  unfold approx_inverse, mat_bounded, mat_all, mat_mul, mat_sub_id.
  intros HI HB H0 H1 H2.
  apply andb_prop in HI as [HI HI2]. apply andb_prop in HI as [HI0 HI1].
  apply andb_prop in HB as [HB HB2]. apply andb_prop in HB as [HB0 HB1].
  apply row_all_R in HI0, HI1, HI2, HB0, HB1, HB2.
  cbn [matvec]. rewrite !dot_R. unfold close3, Rclose.
  rewrite ?Q2R_minus, ?Q2R_plus, ?Q2R_mult, ?Q2R_opp in *.
  replace (Q2R 1) with 1 in * by (symmetry; apply RMicromega.Q2R_1).
  replace (Q2R (1 / 1000000)) with (1 / 1000000) in *
    by (unfold Q2R; simpl; lra).
  replace (Q2R 4) with 4 in * by (unfold Q2R; simpl; lra).
  intros (Hx & Hy & Hz).
  set (dx := x - (Q2R m00 * l0 + Q2R m01 * l1 + Q2R m02 * l2)) in *.
  set (dy := y - (Q2R m10 * l0 + Q2R m11 * l1 + Q2R m12 * l2)) in *.
  set (dz := z - (Q2R m20 * l0 + Q2R m21 * l1 + Q2R m22 * l2)) in *.
  assert (Dx : - (11 / 10000000) <= dx <= 11 / 10000000) by (unfold dx; lra).
  assert (Dy : - (11 / 10000000) <= dy <= 11 / 10000000) by (unfold dy; lra).
  assert (Dz : - (11 / 10000000) <= dz <= 11 / 10000000) by (unfold dz; lra).
  assert (L0 : - (1) <= l0 <= 1) by lra.
  assert (L1 : - (1) <= l1 <= 1) by lra.
  assert (L2 : - (1) <= l2 <= 1) by lra.
  destruct HI0 as (I00 & I01 & I02), HI1 as (I10 & I11 & I12),
           HI2 as (I20 & I21 & I22).
  destruct HB0 as (B00 & B01 & B02), HB1 as (B10 & B11 & B12),
           HB2 as (B20 & B21 & B22).
  pose proof (prod_bound _ _ _ _ I00 L0). pose proof (prod_bound _ _ _ _ I01 L1).
  pose proof (prod_bound _ _ _ _ I02 L2). pose proof (prod_bound _ _ _ _ I10 L0).
  pose proof (prod_bound _ _ _ _ I11 L1). pose proof (prod_bound _ _ _ _ I12 L2).
  pose proof (prod_bound _ _ _ _ I20 L0). pose proof (prod_bound _ _ _ _ I21 L1).
  pose proof (prod_bound _ _ _ _ I22 L2).
  pose proof (prod_bound _ _ _ _ B00 Dx). pose proof (prod_bound _ _ _ _ B01 Dy).
  pose proof (prod_bound _ _ _ _ B02 Dz). pose proof (prod_bound _ _ _ _ B10 Dx).
  pose proof (prod_bound _ _ _ _ B11 Dy). pose proof (prod_bound _ _ _ _ B12 Dz).
  pose proof (prod_bound _ _ _ _ B20 Dx). pose proof (prod_bound _ _ _ _ B21 Dy).
  pose proof (prod_bound _ _ _ _ B22 Dz).
  unfold dx, dy, dz in *.
  split; [|split]; split; lra.
Qed.

(** *** One pixel, then all *)

Lemma clamp_min0_R (v : R) : 0 <= v -> clamp_min (lit 0%Q) v = v.
Proof.
  intros Hv. unfold clamp_min. real_ops. replace (0 * / 1) with 0 by lra.
  case_ltb; lra.
Qed.

Lemma roundtrip_pixel (m minv : mat3) (r g b : R) :
  mat_nonneg m = true ->
  approx_inverse (1 / 1000000) minv m = true ->
  mat_bounded 4 minv = true ->
  0 <= r <= 1 -> 0 <= g <= 1 -> 0 <= b <= 1 ->
  close3 (1 / 1000) (r, g, b)
         (lab_to_rgb_pixel minv true (rgb_to_lab_pixel m (r, g, b))).
Proof.
  intros HN HI HB Hr Hg Hb.
  pose proof (to_linear_range r Hr) as Lr.
  pose proof (to_linear_range g Hg) as Lg.
  pose proof (to_linear_range b Hb) as Lb.
  pose proof (inverse_close m minv (to_linear r) (to_linear g) (to_linear b))
    as HIC.
  unfold rgb_to_lab_pixel.
  assert (HX : let '(x, y, z) :=
                 matvec m (to_linear r, to_linear g, to_linear b) in
               0 <= x /\ 0 <= y /\ 0 <= z).
  { destruct m as [[row0 row1] row2]. cbn [matvec].
    unfold mat_nonneg, mat_all in HN.
    apply andb_prop in HN as [HN H2]. apply andb_prop in HN as [H0 H1].
    split; [|split]; apply dot_nonneg; tauto. }
  destruct (matvec m (to_linear r, to_linear g, to_linear b)) as [[x y] z].
  destruct HX as (Hx & Hy & Hz).
  set (tx := div x (lit 0.95047%Q)). set (ty := div y (lit 1%Q)).
  set (tz := div z (lit 1.08883%Q)).
  assert (Htx : 0 <= tx /\ x = tx * (95047 / 100000))
    by (unfold tx; real_ops; split; [lra|field]).
  assert (Hty : 0 <= ty /\ y = ty * 1)
    by (unfold ty; real_ops; split; [lra|field]).
  assert (Htz : 0 <= tz /\ z = tz * (108883 / 100000))
    by (unfold tz; real_ops; split; [lra|field]).
  clearbody tx ty tz.
  pose proof (lab_f_pos tx (proj1 Htx)) as Pfx.
  pose proof (lab_f_pos ty (proj1 Hty)) as Pfy.
  pose proof (lab_f_pos tz (proj1 Htz)) as Pfz.
  pose proof (lab_finv_f tx (proj1 Htx)) as Efx.
  pose proof (lab_finv_f ty (proj1 Hty)) as Efy.
  pose proof (lab_finv_f tz (proj1 Htz)) as Efz.
  unfold lab_to_rgb_pixel.
  set (fx := lab_f tx) in *. set (fy := lab_f ty) in *. set (fz := lab_f tz) in *.
  clearbody fx fy fz.
  assert (Ey : div (add (sub (mul (lit 116%Q) fy) (lit 16%Q)) (lit 16%Q))
                   (lit 116%Q) = fy) by (real_ops; field).
  rewrite Ey.
  assert (Ex : add (div (mul (lit 500%Q) (sub fx fy)) (lit 500%Q)) fy = fx)
    by (real_ops; field).
  assert (Ez : sub fy (div (mul (lit 200%Q) (sub fy fz)) (lit 200%Q)) = fz)
    by (real_ops; field).
  rewrite Ex, Ez, clamp_min0_R by lra.
  specialize (HIC (mul (lab_finv fx) (lit 0.95047%Q))
                  (mul (lab_finv fy) (lit 1%Q))
                  (mul (lab_finv fz) (lit 1.08883%Q)) HI HB Lr Lg Lb).
  destruct (matvec minv _) as [[r' g'] b'].
  destruct HIC as (Cr & Cg & Cb).
  { unfold close3, Rclose. real_ops. lra. }
  unfold close3. unfold Rclose in *.
  split; [|split]; apply clamp01_close; try lra; now apply encode_close.
Qed.

(** C3.  Over the real numbers, for a forward matrix without negative
    entry and an inverse matrix with entries within [-4, 4] that inverts
    it up to 1e-6 in every entry: on a 3-channel tensor with all values in
    [0, 1], [lab_to_rgb] with [clip] true of [rgb_to_lab] returns a tensor
    of the same shape every element of which is within 1e-3 of the
    element of the input at the same place. *)
Theorem lab_roundtrip (m minv : mat3) (t : Tensor R) lead h w :
  mat_nonneg m = true ->
  approx_inverse (1 / 1000000) minv m = true ->
  mat_bounded 4 minv = true ->
  shape t = (lead ++ [3; h; w])%nat -> wf t ->
  Forall (fun v => 0 <= v <= 1) (data t) ->
  exists lab out,
    rgb_to_lab m t = Ok lab /\
    lab_to_rgb minv lab true = Ok out /\
    shape out = shape t /\ wf out /\
    Forall2 (Rclose (1 / 1000)) (data t) (data out).
Proof.
  intros HN HI HB Hs Hwf H01. pose proof (wf_chw Hs Hwf) as H.
  destruct (rgb_to_lab_chw m H) as (lab & El & Hl & Pl).
  destruct (lab_to_rgb_chw minv true Hl) as (out & Eo & Ho & Po).
  exists lab, out. split; [exact El|]. split; [exact Eo|].
  split; [now rewrite (proj1 Ho), Hs|]. split; [exact (chw_wf Ho)|].
  rewrite Pl, map_map in Po.
  assert (HP : Forall (fun px => close3 (1 / 1000) px
                         (lab_to_rgb_pixel minv true (rgb_to_lab_pixel m px)))
                      (pixels3 t)).
  { apply Forall_forall. intros [[r g] b] Hin.
    apply In_zip3 in Hin as (Hr & Hg & Hb).
    apply In_channel in Hr, Hg, Hb.
    rewrite Forall_forall in H01.
    apply roundtrip_pixel; auto. }
  destruct (pixels3_channels H) as (T0 & T1 & T2).
  destruct (pixels3_channels Ho) as (O0 & O1 & O2).
  apply (Forall2_channels _ H Ho). intros i Hi.
  destruct i as [|[|[|i]]]; [| | |lia].
  - rewrite T0, O0, Po, map_map. apply Forall2_map_map.
    eapply Forall_impl; [|exact HP]. intros [[r g] b].
    destruct (lab_to_rgb_pixel _ _ _) as [[r' g'] b']. simpl. tauto.
  - rewrite T1, O1, Po, map_map. apply Forall2_map_map.
    eapply Forall_impl; [|exact HP]. intros [[r g] b].
    destruct (lab_to_rgb_pixel _ _ _) as [[r' g'] b']. simpl. tauto.
  - rewrite T2, O2, Po, map_map. apply Forall2_map_map.
    eapply Forall_impl; [|exact HP]. intros [[r g] b].
    destruct (lab_to_rgb_pixel _ _ _) as [[r' g'] b']. simpl. tauto.
Qed.

End RoundTrip.

(** ** Errors and shapes *)

Section GuardFacts.
Context {A : Type} {SA : Scalar A}.

Lemma gray_bad_channels (t : Tensor A) :
  (bad_channels t 1 = Ok true -> grayscale_to_rgb t = Raise ValueError) /\
  (bad_channels t 3 = Ok true ->
   (forall ws, rgb_to_grayscale t ws = Raise ValueError) /\
   bgr_to_grayscale t = Raise ValueError).
Proof.
  split; [|split]; intros; unfold grayscale_to_rgb, rgb_to_grayscale,
    bgr_to_grayscale; now rewrite H.
Qed.

Lemma bgr_to_grayscale_unsupported (t : Tensor A) lead h w :
  shape t = lead ++ [3; h; w] ->
  supported dtype_of = false ->
  rgb_to_grayscale t None = Raise TypeError /\
  bgr_to_grayscale t = Raise TypeError.
Proof.
  intros Hs Hd.
  assert (Hw : default_weights = Raise TypeError)
    by (unfold default_weights; destruct dtype_of; try discriminate; reflexivity).
  split; [now apply rgb_to_grayscale_unsupported with (1 := Hs)|].
  unfold bgr_to_grayscale, bgr_to_rgb, flip_m3.
  rewrite (bad_channels_chw 3 Hs), Hs, split_m3_app.
  cbn [Nat.eqb negb bind].
  now apply rgb_to_grayscale_unsupported with (lead := lead) (h := h) (w := w).
Qed.

Context {FA : FloatScalar A}.

Lemma lab_bad_channels (t : Tensor A) :
  bad_channels t 3 = Ok true ->
  (forall m, rgb_to_lab m t = Raise ValueError) /\
  (forall m clip, lab_to_rgb m t clip = Raise ValueError).
Proof.
  split; intros; unfold rgb_to_lab, lab_to_rgb; now rewrite H.
Qed.

End GuardFacts.

Lemma bad_channels_mismatch {A : Type} (t : Tensor A) lead c h w req :
  shape t = lead ++ [c; h; w] -> c <> req -> bad_channels t req = Ok true.
Proof.
  intros Hs Hc. rewrite (bad_channels_chw req Hs).
  apply Nat.eqb_neq in Hc. now rewrite Hc.
Qed.

(** C8.  A tensor whose channel axis has not the required size, 1 for
    [grayscale_to_rgb] and 3 for the other converters, makes the converter
    raise [ValueError], the shape error, whatever its data, the weights or
    [clip]; a 3-channel tensor of a numeric kind without default weights
    makes [rgb_to_grayscale] without weights and [bgr_to_grayscale] raise
    [TypeError].  The result is the exception alone: it carries no tensor,
    and it is fixed by the shape and the numeric kind. *)
Theorem converters_raise :
  (forall (A : Type) (SA : Scalar A) (t : Tensor A) lead c h w,
     shape t = lead ++ [c; h; w] ->
     (c <> 1 -> grayscale_to_rgb t = Raise ValueError) /\
     (c <> 3 ->
      (forall ws, rgb_to_grayscale t ws = Raise ValueError) /\
      bgr_to_grayscale t = Raise ValueError) /\
     (c = 3 -> supported dtype_of = false ->
      rgb_to_grayscale t None = Raise TypeError /\
      bgr_to_grayscale t = Raise TypeError)) /\
  (forall (A : Type) (SA : Scalar A) (FA : FloatScalar A) (t : Tensor A)
          lead c h w,
     shape t = lead ++ [c; h; w] -> c <> 3 ->
     (forall m, rgb_to_lab m t = Raise ValueError) /\
     (forall m clip, lab_to_rgb m t clip = Raise ValueError)).
Proof.
  split.
  - intros A SA t lead c h w Hs. destruct (gray_bad_channels t) as [G1 G3].
    split; [|split].
    + intros Hc. apply G1. now apply bad_channels_mismatch with (1 := Hs).
    + intros Hc. apply G3. now apply bad_channels_mismatch with (1 := Hs).
    + intros -> Hd. now apply bgr_to_grayscale_unsupported with (1 := Hs).
  - intros A SA FA t lead c h w Hs Hc. apply lab_bad_channels.
    now apply bad_channels_mismatch with (1 := Hs).
Qed.

(** C10.  A tensor with fewer than 3 axes makes every converter raise
    [ValueError], whatever its axes are. *)
Theorem converters_reject_low_dim :
  (forall (A : Type) (SA : Scalar A) (t : Tensor A),
     dim t < 3 ->
     grayscale_to_rgb t = Raise ValueError /\
     (forall ws, rgb_to_grayscale t ws = Raise ValueError) /\
     bgr_to_grayscale t = Raise ValueError) /\
  (forall (A : Type) (SA : Scalar A) (FA : FloatScalar A) (t : Tensor A),
     dim t < 3 ->
     (forall m, rgb_to_lab m t = Raise ValueError) /\
     (forall m clip, lab_to_rgb m t clip = Raise ValueError)).
Proof.
  split.
  - intros A SA t Hd. destruct (gray_bad_channels t) as [G1 G3].
    split; [apply G1|apply G3]; now apply bad_channels_low_dim.
  - intros A SA FA t Hd. apply lab_bad_channels. now apply bad_channels_low_dim.
Qed.

(** C9.  Every converter keeps the leading axes and the two spatial axes
    of its input and changes the size of the channel axis alone: to 3 for
    [grayscale_to_rgb], to 1 for [rgb_to_grayscale] and [bgr_to_grayscale],
    to 3 for [rgb_to_lab] and [lab_to_rgb]. *)
Theorem converters_preserve_axes :
  (forall (A : Type) (SA : Scalar A) (t : Tensor A) lead h w,
     wf t ->
     (shape t = lead ++ [1; h; w] ->
      exists out, grayscale_to_rgb t = Ok out /\ shape out = lead ++ [3; h; w]) /\
     (shape t = lead ++ [3; h; w] ->
      (forall w_r w_g w_b,
         exists out, rgb_to_grayscale t (Some [w_r; w_g; w_b]) = Ok out /\
                     shape out = lead ++ [1; h; w]) /\
      (supported dtype_of = true ->
       (exists out, rgb_to_grayscale t None = Ok out /\
                    shape out = lead ++ [1; h; w]) /\
       (exists out, bgr_to_grayscale t = Ok out /\
                    shape out = lead ++ [1; h; w])))) /\
  (forall (A : Type) (SA : Scalar A) (FA : FloatScalar A) (t : Tensor A)
          lead h w,
     wf t -> shape t = lead ++ [3; h; w] ->
     (forall m, exists out, rgb_to_lab m t = Ok out /\
                            shape out = lead ++ [3; h; w]) /\
     (forall m clip, exists out, lab_to_rgb m t clip = Ok out /\
                                 shape out = lead ++ [3; h; w])).
Proof.
  split.
  - intros A SA t lead h w Hwf. split.
    + intros Hs.
      destruct (grayscale_to_rgb_chw (wf_chw Hs Hwf)) as (out & E & Ho & _).
      exists out. split; [exact E|exact (proj1 Ho)].
    + intros Hs. pose proof (wf_chw Hs Hwf) as H. split.
      * intros w_r w_g w_b. eexists. split.
        { now apply rgb_to_grayscale_weights with (1 := H). }
        reflexivity.
      * intros Hd.
        assert (Hw : exists w_r w_g w_b, default_weights = Ok [w_r; w_g; w_b]).
        { unfold default_weights. destruct dtype_of; try discriminate; eauto. }
        destruct Hw as (w_r & w_g & w_b & Hw). split.
        -- eexists. split.
           { exact (rgb_to_grayscale_weights t None w_r w_g w_b H Hw). }
           reflexivity.
        -- destruct (bgr_to_grayscale_flip H) as (x & _ & Hx & _ & ->).
           eexists. split.
           { exact (rgb_to_grayscale_weights x None w_r w_g w_b Hx Hw). }
           reflexivity.
  - intros A SA FA t lead h w Hwf Hs. pose proof (wf_chw Hs Hwf) as H. split.
    + intros m. destruct (rgb_to_lab_chw m H) as (out & E & Ho & _).
      exists out. split; [exact E|exact (proj1 Ho)].
    + intros m clip. destruct (lab_to_rgb_chw m clip H) as (out & E & Ho & _).
      exists out. split; [exact E|exact (proj1 Ho)].
Qed.

(** ** Tensors and their pixels *)

Lemma tensor_eq {A : Type} (t t' : Tensor A) :
  shape t = shape t' -> data t = data t' -> t = t'.
Proof. destruct t, t'. simpl. now intros -> ->. Qed.

Lemma length_nil {X : Type} (l : list X) : length l = 0 -> l = [].
Proof. destruct l; [reflexivity|discriminate]. Qed.

(** The channels of a tensor depend on its leading axes through their
    product and on its spatial axes through theirs. *)
Lemma channel_layout {A : Type} {t t' : Tensor A} {lead lead' c h w h' w'}
    (i : nat) :
  shape t = lead ++ [c; h; w] -> shape t' = lead' ++ [c; h'; w'] ->
  numel lead = numel lead' -> h * w = h' * w' -> data t = data t' ->
  channel t i = channel t' i.
Proof.
  intros Hs Hs' Hl Hp Hd.
  rewrite (channel_chw i Hs), (channel_chw i Hs'), !chan_data_eq.
  now rewrite Hl, Hp, Hd.
Qed.

Lemma pixels3_layout {A : Type} {t t' : Tensor A} {lead lead' c h w h' w'} :
  shape t = lead ++ [c; h; w] -> shape t' = lead' ++ [c; h'; w'] ->
  numel lead = numel lead' -> h * w = h' * w' -> data t = data t' ->
  pixels3 t = pixels3 t'.
Proof.
  intros Hs Hs' Hl Hp Hd. unfold pixels3.
  now rewrite !(channel_layout _ Hs Hs' Hl Hp Hd).
Qed.

Lemma chw_layout {A : Type} {t t' : Tensor A} {lead lead' c h w h' w'} :
  shape t = lead ++ [c; h; w] -> shape t' = lead' ++ [c; h'; w'] ->
  numel lead = numel lead' -> h * w = h' * w' -> data t = data t' -> wf t ->
  chw t lead c h w /\ chw t' lead' c h' w'.
Proof.
  intros Hs Hs' Hl Hp Hd Hwf. pose proof (wf_chw Hs Hwf) as H.
  split; [exact H|]. split; [exact Hs'|].
  now rewrite <- Hd, <- Hl, <- Hp, (proj2 H).
Qed.

(** A 3-channel tensor is its pixels. *)
Lemma data_of_pixels3 {A : Type} {t t' : Tensor A} {lead lead' h w h' w'} :
  chw t lead 3 h w -> chw t' lead' 3 h' w' ->
  numel lead = numel lead' -> h * w = h' * w' ->
  pixels3 t = pixels3 t' -> data t = data t'.
Proof.
  intros H H' Hl Hp E.
  destruct (pixels3_channels H) as (C0 & C1 & C2).
  destruct (pixels3_channels H') as (D0 & D1 & D2).
  rewrite (data_of_channels H), (data_of_channels H').
  now rewrite C0, C1, C2, D0, D1, D2, E, Hl, Hp.
Qed.

Lemma chw_empty {A B : Type} {t : Tensor A} {out : Tensor B} {lead c c' h w} :
  chw t lead c h w -> 0 < c -> data t = [] -> chw out lead c' h w ->
  data out = [].
Proof.
  intros (_ & Hn) Hc Hd (_ & Hn'). rewrite Hd in Hn. simpl in Hn.
  apply length_nil. rewrite Hn'.
  assert (numel lead * (h * w) = 0) by nia. nia.
Qed.

Lemma zip3_same {X : Type} (l : list X) :
  zip3 l l l = map (fun v => (v, v, v)) l.
Proof. induction l as [|x l IH]; simpl; [reflexivity|now rewrite IH]. Qed.

Lemma pixels3_replicated {A : Type} {rgb : Tensor A} (d : list A) :
  (forall i, i < 3 -> channel rgb i = d) ->
  pixels3 rgb = map (fun v => (v, v, v)) d.
Proof.
  intros Hc. unfold pixels3.
  rewrite (Hc 0), (Hc 1), (Hc 2) by lia. apply zip3_same.
Qed.

(** ** The grayscale converter with supplied weights *)

Section WeightFacts.
Context {A : Type} {SA : Scalar A}.

Lemma unbind3_length (ws : list A) :
  length ws <> 3 -> unbind3 ws = Raise ValueError.
Proof.
  intros Hn. destruct ws as [|a [|b [|c [|d ws]]]]; try reflexivity.
  now contradiction Hn.
Qed.

Lemma rgb_to_grayscale_unbind (t : Tensor A) lead h w (ws : list A) :
  shape t = lead ++ [3; h; w] -> unbind3 ws = Raise ValueError ->
  rgb_to_grayscale t (Some ws) = Raise ValueError.
Proof.
  intros Hs Hu. unfold rgb_to_grayscale, narrow_m3.
  rewrite (bad_channels_chw 3 Hs), Hs, split_m3_app.
  cbn [Nat.eqb negb bind]. now rewrite Hu.
Qed.

Lemma default_weights_cases :
  (exists w_r w_g w_b : A, default_weights = Ok [w_r; w_g; w_b]) \/
  @default_weights A SA = Raise TypeError.
Proof. unfold default_weights. destruct dtype_of; eauto. Qed.

(** X1.  [rgb_to_grayscale] with three supplied weights returns
    [w_r * R + w_g * G + w_b * B] at every pixel, with the weights as they
    are, on a tensor of any numeric kind: the kinds without default
    weights are accepted, no [TypeError] is raised. *)
Theorem rgb_to_grayscale_supplied (t : Tensor A) lead h w (w_r w_g w_b : A) :
  shape t = lead ++ [3; h; w] -> wf t ->
  rgb_to_grayscale t (Some [w_r; w_g; w_b])
  = Ok (mkTensor (lead ++ [1; h; w]) (map (luma w_r w_g w_b) (pixels3 t))).
Proof.
  intros Hs Hwf.
  exact (rgb_to_grayscale_weights t (Some [w_r; w_g; w_b]) w_r w_g w_b
           (wf_chw Hs Hwf) eq_refl).
Qed.

(** X2.  Supplied weights that are not three make [rgb_to_grayscale]
    raise [ValueError] on a 3-channel tensor: the unpacking of
    [rgb_weights.unbind()] into [w_r, w_g, w_b] fails, nothing is
    broadcast. *)
Theorem rgb_to_grayscale_weights_length (t : Tensor A) lead h w (ws : list A) :
  shape t = lead ++ [3; h; w] -> length ws <> 3 ->
  rgb_to_grayscale t (Some ws) = Raise ValueError.
Proof.
  intros Hs Hn. apply rgb_to_grayscale_unbind with (1 := Hs).
  now apply unbind3_length.
Qed.

End WeightFacts.

(** ** Grayscale to RGB and back *)

Lemma gray_rgb_gray_weights {A : Type} {SA : Scalar A} (t : Tensor A) lead h w
    (ws : option (list A)) (w_r w_g w_b : A) :
  shape t = lead ++ [1; h; w] -> wf t ->
  match ws with
  | None => default_weights
  | Some l => Ok l
  end = Ok [w_r; w_g; w_b] ->
  (rgb <- GrayscaleToRgb.forward t ;;
   RgbToGrayscale.forward (RgbToGrayscale.init ws) rgb)
  = Ok (tmap (fun v => add (add (mul w_r v) (mul w_g v)) (mul w_b v)) t).
Proof.
  intros Hs Hwf Hw. unfold GrayscaleToRgb.forward, RgbToGrayscale.forward.
  destruct (grayscale_to_rgb_chw (wf_chw Hs Hwf)) as (rgb & E & Hrgb & Hc).
  rewrite E. cbn [bind RgbToGrayscale.init RgbToGrayscale.rgb_weights].
  rewrite (rgb_to_grayscale_weights rgb ws w_r w_g w_b Hrgb Hw).
  rewrite (pixels3_replicated (data t) Hc), map_map.
  unfold tmap. now rewrite Hs.
Qed.

(** X3.  [GrayscaleToRgb] followed by [RgbToGrayscale] multiplies every
    element by the three weights and adds up, in the arithmetic of the
    elements: [w_r * v + w_g * v + w_b * v].  On 8-bit tensors, where the
    default weights add up to 255 and the arithmetic is modulo 256, this
    is [255 * v mod 256] with the default weights: an 8-bit image comes
    back changed except for the values 0 and 128. *)
Theorem gray_rgb_gray :
  (forall (A : Type) (SA : Scalar A) (t : Tensor A) lead h w (w_r w_g w_b : A),
     shape t = lead ++ [1; h; w] -> wf t ->
     (rgb <- GrayscaleToRgb.forward t ;;
      RgbToGrayscale.forward (RgbToGrayscale.init (Some [w_r; w_g; w_b])) rgb)
     = Ok (tmap (fun v => add (add (mul w_r v) (mul w_g v)) (mul w_b v)) t)) /\
  (forall (t : Tensor Z) lead h w,
     shape t = lead ++ [1; h; w] -> wf t ->
     (rgb <- GrayscaleToRgb.forward t ;;
      RgbToGrayscale.forward (RgbToGrayscale.init None) rgb)
     = Ok (tmap (fun v => (255 * v) mod 256)%Z t) /\
     forall v, (0 <= v < 256)%Z ->
       ((255 * v) mod 256 = v)%Z <-> (v = 0 \/ v = 128)%Z).
Proof.
  split.
  - intros A SA t lead h w w_r w_g w_b Hs Hwf.
    now apply gray_rgb_gray_weights with (lead := lead) (h := h) (w := w).
  - intros t lead h w Hs Hwf. split.
    + assert (Hw : @default_weights Z _
                   = Ok [lit 76%Q; lit 150%Q; lit 29%Q]) by reflexivity.
      rewrite (gray_rgb_gray_weights t lead h w None _ _ _ Hs Hwf Hw).
      f_equal. unfold tmap. f_equal. apply map_ext. intros v.
      change (luma (lit 76%Q) (lit 150%Q) (lit 29%Q) (v, v, v)
              = ((255 * v) mod 256)%Z).
      rewrite luma_uint8. unfold wrap8, weighted_sum8.
      now replace (76 * v + 150 * v + 29 * v)%Z with (255 * v)%Z by lia.
    + intros v Hv. split.
      * intros H.
        pose proof (Z.div_mod (255 * v) 256 ltac:(lia)) as E.
        rewrite H in E.
        assert (Ev : (v = 128 * (v - 255 * v / 256))%Z) by lia.
        lia.
      * intros [-> | ->]; reflexivity.
Qed.

(** ** BGR against RGB *)

Section BgrFacts.
Context {A : Type} {SA : Scalar A}.

Lemma luma_swap (w_r w_g w_b : A) (px : A * A * A) :
  (forall x y : A, add x y = add y x) ->
  (forall x y z : A, add (add x y) z = add x (add y z)) ->
  luma w_r w_g w_b (swap_rb px) = luma w_b w_g w_r px.
Proof.
  intros Hc Ha. destruct px as [[b g] r]. cbn [swap_rb luma].
  rewrite (Hc (mul w_r r)), Ha, (Hc (mul w_r r)), <- Ha.
  now rewrite (Hc (mul w_g g)).
Qed.

(** X4.  Where the addition of the elements is commutative and
    associative, as it is modulo 256 and over the real numbers,
    [bgr_to_grayscale] is [rgb_to_grayscale] with the default weights in
    reverse order: the blue weight on the first channel and the red weight
    on the third. *)
Theorem bgr_to_grayscale_weights (t : Tensor A) lead h w (w_r w_g w_b : A) :
  (forall x y : A, add x y = add y x) ->
  (forall x y z : A, add (add x y) z = add x (add y z)) ->
  shape t = lead ++ [3; h; w] -> wf t ->
  default_weights = Ok [w_r; w_g; w_b] ->
  bgr_to_grayscale t = rgb_to_grayscale t (Some [w_b; w_g; w_r]) /\
  bgr_to_grayscale t
  = Ok (mkTensor (lead ++ [1; h; w]) (map (luma w_b w_g w_r) (pixels3 t))).
Proof.
  intros Hc Ha Hs Hwf Hw. pose proof (wf_chw Hs Hwf) as H.
  destruct (bgr_to_grayscale_flip H) as (x & _ & Hx & Px & ->).
  rewrite (rgb_to_grayscale_weights x None w_r w_g w_b Hx Hw).
  rewrite (rgb_to_grayscale_weights t (Some [w_b; w_g; w_r]) w_b w_g w_r H
             eq_refl).
  rewrite Px, map_map.
  assert (E : map (fun px => luma w_r w_g w_b (swap_rb px)) (pixels3 t)
              = map (luma w_b w_g w_r) (pixels3 t))
    by (apply map_ext; intros px; now apply luma_swap).
  now rewrite E.
Qed.

(** X5.  On a 3-channel tensor whose first and third channel are equal,
    [bgr_to_grayscale] and [rgb_to_grayscale] without weights give the
    same result, a tensor or an exception; every result of
    [GrayscaleToRgb] is such a tensor, so [BgrToGrayscale] and
    [RgbToGrayscale] agree after it. *)
Theorem bgr_to_grayscale_symmetric :
  (forall (t : Tensor A) lead h w,
     shape t = lead ++ [3; h; w] -> wf t ->
     channel t 0 = channel t 2 ->
     bgr_to_grayscale t = rgb_to_grayscale t None) /\
  (forall (t : Tensor A) lead h w,
     shape t = lead ++ [1; h; w] -> wf t ->
     (rgb <- GrayscaleToRgb.forward t ;; BgrToGrayscale.forward rgb)
     = (rgb <- GrayscaleToRgb.forward t ;;
        RgbToGrayscale.forward (RgbToGrayscale.init None) rgb)).
Proof.
  assert (G : forall (t : Tensor A) lead h w,
            chw t lead 3 h w -> channel t 0 = channel t 2 ->
            bgr_to_grayscale t = rgb_to_grayscale t None).
  { intros t lead h w H E.
    destruct (bgr_to_grayscale_flip H) as (x & Ex & Hx & _ & ->).
    destruct (flip_m3_chw H) as (x' & Ex' & _ & C0 & C1 & C2).
    rewrite Ex in Ex'. injection Ex' as <-.
    f_equal. apply tensor_eq; [now rewrite (proj1 Hx), (proj1 H)|].
    rewrite (data_of_channels Hx), (data_of_channels H).
    now rewrite C0, C1, C2, E. }
  split.
  - intros t lead h w Hs Hwf. apply G with (1 := wf_chw Hs Hwf).
  - intros t lead h w Hs Hwf.
    unfold GrayscaleToRgb.forward, BgrToGrayscale.forward,
      RgbToGrayscale.forward.
    destruct (grayscale_to_rgb_chw (wf_chw Hs Hwf)) as (rgb & E & Hrgb & Hc).
    rewrite E. cbn [bind RgbToGrayscale.init RgbToGrayscale.rgb_weights].
    apply G with (1 := Hrgb). now rewrite !Hc by lia.
Qed.

End BgrFacts.

(** ** The leading and the spatial axes *)

Lemma rgb_to_grayscale_layout {A : Type} {SA : Scalar A} {t t' : Tensor A}
    {lead lead' h w h' w'} (ws : option (list A)) :
  chw t lead 3 h w -> chw t' lead' 3 h' w' ->
  pixels3 t = pixels3 t' ->
  result_data (rgb_to_grayscale t ws) = result_data (rgb_to_grayscale t' ws).
Proof.
  intros H H' E.
  assert (G : forall w_r w_g w_b,
            match ws with
            | None => default_weights
            | Some l => Ok l
            end = Ok [w_r; w_g; w_b] ->
            result_data (rgb_to_grayscale t ws)
            = result_data (rgb_to_grayscale t' ws)).
  { intros w_r w_g w_b Hw.
    rewrite (rgb_to_grayscale_weights t ws w_r w_g w_b H Hw).
    rewrite (rgb_to_grayscale_weights t' ws w_r w_g w_b H' Hw).
    cbn [result_data bind data]. now rewrite E. }
  destruct ws as [l|].
  - destruct (Nat.eq_dec (length l) 3) as [Hn|Hn].
    + destruct l as [|a [|b [|c [|d l]]]]; try discriminate.
      now apply (G a b c).
    + apply unbind3_length in Hn.
      now rewrite (rgb_to_grayscale_unbind t _ _ _ l (proj1 H) Hn),
                  (rgb_to_grayscale_unbind t' _ _ _ l (proj1 H') Hn).
  - destruct default_weights_cases as [(w_r & w_g & w_b & Hw)|Hw].
    + now apply (G w_r w_g w_b).
    + now rewrite (rgb_to_grayscale_unsupported _ _ _ _ (proj1 H) Hw),
                  (rgb_to_grayscale_unsupported _ _ _ _ (proj1 H') Hw).
Qed.

(** X6.  Every converter depends on the shape of its input through the
    product of the leading axes, the channel axis and the product of the
    two spatial axes alone: two tensors with the same elements whose
    shapes agree in these give results with the same elements, or the
    same exception.  Merging or splitting batch axes before a conversion
    changes nothing but the shape of the result. *)
Theorem converters_layout :
  (forall (A : Type) (SA : Scalar A) (t t' : Tensor A) lead lead' c h w h' w',
     shape t = lead ++ [c; h; w] -> shape t' = lead' ++ [c; h'; w'] ->
     numel lead = numel lead' -> h * w = h' * w' -> data t = data t' ->
     wf t ->
     result_data (grayscale_to_rgb t) = result_data (grayscale_to_rgb t') /\
     (forall ws, result_data (rgb_to_grayscale t ws)
                 = result_data (rgb_to_grayscale t' ws)) /\
     result_data (bgr_to_grayscale t) = result_data (bgr_to_grayscale t')) /\
  (forall (A : Type) (SA : Scalar A) (FA : FloatScalar A) (t t' : Tensor A)
          lead lead' c h w h' w',
     shape t = lead ++ [c; h; w] -> shape t' = lead' ++ [c; h'; w'] ->
     numel lead = numel lead' -> h * w = h' * w' -> data t = data t' ->
     wf t ->
     (forall m, result_data (rgb_to_lab m t) = result_data (rgb_to_lab m t')) /\
     (forall m clip, result_data (lab_to_rgb m t clip)
                     = result_data (lab_to_rgb m t' clip))).
Proof.
  split.
  - intros A SA t t' lead lead' c h w h' w' Hs Hs' Hl Hp Hd Hwf.
    destruct (chw_layout Hs Hs' Hl Hp Hd Hwf) as (H & H').
    pose proof (pixels3_layout Hs Hs' Hl Hp Hd) as Px.
    split; [|split].
    + destruct (Nat.eq_dec c 1) as [->|Hc].
      * destruct (grayscale_to_rgb_chw H) as (x & E & Hx & Cx).
        destruct (grayscale_to_rgb_chw H') as (x' & E' & Hx' & Cx').
        rewrite E, E'. cbn [result_data bind]. f_equal.
        rewrite (data_of_channels Hx), (data_of_channels Hx').
        now rewrite !Cx, !Cx', Hl, Hp, Hd by lia.
      * now rewrite (proj1 (gray_bad_channels t)
                      (bad_channels_mismatch t _ _ _ _ 1 Hs Hc)),
                    (proj1 (gray_bad_channels t')
                      (bad_channels_mismatch t' _ _ _ _ 1 Hs' Hc)).
    + intros ws. destruct (Nat.eq_dec c 3) as [->|Hc].
      * now apply (rgb_to_grayscale_layout ws H H').
      * destruct (proj2 (gray_bad_channels t)
                    (bad_channels_mismatch t _ _ _ _ 3 Hs Hc)) as (-> & _).
        destruct (proj2 (gray_bad_channels t')
                    (bad_channels_mismatch t' _ _ _ _ 3 Hs' Hc)) as (-> & _).
        reflexivity.
    + destruct (Nat.eq_dec c 3) as [->|Hc].
      * destruct (bgr_to_grayscale_flip H) as (x & _ & Hx & Ex & ->).
        destruct (bgr_to_grayscale_flip H') as (x' & _ & Hx' & Ex' & ->).
        apply (rgb_to_grayscale_layout None Hx Hx'). now rewrite Ex, Ex', Px.
      * destruct (proj2 (gray_bad_channels t)
                    (bad_channels_mismatch t _ _ _ _ 3 Hs Hc)) as (_ & ->).
        destruct (proj2 (gray_bad_channels t')
                    (bad_channels_mismatch t' _ _ _ _ 3 Hs' Hc)) as (_ & ->).
        reflexivity.
  - intros A SA FA t t' lead lead' c h w h' w' Hs Hs' Hl Hp Hd Hwf.
    destruct (chw_layout Hs Hs' Hl Hp Hd Hwf) as (H & H').
    pose proof (pixels3_layout Hs Hs' Hl Hp Hd) as Px.
    destruct (Nat.eq_dec c 3) as [->|Hc].
    + split.
      * intros m.
        destruct (rgb_to_lab_chw m H) as (x & E & Hx & Ex).
        destruct (rgb_to_lab_chw m H') as (x' & E' & Hx' & Ex').
        rewrite E, E'. cbn [result_data bind]. f_equal.
        apply (data_of_pixels3 Hx Hx' Hl Hp). now rewrite Ex, Ex', Px.
      * intros m clip.
        destruct (lab_to_rgb_chw m clip H) as (x & E & Hx & Ex).
        destruct (lab_to_rgb_chw m clip H') as (x' & E' & Hx' & Ex').
        rewrite E, E'. cbn [result_data bind]. f_equal.
        apply (data_of_pixels3 Hx Hx' Hl Hp). now rewrite Ex, Ex', Px.
    + destruct (lab_bad_channels t (bad_channels_mismatch t _ _ _ _ 3 Hs Hc))
        as (L1 & L2).
      destruct (lab_bad_channels t' (bad_channels_mismatch t' _ _ _ _ 3 Hs' Hc))
        as (L1' & L2').
      split; [intros m; now rewrite L1, L1'|].
      intros m clip. now rewrite L2, L2'.
Qed.

(** ** Batches *)

Lemma chunks_app {X : Type} (k1 k2 n : nat) (a b : list X) :
  length a = k1 * n ->
  chunks (k1 + k2) n (a ++ b) = chunks k1 n a ++ chunks k2 n b.
Proof.
  revert a. induction k1 as [|k1 IH]; intros a Ha.
  - apply length_nil in Ha. now subst.
  - cbn [Nat.add chunks app].
    rewrite <- (firstn_skipn n a) at 1 2. rewrite <- app_assoc.
    assert (Hf : length (firstn n a) = n) by (rewrite length_firstn; simpl in Ha; lia).
    rewrite (firstn_exact n _ _ Hf), (skipn_exact n _ _ Hf).
    f_equal. apply IH. rewrite length_skipn. simpl in Ha. lia.
Qed.

Lemma zip3_app {X : Type} (a b c a' b' c' : list X) :
  length a = length b -> length b = length c ->
  zip3 (a ++ a') (b ++ b') (c ++ c') = zip3 a b c ++ zip3 a' b' c'.
Proof.
  revert b c. induction a as [|x a IH]; intros [|y b] [|z c] H1 H2;
    try discriminate; [reflexivity|].
  simpl. f_equal. apply IH; simpl in *; lia.
Qed.

Section BatchFacts.
Context {A : Type}.

(** [t] holds the leading indices of [t1], then those of [t2]. *)
Lemma channel_app {t t1 t2 : Tensor A} {lead lead1 lead2 c h w} (i : nat) :
  shape t = lead ++ [c; h; w] -> chw t1 lead1 c h w ->
  shape t2 = lead2 ++ [c; h; w] ->
  numel lead = numel lead1 + numel lead2 -> data t = data t1 ++ data t2 ->
  channel t i = channel t1 i ++ channel t2 i.
Proof.
  intros Hs (Hs1 & Hn1) Hs2 Hl Hd.
  rewrite (channel_chw i Hs), (channel_chw i Hs1), (channel_chw i Hs2).
  rewrite !chan_data_eq, Hl, Hd, (chunks_app _ _ _ _ _ Hn1).
  now rewrite map_app, concat_app.
Qed.

Lemma chw_app {t t1 t2 : Tensor A} {lead lead1 lead2 c h w} :
  shape t = lead ++ [c; h; w] -> chw t1 lead1 c h w -> chw t2 lead2 c h w ->
  numel lead = numel lead1 + numel lead2 -> data t = data t1 ++ data t2 ->
  chw t lead c h w.
Proof.
  intros Hs (_ & Hn1) (_ & Hn2) Hl Hd. split; [exact Hs|].
  rewrite Hd, length_app, Hn1, Hn2, Hl. lia.
Qed.

Lemma pixels3_app {t t1 t2 : Tensor A} {lead lead1 lead2 h w} :
  shape t = lead ++ [3; h; w] -> chw t1 lead1 3 h w -> chw t2 lead2 3 h w ->
  numel lead = numel lead1 + numel lead2 -> data t = data t1 ++ data t2 ->
  pixels3 t = pixels3 t1 ++ pixels3 t2.
Proof.
  intros Hs H1 H2 Hl Hd. unfold pixels3.
  rewrite !(channel_app _ Hs H1 (proj1 H2) Hl Hd).
  apply zip3_app; rewrite !(channel_length _ H1); lia.
Qed.

Lemma data_app_of_pixels3 {o o1 o2 : Tensor A} {lead lead1 lead2 h w} :
  chw o lead 3 h w -> chw o1 lead1 3 h w -> chw o2 lead2 3 h w ->
  numel lead = numel lead1 + numel lead2 ->
  pixels3 o = pixels3 o1 ++ pixels3 o2 ->
  data o = data o1 ++ data o2.
Proof.
  intros Ho H1 H2 Hl Hp.
  set (tc := mkTensor ([numel lead] ++ [3; h; w]) (data o1 ++ data o2)).
  assert (Hk : numel [numel lead] = numel lead1 + numel lead2)
    by (simpl; lia).
  assert (Hs : shape tc = [numel lead] ++ [3; h; w]) by reflexivity.
  assert (Hd : data tc = data o1 ++ data o2) by reflexivity.
  pose proof (chw_app Hs H1 H2 Hk Hd) as Hc.
  rewrite <- Hd. clearbody tc.
  apply (data_of_pixels3 Ho Hc); [simpl; lia|reflexivity|].
  now rewrite Hp, (pixels3_app Hs H1 H2 Hk Hd).
Qed.

End BatchFacts.

Lemma rgb_to_grayscale_batch {A : Type} {SA : Scalar A} {t t1 t2 : Tensor A}
    {lead lead1 lead2 h w} (ws : option (list A)) :
  chw t lead 3 h w -> chw t1 lead1 3 h w -> chw t2 lead2 3 h w ->
  pixels3 t = pixels3 t1 ++ pixels3 t2 ->
  result_data (rgb_to_grayscale t ws)
  = (a <- result_data (rgb_to_grayscale t1 ws) ;;
     b <- result_data (rgb_to_grayscale t2 ws) ;; Ok (a ++ b)).
Proof.
  intros H H1 H2 E.
  assert (G : forall w_r w_g w_b,
            match ws with
            | None => default_weights
            | Some l => Ok l
            end = Ok [w_r; w_g; w_b] ->
            result_data (rgb_to_grayscale t ws)
            = (a <- result_data (rgb_to_grayscale t1 ws) ;;
               b <- result_data (rgb_to_grayscale t2 ws) ;; Ok (a ++ b))).
  { intros w_r w_g w_b Hw.
    rewrite (rgb_to_grayscale_weights t ws w_r w_g w_b H Hw).
    rewrite (rgb_to_grayscale_weights t1 ws w_r w_g w_b H1 Hw).
    rewrite (rgb_to_grayscale_weights t2 ws w_r w_g w_b H2 Hw).
    cbn [result_data bind data]. now rewrite E, map_app. }
  destruct ws as [l|].
  - destruct (Nat.eq_dec (length l) 3) as [Hn|Hn].
    + destruct l as [|a [|b [|c [|d l]]]]; try discriminate.
      now apply (G a b c).
    + apply unbind3_length in Hn.
      now rewrite (rgb_to_grayscale_unbind t _ _ _ l (proj1 H) Hn),
                  (rgb_to_grayscale_unbind t1 _ _ _ l (proj1 H1) Hn).
  - destruct default_weights_cases as [(w_r & w_g & w_b & Hw)|Hw].
    + now apply (G w_r w_g w_b).
    + now rewrite (rgb_to_grayscale_unsupported _ _ _ _ (proj1 H) Hw),
                  (rgb_to_grayscale_unsupported _ _ _ _ (proj1 H1) Hw).
Qed.

(** X7.  Every converter works on the leading indices one by one: on a
    tensor that holds the elements of one tensor and then those of
    another, with the same channel and spatial axes, the result holds the
    elements of the result of the first and then those of the second; it
    is an exception if and only if one of these is, and then the same. *)
Theorem converters_batch :
  (forall (A : Type) (SA : Scalar A) (t t1 t2 : Tensor A)
          lead lead1 lead2 c h w,
     shape t = lead ++ [c; h; w] -> shape t1 = lead1 ++ [c; h; w] ->
     shape t2 = lead2 ++ [c; h; w] ->
     numel lead = numel lead1 + numel lead2 ->
     data t = data t1 ++ data t2 -> wf t1 -> wf t2 ->
     result_data (grayscale_to_rgb t)
     = (a <- result_data (grayscale_to_rgb t1) ;;
        b <- result_data (grayscale_to_rgb t2) ;; Ok (a ++ b)) /\
     (forall ws,
        result_data (rgb_to_grayscale t ws)
        = (a <- result_data (rgb_to_grayscale t1 ws) ;;
           b <- result_data (rgb_to_grayscale t2 ws) ;; Ok (a ++ b))) /\
     result_data (bgr_to_grayscale t)
     = (a <- result_data (bgr_to_grayscale t1) ;;
        b <- result_data (bgr_to_grayscale t2) ;; Ok (a ++ b))) /\
  (forall (A : Type) (SA : Scalar A) (FA : FloatScalar A) (t t1 t2 : Tensor A)
          lead lead1 lead2 c h w,
     shape t = lead ++ [c; h; w] -> shape t1 = lead1 ++ [c; h; w] ->
     shape t2 = lead2 ++ [c; h; w] ->
     numel lead = numel lead1 + numel lead2 ->
     data t = data t1 ++ data t2 -> wf t1 -> wf t2 ->
     (forall m,
        result_data (rgb_to_lab m t)
        = (a <- result_data (rgb_to_lab m t1) ;;
           b <- result_data (rgb_to_lab m t2) ;; Ok (a ++ b))) /\
     (forall m clip,
        result_data (lab_to_rgb m t clip)
        = (a <- result_data (lab_to_rgb m t1 clip) ;;
           b <- result_data (lab_to_rgb m t2 clip) ;; Ok (a ++ b)))).
Proof.
  split.
  - intros A SA t t1 t2 lead lead1 lead2 c h w Hs Hs1 Hs2 Hl Hd Hwf1 Hwf2.
    pose proof (wf_chw Hs1 Hwf1) as H1. pose proof (wf_chw Hs2 Hwf2) as H2.
    pose proof (chw_app Hs H1 H2 Hl Hd) as H.
    split; [|split].
    + destruct (Nat.eq_dec c 1) as [->|Hc].
      * destruct (grayscale_to_rgb_chw H) as (x & E & Hx & Cx).
        destruct (grayscale_to_rgb_chw H1) as (x1 & E1 & Hx1 & Cx1).
        destruct (grayscale_to_rgb_chw H2) as (x2 & E2 & Hx2 & Cx2).
        rewrite E, E1, E2. cbn [result_data bind]. f_equal.
        apply (data_app_of_pixels3 Hx Hx1 Hx2 Hl).
        rewrite (pixels3_replicated _ Cx), (pixels3_replicated _ Cx1),
          (pixels3_replicated _ Cx2).
        now rewrite Hd, map_app.
      * now rewrite (proj1 (gray_bad_channels t)
                      (bad_channels_mismatch t _ _ _ _ 1 Hs Hc)),
                    (proj1 (gray_bad_channels t1)
                      (bad_channels_mismatch t1 _ _ _ _ 1 Hs1 Hc)).
    + intros ws. destruct (Nat.eq_dec c 3) as [->|Hc].
      * apply (rgb_to_grayscale_batch ws H H1 H2).
        exact (pixels3_app Hs H1 H2 Hl Hd).
      * destruct (proj2 (gray_bad_channels t)
                    (bad_channels_mismatch t _ _ _ _ 3 Hs Hc)) as (-> & _).
        destruct (proj2 (gray_bad_channels t1)
                    (bad_channels_mismatch t1 _ _ _ _ 3 Hs1 Hc)) as (-> & _).
        reflexivity.
    + destruct (Nat.eq_dec c 3) as [->|Hc].
      * destruct (bgr_to_grayscale_flip H) as (x & _ & Hx & Ex & ->).
        destruct (bgr_to_grayscale_flip H1) as (x1 & _ & Hx1 & Ex1 & ->).
        destruct (bgr_to_grayscale_flip H2) as (x2 & _ & Hx2 & Ex2 & ->).
        apply (rgb_to_grayscale_batch None Hx Hx1 Hx2).
        now rewrite Ex, Ex1, Ex2, (pixels3_app Hs H1 H2 Hl Hd), map_app.
      * destruct (proj2 (gray_bad_channels t)
                    (bad_channels_mismatch t _ _ _ _ 3 Hs Hc)) as (_ & ->).
        destruct (proj2 (gray_bad_channels t1)
                    (bad_channels_mismatch t1 _ _ _ _ 3 Hs1 Hc)) as (_ & ->).
        reflexivity.
  - intros A SA FA t t1 t2 lead lead1 lead2 c h w Hs Hs1 Hs2 Hl Hd Hwf1 Hwf2.
    pose proof (wf_chw Hs1 Hwf1) as H1. pose proof (wf_chw Hs2 Hwf2) as H2.
    pose proof (chw_app Hs H1 H2 Hl Hd) as H.
    destruct (Nat.eq_dec c 3) as [->|Hc].
    + pose proof (pixels3_app Hs H1 H2 Hl Hd) as Px. split.
      * intros m.
        destruct (rgb_to_lab_chw m H) as (x & E & Hx & Ex).
        destruct (rgb_to_lab_chw m H1) as (x1 & E1 & Hx1 & Ex1).
        destruct (rgb_to_lab_chw m H2) as (x2 & E2 & Hx2 & Ex2).
        rewrite E, E1, E2. cbn [result_data bind]. f_equal.
        apply (data_app_of_pixels3 Hx Hx1 Hx2 Hl).
        now rewrite Ex, Ex1, Ex2, Px, map_app.
      * intros m clip.
        destruct (lab_to_rgb_chw m clip H) as (x & E & Hx & Ex).
        destruct (lab_to_rgb_chw m clip H1) as (x1 & E1 & Hx1 & Ex1).
        destruct (lab_to_rgb_chw m clip H2) as (x2 & E2 & Hx2 & Ex2).
        rewrite E, E1, E2. cbn [result_data bind]. f_equal.
        apply (data_app_of_pixels3 Hx Hx1 Hx2 Hl).
        now rewrite Ex, Ex1, Ex2, Px, map_app.
    + destruct (lab_bad_channels t (bad_channels_mismatch t _ _ _ _ 3 Hs Hc))
        as (L1 & L2).
      destruct (lab_bad_channels t1 (bad_channels_mismatch t1 _ _ _ _ 3 Hs1 Hc))
        as (L1' & L2').
      split; [intros m; now rewrite L1, L1'|].
      intros m clip. now rewrite L2, L2'.
Qed.

(** ** Tensors without elements *)

(** X8.  A tensor without elements, one of whose leading or spatial axes
    has size 0, is converted like any other when its channel axis has the
    required size: the result has the shape of the conversion and no
    element; no converter raises on it. *)
Theorem converters_empty :
  (forall (A : Type) (SA : Scalar A) (t : Tensor A) lead h w,
     wf t -> data t = [] ->
     (shape t = lead ++ [1; h; w] ->
      grayscale_to_rgb t = Ok (mkTensor (lead ++ [3; h; w]) [])) /\
     (shape t = lead ++ [3; h; w] ->
      (forall w_r w_g w_b,
         rgb_to_grayscale t (Some [w_r; w_g; w_b])
         = Ok (mkTensor (lead ++ [1; h; w]) [])) /\
      (supported dtype_of = true ->
       rgb_to_grayscale t None = Ok (mkTensor (lead ++ [1; h; w]) []) /\
       bgr_to_grayscale t = Ok (mkTensor (lead ++ [1; h; w]) [])))) /\
  (forall (A : Type) (SA : Scalar A) (FA : FloatScalar A) (t : Tensor A)
          lead h w,
     wf t -> data t = [] -> shape t = lead ++ [3; h; w] ->
     (forall m, rgb_to_lab m t = Ok (mkTensor (lead ++ [3; h; w]) [])) /\
     (forall m clip,
        lab_to_rgb m t clip = Ok (mkTensor (lead ++ [3; h; w]) []))).
Proof.
  split.
  - intros A SA t lead h w Hwf Hd. split.
    + intros Hs. pose proof (wf_chw Hs Hwf) as H.
      destruct (grayscale_to_rgb_chw H) as (out & E & Ho & _).
      rewrite E. f_equal. apply tensor_eq; [exact (proj1 Ho)|].
      exact (chw_empty H ltac:(lia) Hd Ho).
    + intros Hs. pose proof (wf_chw Hs Hwf) as H.
      assert (Hp : pixels3 t = []).
      { apply length_nil. rewrite (pixels3_length H).
        destruct H as (_ & Hn). rewrite Hd in Hn. simpl in Hn. nia. }
      split.
      * intros w_r w_g w_b.
        rewrite (rgb_to_grayscale_weights t (Some [w_r; w_g; w_b])
                   w_r w_g w_b H eq_refl).
        now rewrite Hp.
      * intros Hsup.
        assert (Hw : exists w_r w_g w_b, default_weights = Ok [w_r; w_g; w_b]).
        { unfold default_weights. destruct dtype_of; try discriminate; eauto. }
        destruct Hw as (w_r & w_g & w_b & Hw). split.
        -- rewrite (rgb_to_grayscale_weights t None w_r w_g w_b H Hw).
           now rewrite Hp.
        -- destruct (bgr_to_grayscale_flip H) as (x & _ & Hx & Px & ->).
           rewrite (rgb_to_grayscale_weights x None w_r w_g w_b Hx Hw).
           now rewrite Px, Hp.
  - intros A SA FA t lead h w Hwf Hd Hs. pose proof (wf_chw Hs Hwf) as H.
    split.
    + intros m. destruct (rgb_to_lab_chw m H) as (out & E & Ho & _).
      rewrite E. f_equal. apply tensor_eq; [exact (proj1 Ho)|].
      exact (chw_empty H ltac:(lia) Hd Ho).
    + intros m clip. destruct (lab_to_rgb_chw m clip H) as (out & E & Ho & _).
      rewrite E. f_equal. apply tensor_eq; [exact (proj1 Ho)|].
      exact (chw_empty H ltac:(lia) Hd Ho).
Qed.

(** ** Clipping *)

(** X10.  Where 0 is below 1 in the comparison of the elements, as in
    every floating-point kind: [lab_to_rgb] with [clip] returns the
    result of [lab_to_rgb] without [clip] with 0 in place of every
    element below 0 and 1 in place of every other element above 1; an
    element that is neither below 0 nor above 1 in that comparison is the
    same in both. *)
Theorem lab_to_rgb_clip {A : Type} {SA : Scalar A} {FA : FloatScalar A}
    (m : mat3) (t : Tensor A) lead h w :
  ltb (lit 0%Q) (lit 1%Q) = true ->
  shape t = lead ++ [3; h; w] -> wf t ->
  exists raw out,
    lab_to_rgb m t false = Ok raw /\
    lab_to_rgb m t true = Ok out /\
    shape out = shape raw /\
    Forall2 (fun u v =>
               (ltb u (lit 0%Q) = true -> v = lit 0%Q) /\
               (ltb u (lit 0%Q) = false -> ltb (lit 1%Q) u = true ->
                v = lit 1%Q) /\
               (ltb u (lit 0%Q) = false -> ltb (lit 1%Q) u = false -> v = u))
            (data raw) (data out).
Proof.
  intros H01 Hs Hwf. pose proof (ltb_asym _ _ H01) as H10.
  destruct (lab_to_rgb_chw m false (wf_chw Hs Hwf)) as (raw & E & _ & _).
  exists raw, (tmap (clamp (lit 0.0%Q) (lit 1.0%Q)) raw).
  split; [exact E|]. split; [now rewrite lab_to_rgb_clip_raw, E|].
  split; [reflexivity|]. cbn [tmap data].
  rewrite <- (map_id (data raw)) at 1. apply Forall2_map_map.
  apply Forall_forall. intros u _.
  rewrite (lit_Qeq 0.0%Q 0%Q), (lit_Qeq 1.0%Q 1%Q) by reflexivity.
  unfold clamp, clamp_min, id.
  destruct (ltb u (lit 0%Q)) eqn:E0.
  - rewrite H10. repeat split; intros; congruence.
  - destruct (ltb (lit 1%Q) u) eqn:E1; repeat split; intros; congruence.
Qed.

(** ** The lightness, the two thresholds and the unclipped round trip,
    over the real numbers

    What follows is proved of the formulas over the real numbers.  The
    bounds at the two thresholds are stated with a margin that the
    rounding of a floating-point run stays within. *)

Section RealFacts.
Open Scope R_scope.

Ltac real_ops :=
  cbn [ltb lit add mul sub div pow R_Scalar R_FloatScalar];
  cbv [Q2R Qnum Qden Qdiv Qmult Qinv Qplus Qminus Qopp Z.mul Z.add Pos.mul Pos.add].

Ltac case_ltb :=
  match goal with
  | |- context [Rltb ?x ?y] =>
      let H := fresh "Hlt" in
      destruct (Rltb x y) eqn:H;
      [apply Rltb_true in H | apply Rltb_false in H]
  end.

Lemma Forall_pixels3 (P : R -> Prop) (t : Tensor R) (px : R * R * R) :
  Forall P (data t) -> In px (pixels3 t) ->
  P (fst (fst px)) /\ P (snd (fst px)) /\ P (snd px).
Proof.
  intros HP Hin. destruct px as [[r g] b].
  apply In_zip3 in Hin as (Hr & Hg & Hb).
  apply In_channel in Hr, Hg, Hb.
  rewrite Forall_forall in HP. simpl. auto.
Qed.

(** *** Clipping to [0, 1] *)

Lemma clamp01_cases (u : R) :
  let v := clamp (lit 0.0%Q) (lit 1.0%Q) u in
  0 <= v <= 1 /\ (u < 0 -> v = 0) /\ (0 <= u <= 1 -> v = u) /\ (1 < u -> v = 1).
Proof.
  cbv zeta.
  replace (clamp (lit 0.0%Q) (lit 1.0%Q) u) with (clamp (lit 0%Q) (lit 1%Q) u).
  2:{ f_equal; apply lit_Qeq; reflexivity. }
  rewrite clamp01_R.
  destruct (Rltb u 0) eqn:H0; [apply Rltb_true in H0|apply Rltb_false in H0];
    case_ltb; repeat split; intros; lra.
Qed.

(** *** The lightness *)

Lemma Rpower_1_l (e : R) : Rpower 1 e = 1.
Proof. unfold Rpower. rewrite ln_1, Rmult_0_r. apply exp_0. Qed.

Lemma lab_f_range (t : R) : 0 <= t <= 1 -> 4 / 29 <= lab_f t <= 1.
Proof.
  intros Ht. unfold lab_f. real_ops. case_ltb.
  - replace (1 * / 3) with (INR 1 / INR 3) by (simpl; lra). split.
    + apply Rle_trans with (Rpower (8856 / 1000000) (INR 1 / INR 3)).
      * apply Rpower_ge_num; [lra|lra|lia|simpl; lra].
      * apply Rpower_mono; [simpl; lra|lra|lra].
    + rewrite <- (Rpower_1_l (INR 1 / INR 3)).
      apply Rpower_mono; [simpl; lra|lra|lra].
  - lra.
Qed.

Lemma dot_le_sum (row : Q * Q * Q) (a b c : R) :
  row_all (Qle_bool 0) row = true ->
  0 <= a <= 1 -> 0 <= b <= 1 -> 0 <= c <= 1 ->
  let '(m0, m1, m2) := row in
  dot row (a, b, c) <= Q2R m0 + Q2R m1 + Q2R m2.
Proof.
  intros H Ha Hb Hc. apply row_nonneg_R in H. rewrite dot_R.
  destruct row as [[m0 m1] m2]. destruct H as (H0 & H1 & H2). nra.
Qed.

Lemma lightness_pixel (m : mat3) (r g b : R) :
  mat_nonneg m = true -> luminance_le1 m = true ->
  0 <= r <= 1 -> 0 <= g <= 1 -> 0 <= b <= 1 ->
  0 <= fst (fst (rgb_to_lab_pixel m (r, g, b))) <= 100.
Proof.
  intros HN HL Hr Hg Hb.
  pose proof (to_linear_range r Hr) as Lr.
  pose proof (to_linear_range g Hg) as Lg.
  pose proof (to_linear_range b Hb) as Lb.
  unfold rgb_to_lab_pixel.
  destruct m as [[row0 row1] row2]. cbn [matvec].
  unfold mat_nonneg, mat_all in HN.
  apply andb_prop in HN as [HN _]. apply andb_prop in HN as [_ H1].
  pose proof (dot_nonneg row1 _ _ _ H1 (proj1 Lr) (proj1 Lg) (proj1 Lb)) as Y0.
  pose proof (dot_le_sum row1 _ _ _ H1 Lr Lg Lb) as Y1.
  destruct row1 as [[m10 m11] m12]. cbn [luminance_le1] in HL.
  apply Qle_bool_R in HL. rewrite !Q2R_plus in HL.
  replace (Q2R 1) with 1 in HL by (symmetry; apply RMicromega.Q2R_1).
  set (y := dot (m10, m11, m12) _) in *.
  assert (Hy : 0 <= div y (lit 1%Q) <= 1).
  { real_ops. replace (y / (1 * / 1)) with y by field. lra. }
  pose proof (lab_f_range _ Hy) as Hf.
  set (fy := lab_f _) in *. clearbody fy.
  cbn [fst]. real_ops. lra.
Qed.

(** X11.  Over the real numbers, for a forward matrix without negative
    entry whose luminance row adds up to at most 1: on a 3-channel tensor
    with all values in [0, 1], every element of the first channel of the
    result of [rgb_to_lab], the lightness, lies in [0, 100]. *)
Theorem rgb_to_lab_lightness (m : mat3) (t : Tensor R) lead h w :
  mat_nonneg m = true -> luminance_le1 m = true ->
  shape t = (lead ++ [3; h; w])%nat -> wf t ->
  Forall (fun v => 0 <= v <= 1) (data t) ->
  exists out,
    rgb_to_lab m t = Ok out /\
    Forall (fun L => 0 <= L <= 100) (channel out 0).
Proof.
  intros HN HL Hs Hwf H01.
  destruct (rgb_to_lab_chw m (wf_chw Hs Hwf)) as (out & E & Ho & Po).
  exists out. split; [exact E|].
  rewrite (proj1 (pixels3_channels Ho)), Po, map_map.
  apply Forall_forall. intros L Hin.
  apply in_map_iff in Hin as (px & <- & Hin).
  destruct (Forall_pixels3 _ t px H01 Hin) as (Hr & Hg & Hb).
  destruct px as [[r g] b]. now apply lightness_pixel.
Qed.

(** *** The two thresholds of the Lab nonlinearity *)

Lemma cube_root_cube (t : R) :
  0 < t -> Rpower t (1 * / 3) ^ 3 = t.
Proof.
  intros Ht. rewrite <- Rpower_pow by apply Rpower_pos.
  apply Rpower_inv_exp; [assumption|simpl; lra].
Qed.

Lemma pow3_le (a b : R) : 0 <= a -> a <= b -> a ^ 3 <= b ^ 3.
Proof.
  intros Ha Hab. simpl. rewrite !Rmult_1_r, <- !Rmult_assoc.
  now apply cube_le.
Qed.

Lemma pow3_lt (a b : R) : 0 <= a -> a < b -> a ^ 3 < b ^ 3.
Proof.
  intros Ha Hab. simpl. rewrite !Rmult_1_r.
  assert (a * a <= b * b) by (apply Rmult_le_compat; lra).
  assert (0 < b * b) by (apply Rmult_lt_0_compat; lra).
  apply Rle_lt_trans with (a * (b * b)).
  - apply Rmult_le_compat_l; lra.
  - apply Rmult_lt_compat_r; lra.
Qed.

(** A lower bound of a cube root from a cube. *)
Lemma cube_root_ge (b t : R) :
  0 <= b -> 0 < t -> b ^ 3 <= t -> b <= Rpower t (1 * / 3).
Proof.
  intros Hb Ht H. pose proof (cube_root_cube t Ht) as Ec.
  assert (Hc : 0 < Rpower t (1 * / 3)) by apply Rpower_pos.
  apply Rnot_lt_le. intros Hlt.
  pose proof (pow3_lt _ _ (Rlt_le _ _ Hc) Hlt). lra.
Qed.

(** The line [7.787 t + 4 / 29], raised by 7.787e-8, lies under the cube
    root between the threshold of [rgb_to_lab] and 0.0088564, which is
    below the cube of the threshold of [lab_to_rgb]. *)
Lemma line_under_root (t : R) :
  8856 / 1000000 <= t <= 88564 / 10000000 ->
  (7787 / 1000 * t + 4 / 29 + 7787 / 100000000000) ^ 3 <= t.
Proof.
  intros Ht. set (s := t - 8856 / 1000000).
  assert (Hs : 0 <= s <= 4 / 10000000) by (unfold s; lra).
  assert (H2 : 0 <= s * s <= 16 / 100000000000000) by nra.
  assert (H3 : 0 <= s * s * s <= 1 / 1000000000000) by nra.
  replace t with (8856 / 1000000 + s) by (unfold s; lra).
  clearbody s. clear Ht.
  set (u := 7787 / 1000 * (8856 / 1000000) + 4 / 29 + 7787 / 100000000000).
  assert (E : (7787 / 1000 * (8856 / 1000000 + s) + 4 / 29
               + 7787 / 100000000000) ^ 3
              = u ^ 3 + 3 * u ^ 2 * (7787 / 1000) * s
                + 3 * u * (7787 / 1000) ^ 2 * (s * s)
                + (7787 / 1000) ^ 3 * (s * s * s)) by (unfold u; ring).
  rewrite E. unfold u. simpl. lra.
Qed.

(** X12.  Over the real numbers the two thresholds of the Lab
    nonlinearity do not meet: a value above the threshold 0.008856 of
    [rgb_to_lab] and up to 0.0088564 goes through the cube root there,
    and its cube root is not above the threshold 0.2068966 of
    [lab_to_rgb], which therefore takes its linear branch on a cube
    root.  The value that comes back is greater than the value that went
    in, by at least 1e-8 and at most 1e-6. *)
Theorem lab_thresholds (t : R) :
  8856 / 1000000 < t <= 88564 / 10000000 ->
  ltb (lit 0.008856%Q) t = true /\
  ltb (lit 0.2068966%Q) (pow t (lit (1 / 3)%Q)) = false /\
  lab_finv (lab_f t)
  = div (sub (pow t (lit (1 / 3)%Q)) (lit (4 / 29)%Q)) (lit 7.787%Q) /\
  t + 1 / 100000000 <= lab_finv (lab_f t) <= t + 1 / 1000000.
Proof.
  intros Ht.
  assert (B1 : ltb (lit 0.008856%Q) t = true).
  { real_ops. apply Rltb_true. lra. }
  pose proof (cube_root_cube t ltac:(lra)) as Ec.
  assert (Hc : 0 < Rpower t (1 * / 3)) by apply Rpower_pos.
  assert (B2 : ltb (lit 0.2068966%Q) (pow t (lit (1 / 3)%Q)) = false).
  { real_ops. apply Rltb_false. apply Rnot_lt_le. intros Hlt.
    assert (Hlt' : 2068966 / 10000000 < Rpower t (1 * / 3)) by lra.
    pose proof (pow3_lt (2068966 / 10000000) _ ltac:(lra) Hlt') as Hp.
    simpl in Hp, Ec. lra. }
  assert (E : lab_finv (lab_f t)
              = div (sub (pow t (lit (1 / 3)%Q)) (lit (4 / 29)%Q))
                    (lit 7.787%Q)).
  { unfold lab_f. rewrite B1. unfold lab_finv. now rewrite B2. }
  split; [exact B1|]. split; [exact B2|]. split; [exact E|].
  split; [|apply lab_finv_f; lra].
  rewrite E. real_ops.
  pose proof (line_under_root t ltac:(lra)) as Hl.
  pose proof (cube_root_ge
                (7787 / 1000 * t + 4 / 29 + 7787 / 100000000000) t
                ltac:(lra) ltac:(lra) Hl) as Hlo.
  set (c := Rpower t (1 * / 3)) in *.
  apply Rmult_le_reg_r with (7787 / 1000); [lra|].
  replace ((c - 4 * / 29) / (7787 * / 1000) * (7787 / 1000))
    with (c - 4 / 29) by field.
  lra.
Qed.

Lemma lab_f_le (t1 t2 : R) : t1 <= t2 -> lab_f t1 <= lab_f t2.
Proof.
  intros Ht. unfold lab_f. real_ops.
  destruct (Rltb (8856 * / 1000000) t1) eqn:H1;
    [apply Rltb_true in H1 | apply Rltb_false in H1];
  destruct (Rltb (8856 * / 1000000) t2) eqn:H2;
    [apply Rltb_true in H2 | apply Rltb_false in H2 |
     apply Rltb_true in H2 | apply Rltb_false in H2]; try lra.
  - apply Rpower_mono; lra.
  - apply Rle_trans with (7787 / 1000 * (8856 / 1000000) + 4 / 29); [lra|].
    apply cube_root_ge; [lra|lra|].
    apply Rle_trans with (8856 / 1000000); [simpl; lra|lra].
Qed.

Lemma lab_f_jump (t1 t2 : R) :
  t1 <= 8856 / 1000000 -> 8856 / 1000000 < t2 ->
  lab_f t1 + 2 / 10000000 <= lab_f t2.
Proof.
  intros H1 H2. unfold lab_f. real_ops.
  destruct (Rltb (8856 * / 1000000) t1) eqn:E1;
    [apply Rltb_true in E1; lra | clear E1].
  destruct (Rltb (8856 * / 1000000) t2) eqn:E2;
    [clear E2 | apply Rltb_false in E2; lra].
  apply Rle_trans
    with (7787 / 1000 * (8856 / 1000000) + 4 / 29 + 2 / 10000000); [lra|].
  apply cube_root_ge; [lra|lra|].
  apply Rle_trans with (8856 / 1000000); [simpl; lra|lra].
Qed.

(** X13.  Over the real numbers the nonlinearity of [rgb_to_lab] never
    decreases, across its threshold neither: the linear branch ends below
    the value the cube root starts from, by more than 2e-7.  So of two
    pixels the one with the greater luminance, the second row of the
    forward matrix against the linear values, has no smaller
    lightness. *)
Theorem lab_f_monotone :
  (forall t1 t2 : R, t1 <= t2 -> lab_f t1 <= lab_f t2) /\
  (forall t1 t2 : R,
     t1 <= 8856 / 1000000 -> 8856 / 1000000 < t2 ->
     lab_f t1 + 2 / 10000000 <= lab_f t2) /\
  (forall (row0 row1 row2 : Q * Q * Q) (r g b r' g' b' : R),
     dot row1 (to_linear r, to_linear g, to_linear b)
     <= dot row1 (to_linear r', to_linear g', to_linear b') ->
     fst (fst (rgb_to_lab_pixel (row0, row1, row2) (r, g, b)))
     <= fst (fst (rgb_to_lab_pixel (row0, row1, row2) (r', g', b')))).
Proof.
  split; [exact lab_f_le|]. split; [exact lab_f_jump|].
  intros row0 row1 row2 r g b r' g' b' Hy.
  unfold rgb_to_lab_pixel. cbn [matvec fst].
  set (y := dot row1 (to_linear r, to_linear g, to_linear b)) in *.
  set (y' := dot row1 (to_linear r', to_linear g', to_linear b')) in *.
  clearbody y y'.
  assert (Hd : div y (lit 1%Q) <= div y' (lit 1%Q)).
  { real_ops. replace (y / (1 * / 1)) with y by field.
    now replace (y' / (1 * / 1)) with y' by field. }
  apply lab_f_le in Hd. revert Hd.
  set (f := lab_f _). set (f' := lab_f _). clearbody f f'. intros Hd.
  real_ops. lra.
Qed.

(** *** The round trip without clipping *)

Lemma roundtrip_pixel_raw (m minv : mat3) (r g b : R) :
  mat_nonneg m = true ->
  approx_inverse (1 / 1000000) minv m = true ->
  mat_bounded 4 minv = true ->
  0 <= r <= 1 -> 0 <= g <= 1 -> 0 <= b <= 1 ->
  close3 (1 / 1000) (r, g, b)
         (lab_to_rgb_pixel minv false (rgb_to_lab_pixel m (r, g, b))).
Proof.
  intros HN HI HB Hr Hg Hb.
  pose proof (to_linear_range r Hr) as Lr.
  pose proof (to_linear_range g Hg) as Lg.
  pose proof (to_linear_range b Hb) as Lb.
  pose proof (inverse_close m minv (to_linear r) (to_linear g) (to_linear b))
    as HIC.
  unfold rgb_to_lab_pixel.
  assert (HX : let '(x, y, z) :=
                 matvec m (to_linear r, to_linear g, to_linear b) in
               0 <= x /\ 0 <= y /\ 0 <= z).
  { destruct m as [[row0 row1] row2]. cbn [matvec].
    unfold mat_nonneg, mat_all in HN.
    apply andb_prop in HN as [HN H2]. apply andb_prop in HN as [H0 H1].
    split; [|split]; apply dot_nonneg; tauto. }
  destruct (matvec m (to_linear r, to_linear g, to_linear b)) as [[x y] z].
  destruct HX as (Hx & Hy & Hz).
  set (tx := div x (lit 0.95047%Q)). set (ty := div y (lit 1%Q)).
  set (tz := div z (lit 1.08883%Q)).
  assert (Htx : 0 <= tx /\ x = tx * (95047 / 100000))
    by (unfold tx; real_ops; split; [lra|field]).
  assert (Hty : 0 <= ty /\ y = ty * 1)
    by (unfold ty; real_ops; split; [lra|field]).
  assert (Htz : 0 <= tz /\ z = tz * (108883 / 100000))
    by (unfold tz; real_ops; split; [lra|field]).
  clearbody tx ty tz.
  pose proof (lab_f_pos tx (proj1 Htx)) as Pfx.
  pose proof (lab_f_pos ty (proj1 Hty)) as Pfy.
  pose proof (lab_f_pos tz (proj1 Htz)) as Pfz.
  pose proof (lab_finv_f tx (proj1 Htx)) as Efx.
  pose proof (lab_finv_f ty (proj1 Hty)) as Efy.
  pose proof (lab_finv_f tz (proj1 Htz)) as Efz.
  unfold lab_to_rgb_pixel.
  set (fx := lab_f tx) in *. set (fy := lab_f ty) in *. set (fz := lab_f tz) in *.
  clearbody fx fy fz.
  assert (Ey : div (add (sub (mul (lit 116%Q) fy) (lit 16%Q)) (lit 16%Q))
                   (lit 116%Q) = fy) by (real_ops; field).
  rewrite Ey.
  assert (Ex : add (div (mul (lit 500%Q) (sub fx fy)) (lit 500%Q)) fy = fx)
    by (real_ops; field).
  assert (Ez : sub fy (div (mul (lit 200%Q) (sub fy fz)) (lit 200%Q)) = fz)
    by (real_ops; field).
  rewrite Ex, Ez, clamp_min0_R by lra.
  specialize (HIC (mul (lab_finv fx) (lit 0.95047%Q))
                  (mul (lab_finv fy) (lit 1%Q))
                  (mul (lab_finv fz) (lit 1.08883%Q)) HI HB Lr Lg Lb).
  destruct (matvec minv _) as [[r' g'] b'].
  destruct HIC as (Cr & Cg & Cb).
  { unfold close3, Rclose. real_ops. lra. }
  unfold close3. unfold Rclose in *.
  split; [|split]; now apply encode_close.
Qed.

(** Closeness of the pixels is closeness of the elements. *)
Lemma Forall2_pixels (eps : R) (g : R * R * R -> R * R * R)
    {t out : Tensor R} {lead h w} :
  chw t lead 3 h w -> chw out lead 3 h w ->
  pixels3 out = map g (pixels3 t) ->
  Forall (fun px => close3 eps px (g px)) (pixels3 t) ->
  Forall2 (Rclose eps) (data t) (data out).
Proof.
  intros H Ho Po HP.
  destruct (pixels3_channels H) as (T0 & T1 & T2).
  destruct (pixels3_channels Ho) as (O0 & O1 & O2).
  apply (Forall2_channels _ H Ho). intros i Hi.
  destruct i as [|[|[|i]]]; [| | |lia].
  - rewrite T0, O0, Po, map_map. apply Forall2_map_map.
    eapply Forall_impl; [|exact HP]. intros [[r gg] b].
    destruct (g _) as [[r' g'] b']. simpl. tauto.
  - rewrite T1, O1, Po, map_map. apply Forall2_map_map.
    eapply Forall_impl; [|exact HP]. intros [[r gg] b].
    destruct (g _) as [[r' g'] b']. simpl. tauto.
  - rewrite T2, O2, Po, map_map. apply Forall2_map_map.
    eapply Forall_impl; [|exact HP]. intros [[r gg] b].
    destruct (g _) as [[r' g'] b']. simpl. tauto.
Qed.

Lemma Forall2_close_range (eps : R) (xs ys : list R) (u : R) :
  Forall (fun v => 0 <= v <= 1) xs -> Forall2 (Rclose eps) xs ys ->
  In u ys -> - eps <= u <= 1 + eps.
Proof.
  intros H01 Hc. revert H01.
  induction Hc as [|x y l l' Hxy _ IH]; intros H01 Hu.
  - destruct Hu.
  - inversion H01; subst. destruct Hu as [<-|Hu]; [|now apply IH].
    unfold Rclose in Hxy. lra.
Qed.

(** X14.  Over the real numbers, under the assumptions on the two
    matrices of the round trip: on a 3-channel tensor with all values in
    [0, 1], [LabToRgb] without clipping after [RgbToLab] returns a tensor
    every element of which is within 1e-3 of the element of the input at
    the same place; the round trip does not rest on the clipping, which
    moves no element of it by more than 1e-3. *)
Theorem lab_roundtrip_unclipped (m minv : mat3) (t : Tensor R) lead h w :
  mat_nonneg m = true ->
  approx_inverse (1 / 1000000) minv m = true ->
  mat_bounded 4 minv = true ->
  shape t = (lead ++ [3; h; w])%nat -> wf t ->
  Forall (fun v => 0 <= v <= 1) (data t) ->
  exists lab raw out,
    RgbToLab.forward m t = Ok lab /\
    LabToRgb.forward minv lab false = Ok raw /\
    LabToRgb.forward minv lab true = Ok out /\
    shape raw = shape t /\
    Forall2 (Rclose (1 / 1000)) (data t) (data raw) /\
    Forall2 (Rclose (1 / 1000)) (data raw) (data out).
Proof.
  intros HN HI HB Hs Hwf H01. pose proof (wf_chw Hs Hwf) as H.
  unfold RgbToLab.forward, LabToRgb.forward.
  destruct (rgb_to_lab_chw m H) as (lab & El & Hl & Pl).
  destruct (lab_to_rgb_chw minv false Hl) as (raw & Er & Hr & Pr).
  exists lab, raw, (tmap (clamp (lit 0.0%Q) (lit 1.0%Q)) raw).
  split; [exact El|]. split; [exact Er|].
  split; [now rewrite lab_to_rgb_clip_raw, Er|].
  split; [now rewrite (proj1 Hr), Hs|].
  rewrite Pl, map_map in Pr.
  assert (Hclose : Forall2 (Rclose (1 / 1000)) (data t) (data raw)).
  { apply (Forall2_pixels _ _ H Hr Pr).
    apply Forall_forall. intros [[r g] b] Hin.
    destruct (Forall_pixels3 _ t _ H01 Hin) as (Hr' & Hg' & Hb').
    now apply roundtrip_pixel_raw. }
  split; [exact Hclose|].
  cbn [tmap data]. rewrite <- (map_id (data raw)) at 1.
  apply Forall2_map_map. apply Forall_forall. intros u Hu.
  pose proof (Forall2_close_range _ _ _ u H01 Hclose Hu) as Hb.
  destruct (clamp01_cases u) as (_ & C0 & C1 & C2).
  unfold Rclose, id.
  destruct (Rlt_dec u 0) as [U0|U0]; [rewrite (C0 U0); lra|].
  destruct (Rlt_dec 1 u) as [U1|U1]; [rewrite (C2 U1); lra|].
  rewrite C1 by lra. lra.
Qed.

End RealFacts.

(** ** The theorems at sample tensors *)

Lemma rgb_to_lab_per_pixel_witness :
  exists out,
    rgb_to_lab mat3_id image_real = Ok out /\
    shape out = [1; 3; 1; 2] /\ wf out /\
    pixels3 out = map (rgb_to_lab_pixel mat3_id) (pixels3 image_real).
Proof.
  exact (rgb_to_lab_per_pixel mat3_id image_real [1] 1 2 eq_refl eq_refl).
Defined.

Lemma lab_to_rgb_per_pixel_witness :
  exists out,
    lab_to_rgb mat3_id image_real true = Ok out /\
    shape out = [1; 3; 1; 2] /\ wf out /\
    pixels3 out = map (lab_to_rgb_formula mat3_id true) (pixels3 image_real) /\
    Forall (fun v : R => ltb v (lit 0%Q) = false /\ ltb (lit 1%Q) v = false)
           (data out).
Proof.
  destruct (lab_to_rgb_per_pixel mat3_id true image_real [1] 1 2
              eq_refl eq_refl) as (out & E & Hs & Hwf & P & _ & C).
  exists out. split; [exact E|]. split; [exact Hs|].
  split; [exact Hwf|]. split; [exact P|].
  apply C; [reflexivity|].
  cbn [ltb lit R_Scalar R_FloatScalar]. unfold Rltb.
  destruct (Rlt_dec (Q2R 0) (Q2R 1)) as [_|n]; [reflexivity|].
  exfalso. apply n. unfold Q2R. simpl. lra.
Defined.

Lemma rgb_to_grayscale_default_witness :
  rgb_to_grayscale image_u8 None
  = Ok (mkTensor [2; 1; 1; 2] [159; 158; 30; 30]%Z) /\
  rgb_to_grayscale image_real None
  = Ok (mkTensor [1; 1; 1; 2]
          (map (fun px : R * R * R =>
                  let '(r, g, b) := px in
                  (0.299 * r + 0.587 * g + 0.114 * b)%R)
               (pixels3 image_real))).
Proof.
  split.
  - exact (proj1 rgb_to_grayscale_default Z u8_Scalar image_u8 [2] 1 2
             eq_refl eq_refl).
  - exact (proj2 rgb_to_grayscale_default image_real [1] 1 2 eq_refl eq_refl).
Defined.

(** An 8-bit integer kind and a floating-point kind that get no default
    weights: [int8] and [bfloat16] tensors raise [TypeError]. *)
Lemma rgb_to_grayscale_default_counterexample :
  @rgb_to_grayscale Z i8_Scalar image_i8 None = Raise TypeError /\
  @rgb_to_grayscale R bf16_Scalar image_real None = Raise TypeError.
Proof. split; reflexivity. Qed.

Lemma rgb_to_grayscale_uint8_wraps_witness :
  rgb_to_grayscale white_u8 None = Ok (mkTensor [1; 1; 1] [1%Z]) /\
  (255 < weighted_sum8 (255, 255, 255))%Z.
Proof.
  split.
  - exact (proj1 (rgb_to_grayscale_uint8_wraps white_u8 [] 1 1 eq_refl eq_refl)).
  - reflexivity.
Defined.

Lemma bgr_to_grayscale_reversed_witness :
  exists reversed,
    flip_m3 image_u8 = Ok reversed /\
    shape reversed = [2; 3; 1; 2] /\ wf reversed /\
    pixels3 reversed = map swap_rb (pixels3 image_u8) /\
    bgr_to_grayscale image_u8 = rgb_to_grayscale reversed None.
Proof.
  exact (bgr_to_grayscale_reversed image_u8 [2] 1 2 eq_refl eq_refl).
Defined.

Lemma grayscale_to_rgb_slices_witness :
  exists rgb,
    grayscale_to_rgb gray_u8 = Ok rgb /\
    shape rgb = [2; 3; 1; 2] /\ wf rgb /\
    forall i, i < 3 ->
      channel rgb i = [1; 2; 3; 4]%Z /\ narrow_m3 rgb i (S i) = Ok gray_u8.
Proof.
  exact (grayscale_to_rgb_slices gray_u8 [2] 1 2 eq_refl eq_refl).
Defined.

Lemma converters_raise_witness :
  rgb_to_grayscale two_channel_u8 None = Raise ValueError /\
  grayscale_to_rgb white_u8 = Raise ValueError /\
  @rgb_to_grayscale Z i64_Scalar image_u8 None = Raise TypeError /\
  rgb_to_lab mat3_id two_channel_real = Raise ValueError /\
  lab_to_rgb mat3_id two_channel_real true = Raise ValueError.
Proof.
  destruct converters_raise as [G L].
  split; [|split; [|split; [|split]]].
  - destruct (G Z u8_Scalar two_channel_u8 [] 2 1 1 eq_refl) as (_ & G3 & _).
    apply G3. lia.
  - destruct (G Z u8_Scalar white_u8 [] 3 1 1 eq_refl) as (G1 & _).
    apply G1. lia.
  - destruct (G Z i64_Scalar image_u8 [2] 3 1 2 eq_refl) as (_ & _ & GT).
    apply GT; reflexivity.
  - apply (L R _ _ two_channel_real [] 2 1 1 eq_refl). lia.
  - apply (L R _ _ two_channel_real [] 2 1 1 eq_refl). lia.
Defined.

Lemma converters_reject_low_dim_witness :
  grayscale_to_rgb matrix_u8 = Raise ValueError /\
  rgb_to_grayscale matrix_u8 None = Raise ValueError /\
  bgr_to_grayscale matrix_u8 = Raise ValueError /\
  rgb_to_lab mat3_id matrix_real = Raise ValueError /\
  lab_to_rgb mat3_id matrix_real false = Raise ValueError.
Proof.
  destruct converters_reject_low_dim as [G L].
  assert (D8 : dim matrix_u8 < 3) by (unfold dim; simpl; lia).
  assert (DR : dim matrix_real < 3) by (unfold dim; simpl; lia).
  destruct (G Z u8_Scalar matrix_u8 D8) as (G1 & G2 & G3).
  destruct (L R _ _ matrix_real DR) as (L1 & L2).
  split; [exact G1|]. split; [exact (G2 None)|]. split; [exact G3|].
  split; [exact (L1 mat3_id)|exact (L2 mat3_id false)].
Defined.

Lemma converters_preserve_axes_witness :
  (exists out, grayscale_to_rgb gray_u8 = Ok out /\ shape out = [2; 3; 1; 2]) /\
  (exists out, rgb_to_grayscale image_u8 None = Ok out /\
               shape out = [2; 1; 1; 2]) /\
  (exists out, bgr_to_grayscale image_u8 = Ok out /\
               shape out = [2; 1; 1; 2]) /\
  (exists out, rgb_to_lab mat3_id image_real = Ok out /\
               shape out = [1; 3; 1; 2]) /\
  (exists out, lab_to_rgb mat3_id image_real true = Ok out /\
               shape out = [1; 3; 1; 2]).
Proof.
  destruct converters_preserve_axes as [G L].
  destruct (G Z u8_Scalar gray_u8 [2] 1 2 eq_refl) as (G1 & _).
  destruct (G Z u8_Scalar image_u8 [2] 1 2 eq_refl) as (_ & G3).
  destruct (G3 eq_refl) as (_ & GD). destruct (GD eq_refl) as (G4 & G5).
  destruct (L R _ _ image_real [1] 1 2 eq_refl eq_refl) as (L1 & L2).
  split; [exact (G1 eq_refl)|]. split; [exact G4|]. split; [exact G5|].
  split; [exact (L1 mat3_id)|exact (L2 mat3_id true)].
Defined.

Lemma lab_roundtrip_witness :
  exists lab out,
    rgb_to_lab sample_rgb_xyz image_real = Ok lab /\
    lab_to_rgb sample_xyz_rgb lab true = Ok out /\
    shape out = shape image_real /\ wf out /\
    Forall2 (Rclose (1 / 1000)) (data image_real) (data out).
Proof.
  apply (lab_roundtrip sample_rgb_xyz sample_xyz_rgb image_real [1] 1 2).
  - vm_compute. reflexivity.
  - vm_compute. reflexivity.
  - vm_compute. reflexivity.
  - reflexivity.
  - reflexivity.
  - unfold image_real, data. repeat constructor; lra.
Defined.

Lemma rgb_to_grayscale_supplied_witness :
  @rgb_to_grayscale Z i64_Scalar image_u8 (Some [2; 3; 5]%Z)
  = Ok (mkTensor [2; 1; 1; 2] [36; 46; 1275; 1275]%Z).
Proof.
  exact (@rgb_to_grayscale_supplied Z i64_Scalar image_u8 [2] 1 2 2%Z 3%Z 5%Z
           eq_refl eq_refl).
Defined.

Lemma rgb_to_grayscale_weights_length_witness :
  rgb_to_grayscale image_u8 (Some [1; 2]%Z) = Raise ValueError.
Proof.
  apply (rgb_to_grayscale_weights_length image_u8 [2] 1 2 [1; 2]%Z).
  - reflexivity.
  - simpl. lia.
Defined.

Lemma gray_rgb_gray_witness :
  (rgb <- GrayscaleToRgb.forward gray_u8 ;;
   RgbToGrayscale.forward (RgbToGrayscale.init (Some [1; 2; 0]%Z)) rgb)
  = Ok (mkTensor [2; 1; 1; 2] [3; 6; 9; 12]%Z) /\
  (rgb <- GrayscaleToRgb.forward gray_u8 ;;
   RgbToGrayscale.forward (RgbToGrayscale.init None) rgb)
  = Ok (mkTensor [2; 1; 1; 2] [255; 254; 253; 252]%Z).
Proof.
  destruct gray_rgb_gray as (GW & G8). split.
  - exact (GW Z u8_Scalar gray_u8 [2] 1 2 1%Z 2%Z 0%Z eq_refl eq_refl).
  - exact (proj1 (G8 gray_u8 [2] 1 2 eq_refl eq_refl)).
Defined.

Lemma u8_add_comm (x y : Z) : add x y = add y x.
Proof. cbn [add u8_Scalar]. now rewrite Z.add_comm. Qed.

Lemma u8_add_assoc (x y z : Z) : add (add x y) z = add x (add y z).
Proof.
  cbn [add u8_Scalar]. unfold wrap8.
  now rewrite Zplus_mod_idemp_l, Zplus_mod_idemp_r, Z.add_assoc.
Qed.

Lemma bgr_to_grayscale_weights_witness :
  bgr_to_grayscale image_u8
  = rgb_to_grayscale image_u8 (Some [29; 150; 76]%Z) /\
  bgr_to_grayscale image_u8
  = Ok (mkTensor [2; 1; 1; 2] [91; 90; 77; 77]%Z).
Proof.
  exact (bgr_to_grayscale_weights image_u8 [2] 1 2 76%Z 150%Z 29%Z
           u8_add_comm u8_add_assoc eq_refl eq_refl eq_refl).
Defined.

Lemma bgr_to_grayscale_symmetric_witness :
  bgr_to_grayscale symmetric_u8 = rgb_to_grayscale symmetric_u8 None /\
  (rgb <- GrayscaleToRgb.forward gray_u8 ;; BgrToGrayscale.forward rgb)
  = (rgb <- GrayscaleToRgb.forward gray_u8 ;;
     RgbToGrayscale.forward (RgbToGrayscale.init None) rgb).
Proof.
  destruct (@bgr_to_grayscale_symmetric Z u8_Scalar) as (G & M). split.
  - apply (G symmetric_u8 [] 1 2); reflexivity.
  - apply (M gray_u8 [2] 1 2); reflexivity.
Defined.

Lemma converters_layout_witness :
  result_data (rgb_to_grayscale image_u8 None)
  = result_data (rgb_to_grayscale image_u8_column None) /\
  result_data (bgr_to_grayscale image_u8)
  = result_data (bgr_to_grayscale image_u8_column) /\
  result_data (rgb_to_lab mat3_id image_real)
  = result_data (rgb_to_lab mat3_id image_real_column).
Proof.
  destruct converters_layout as (G & L).
  destruct (G Z u8_Scalar image_u8 image_u8_column [2] [1; 2] 3 1 2 2 1
              eq_refl eq_refl eq_refl eq_refl eq_refl eq_refl)
    as (_ & G3 & GB).
  destruct (L R _ _ image_real image_real_column [1] [] 3 1 2 2 1
              eq_refl eq_refl eq_refl eq_refl eq_refl eq_refl)
    as (L1 & _).
  split; [exact (G3 None)|]. split; [exact GB|exact (L1 mat3_id)].
Defined.

Lemma converters_batch_witness :
  result_data (rgb_to_grayscale image_u8 None)
  = (a <- result_data (rgb_to_grayscale first_u8 None) ;;
     b <- result_data (rgb_to_grayscale second_u8 None) ;; Ok (a ++ b)) /\
  result_data (grayscale_to_rgb image_u8) = Raise ValueError.
Proof.
  destruct converters_batch as (G & _).
  destruct (G Z u8_Scalar image_u8 first_u8 second_u8 [2] [1] [1] 3 1 2
              eq_refl eq_refl eq_refl eq_refl eq_refl eq_refl eq_refl)
    as (G1 & G3 & _).
  split; [exact (G3 None)|exact G1].
Defined.

Lemma converters_empty_witness :
  grayscale_to_rgb empty_gray_u8 = Ok (mkTensor [2; 3; 0; 5] []) /\
  rgb_to_grayscale empty_u8 None = Ok (mkTensor [0; 1; 4; 5] []) /\
  rgb_to_lab mat3_id empty_real = Ok (mkTensor [0; 3; 4; 5] []) /\
  lab_to_rgb mat3_id empty_real true = Ok (mkTensor [0; 3; 4; 5] []).
Proof.
  destruct converters_empty as (G & L).
  destruct (G Z u8_Scalar empty_gray_u8 [2] 0 5 eq_refl eq_refl) as (G1 & _).
  destruct (G Z u8_Scalar empty_u8 [0] 4 5 eq_refl eq_refl) as (_ & G3).
  destruct (G3 eq_refl) as (_ & GD). destruct (GD eq_refl) as (G4 & _).
  destruct (L R _ _ empty_real [0] 4 5 eq_refl eq_refl eq_refl) as (L1 & L2).
  split; [exact (G1 eq_refl)|]. split; [exact G4|].
  split; [exact (L1 mat3_id)|exact (L2 mat3_id true)].
Defined.

Lemma Rltb_0_1 : @ltb R _ _ (lit 0%Q) (lit 1%Q) = true.
Proof.
  cbn [ltb lit R_Scalar R_FloatScalar]. apply Rltb_true.
  unfold Q2R. simpl. lra.
Qed.

Lemma lab_to_rgb_clip_witness :
  exists raw out : Tensor R,
    lab_to_rgb mat3_id image_real false = Ok raw /\
    lab_to_rgb mat3_id image_real true = Ok out /\
    shape out = shape raw /\
    Forall2 (fun u v =>
               (ltb u (lit 0%Q) = true -> v = lit 0%Q) /\
               (ltb u (lit 0%Q) = false -> ltb (lit 1%Q) u = true ->
                v = lit 1%Q) /\
               (ltb u (lit 0%Q) = false -> ltb (lit 1%Q) u = false -> v = u))
            (data raw) (data out).
Proof.
  exact (lab_to_rgb_clip mat3_id image_real [1] 1 2 Rltb_0_1 eq_refl eq_refl).
Defined.

Lemma rgb_to_lab_lightness_witness :
  exists out,
    rgb_to_lab sample_rgb_xyz image_real = Ok out /\
    Forall (fun L => 0 <= L <= 100)%R (channel out 0).
Proof.
  apply (rgb_to_lab_lightness sample_rgb_xyz image_real [1] 1 2).
  - vm_compute. reflexivity.
  - vm_compute. reflexivity.
  - reflexivity.
  - reflexivity.
  - unfold image_real, data. repeat constructor; lra.
Defined.

Lemma lab_thresholds_witness :
  @ltb R _ _ (lit 0.008856%Q) (88562 / 10000000)%R = true /\
  @ltb R _ _ (lit 0.2068966%Q) (pow (88562 / 10000000)%R (lit (1 / 3)%Q))
  = false /\
  lab_finv (lab_f (88562 / 10000000)%R)
  = div (sub (pow (88562 / 10000000)%R (lit (1 / 3)%Q)) (lit (4 / 29)%Q))
        (lit 7.787%Q) /\
  (88562 / 10000000 + 1 / 100000000
   <= lab_finv (lab_f (88562 / 10000000))
   <= 88562 / 10000000 + 1 / 1000000)%R.
Proof. apply (lab_thresholds (88562 / 10000000)%R). lra. Defined.

Lemma to_linear_dark (v : R) :
  (v <= 4 / 100 -> to_linear v = v / (1292 / 100))%R.
Proof.
  intros Hv. rewrite to_linear_R.
  destruct (Rltb (4045 / 100000) v) eqn:H; [|reflexivity].
  apply Rltb_true in H. lra.
Qed.

Lemma lab_f_monotone_witness :
  (lab_f (8856 / 1000000) + 2 / 10000000 <= lab_f (8857 / 1000000))%R /\
  (fst (fst (rgb_to_lab_pixel sample_rgb_xyz (0, 0, 0)))
   <= fst (fst (rgb_to_lab_pixel sample_rgb_xyz (1 / 100, 1 / 100, 1 / 100))))%R.
Proof.
  destruct lab_f_monotone as (_ & J & L). split.
  - apply J; lra.
  - apply L. rewrite !dot_R, !to_linear_dark by lra. unfold Q2R. simpl. lra.
Defined.

Lemma lab_roundtrip_unclipped_witness :
  exists lab raw out,
    RgbToLab.forward sample_rgb_xyz image_real = Ok lab /\
    LabToRgb.forward sample_xyz_rgb lab false = Ok raw /\
    LabToRgb.forward sample_xyz_rgb lab true = Ok out /\
    shape raw = shape image_real /\
    Forall2 (Rclose (1 / 1000)) (data image_real) (data raw) /\
    Forall2 (Rclose (1 / 1000)) (data raw) (data out).
Proof.
  apply (lab_roundtrip_unclipped sample_rgb_xyz sample_xyz_rgb image_real
           [1] 1 2).
  - vm_compute. reflexivity.
  - vm_compute. reflexivity.
  - vm_compute. reflexivity.
  - reflexivity.
  - reflexivity.
  - unfold image_real, data. repeat constructor; lra.
Defined.

(** ** The operations at sample tensors *)

Example pixels3_image_u8 :
  channel image_u8 0 = [1; 2; 255; 255]%Z /\
  pixels3 image_u8 = [(1, 3, 5); (2, 4, 6); (255, 255, 0); (255, 255, 0)]%Z.
Proof. split; reflexivity. Qed.

Example select_m3_image_u8 :
  select_m3 image_u8 1 = Ok (mkTensor [2; 1; 2] [3; 4; 255; 255]%Z).
Proof. reflexivity. Qed.

Example stack_m3_select_m3 :
  (x <- select_m3 image_u8 0 ;;
   y <- select_m3 image_u8 1 ;;
   z <- select_m3 image_u8 2 ;;
   stack_m3 [x; y; z]) = Ok image_u8.
Proof. reflexivity. Qed.

Example bgr_to_rgb_image_u8 :
  bgr_to_rgb image_u8
  = Ok (mkTensor [2; 3; 1; 2] [5; 6; 3; 4; 1; 2; 0; 0; 255; 255; 255; 255]%Z).
Proof. reflexivity. Qed.

Example grayscale_to_rgb_gray_u8 :
  grayscale_to_rgb gray_u8
  = Ok (mkTensor [2; 3; 1; 2] [1; 2; 1; 2; 1; 2; 3; 4; 3; 4; 3; 4]%Z).
Proof. reflexivity. Qed.

Example bgr_to_grayscale_image_u8 :
  bgr_to_grayscale image_u8 = Ok (mkTensor [2; 1; 1; 2] [91; 90; 77; 77]%Z).
Proof. reflexivity. Qed.

Example expand_c11_white :
  expand_c11 (mkTensor [3; 1; 1] [1; 2; 3]%Z) [2; 3; 1; 2]
  = Ok (mkTensor [2; 3; 1; 2] [1; 1; 2; 2; 3; 3; 1; 1; 2; 2; 3; 3]%Z).
Proof. reflexivity. Qed.

Example pixels3_image_real :
  pixels3 image_real = [(0.5, 0.5, 0.5); (0.25, 0.75, 1)]%R.
Proof. reflexivity. Qed.

(** The two clamps of the formula of [lab_to_rgb] over the real numbers:
    a negative [fz] becomes 0, and a value is clipped to 0 from below
    and to 1 from above. *)
Example clamps_real :
  (lab_fz 0 100 = 0 /\ lab_fz 50 0 = 66 / 116 /\
   clipped (- (1 / 2)) = 0 /\ clipped (1 / 4) = 1 / 4 /\
   clipped (3 / 2) = 1)%R.
Proof.
  unfold lab_fz, clipped.
  cbn [ltb lit add sub div R_Scalar R_FloatScalar].
  unfold Q2R. simpl.
  repeat split;
    repeat match goal with
           | |- context [Rltb ?x ?y] =>
               lazymatch y with
               | context [Rltb] => fail
               | _ =>
                   let H := fresh in
                   destruct (Rltb x y) eqn:H;
                   [apply Rltb_true in H | apply Rltb_false in H]
               end
           end;
    lra.
Qed.
